(** * Reservation core of proj3/kernel/p3_rsv.c

    A shallow embedding of the rate-monotonic reservation manager: the
    reservation list, the priority recomputation, the per-reservation
    periodic timer, the teardown path and the three system calls
    [set_rsv], [cancel_rsv] and [wait_until_next_period].

    Kernel objects are kept the way the C code has them.  Reservation
    entries live in a heap of [kzalloc]'ed records and are linked into
    [p3_rsv_list] by address, so that the array of entry pointers built by
    the priority pass, and the entry pointer a waiter keeps after it has
    dropped the lock, alias the records they point to. *)

From stdpp Require Import gmap list fin_maps.
From Stdlib Require Import ZArith Lia.

Local Open Scope Z_scope.

(** ** Constants *)

Definition P3_MAX_RSV : nat := 50.

(** [MAX_RT_PRIO] comes from <linux/sched/prio.h>, which is not part of the
    repository; its value there is 100 (the repository's notes say the
    highest real-time priority MAX_RT_PRIO-1 is 99 and the lowest is 1). *)
Definition MAX_RT_PRIO : Z := 100.

Definition SCHED_NORMAL : Z := 0.
Definition SCHED_FIFO : Z := 1.

(** errno values of <uapi/asm-generic/errno-base.h>. *)
Definition ENOENT : Z := 2.
Definition ESRCH : Z := 3.
Definition EINTR : Z := 4.
Definition ENOMEM : Z := 12.
Definition EFAULT : Z := 14.
Definition EBUSY : Z := 16.
Definition EINVAL : Z := 22.
Definition ENOSPC : Z := 28.

(** ** Time values: <linux/ktime.h> *)

Record timespec := mk_timespec { tv_sec : Z; tv_nsec : Z }.

Definition NSEC_PER_SEC : Z := 1000000000.
Definition KTIME_MAX : Z := 2 ^ 63 - 1.
Definition KTIME_SEC_MAX : Z := KTIME_MAX / NSEC_PER_SEC.

(** Two's-complement reading of a 64-bit pattern (an [s64]). *)
Definition to_s64 (x : Z) : Z := (x + 2 ^ 63) mod 2 ^ 64 - 2 ^ 63.

(** [ktime_set(secs, nsecs)]: saturates at [KTIME_MAX] for large second
    counts, otherwise [secs * NSEC_PER_SEC + (s64)nsecs] in 64-bit
    arithmetic. *)
Definition ktime_set (secs nsecs : Z) : Z :=
  if KTIME_SEC_MAX <=? secs then KTIME_MAX
  else to_s64 (secs * NSEC_PER_SEC + nsecs).

Definition ktime_to_ns (kt : Z) : Z := kt.

(** ** Kernel objects *)

(** Addresses of heap objects ([struct p3_rsv_entry *],
    [struct task_struct *]) are [positive] numbers. *)

(** The part of [struct task_struct] the reservation code reads or writes:
    the pid, the reference count moved by [get_task_struct] /
    [put_task_struct], the [PF_EXITING] bit of [flags], and the scheduling
    class and real-time priority set through [sched_setscheduler_nocheck]. *)
Record task_struct := mk_task {
  t_pid : Z;
  usage : Z;
  pf_exiting : bool;
  policy : Z;
  rt_priority : Z
}.

Inductive hrtimer_state := HRTIMER_STATE_INACTIVE | HRTIMER_STATE_ENQUEUED.

Inductive hrtimer_restart := HRTIMER_NORESTART | HRTIMER_RESTART.

(** [struct p3_rsv_entry].  [wq] holds the pids of the tasks sleeping on
    the entry's wait queue; [period_seq] is the 64-bit pattern of the
    [atomic64_t]. *)
Record p3_rsv_entry := mk_entry {
  pid : Z;
  task : option positive;
  C_ns : Z;
  T_ns : Z;
  prio : Z;
  timer : hrtimer_state;
  next_release : Z;
  wq : list Z;
  period_seq : Z;
  canceled : bool
}.

Definition set_prio (v : Z) (e : p3_rsv_entry) : p3_rsv_entry :=
  mk_entry (pid e) (task e) (C_ns e) (T_ns e) v (timer e)
           (next_release e) (wq e) (period_seq e) (canceled e).

Definition set_timer (v : hrtimer_state) (e : p3_rsv_entry) : p3_rsv_entry :=
  mk_entry (pid e) (task e) (C_ns e) (T_ns e) (prio e) v
           (next_release e) (wq e) (period_seq e) (canceled e).

Definition set_wq (v : list Z) (e : p3_rsv_entry) : p3_rsv_entry :=
  mk_entry (pid e) (task e) (C_ns e) (T_ns e) (prio e) (timer e)
           (next_release e) v (period_seq e) (canceled e).

Definition set_period_seq (v : Z) (e : p3_rsv_entry) : p3_rsv_entry :=
  mk_entry (pid e) (task e) (C_ns e) (T_ns e) (prio e) (timer e)
           (next_release e) (wq e) v (canceled e).

Definition set_canceled (v : bool) (e : p3_rsv_entry) : p3_rsv_entry :=
  mk_entry (pid e) (task e) (C_ns e) (T_ns e) (prio e) (timer e)
           (next_release e) (wq e) (period_seq e) v.

(** The kernel state the reservation code works on: the allocated entries,
    the global [p3_rsv_list] (entry addresses in list order), the task
    structures, and the pid hash consulted by [pid_task(find_vpid(pid))]. *)
Record kstate := mk_kstate {
  heap : gmap positive p3_rsv_entry;
  p3_rsv_list : list positive;
  tasks : gmap positive task_struct;
  pidhash : gmap Z positive
}.

Definition with_heap (h : gmap positive p3_rsv_entry) (st : kstate) : kstate :=
  mk_kstate h (p3_rsv_list st) (tasks st) (pidhash st).

Definition with_list (l : list positive) (st : kstate) : kstate :=
  mk_kstate (heap st) l (tasks st) (pidhash st).

Definition with_tasks (ts : gmap positive task_struct) (st : kstate) : kstate :=
  mk_kstate (heap st) (p3_rsv_list st) ts (pidhash st).

(** ** Collaborators: process registry and scheduler control *)

Definition pid_task (st : kstate) (p : Z) : option positive := pidhash st !! p.

Definition task_add_usage (d : Z) (t : task_struct) : task_struct :=
  mk_task (t_pid t) (usage t + d) (pf_exiting t) (policy t) (rt_priority t).

(** [get_task_struct] / [put_task_struct] as reference-count bookkeeping;
    the release of a task structure whose count drops to zero belongs to
    the process subsystem and is outside this model. *)
Definition get_task_struct (t : positive) (st : kstate) : kstate :=
  with_tasks (alter (task_add_usage 1) t (tasks st)) st.

Definition put_task_struct (t : positive) (st : kstate) : kstate :=
  with_tasks (alter (task_add_usage (-1)) t (tasks st)) st.

Definition task_set_sched (pol sp : Z) (t : task_struct) : task_struct :=
  mk_task (t_pid t) (usage t) (pf_exiting t) pol sp.

Definition sched_setscheduler_nocheck (t : positive) (pol sp : Z) (st : kstate)
  : kstate :=
  with_tasks (alter (task_set_sched pol sp) t (tasks st)) st.

(** ** Helpers *)

(** [p3_find_locked]: first entry of the list whose pid matches. *)
Fixpoint find_in (h : gmap positive p3_rsv_entry) (l : list positive) (p : Z)
  : option positive :=
  match l with
  | [] => None
  | it :: l' =>
      match h !! it with
      | Some ent => if pid ent =? p then Some it else find_in h l' p
      | None => find_in h l' p
      end
  end.

Definition p3_find_locked (st : kstate) (p : Z) : option positive :=
  find_in (heap st) (p3_rsv_list st) p.

(** ** Rate-monotonic priority pass: [p3_reassign_rm_prios_locked] *)

(** First loop: copy at most [P3_MAX_RSV] entry pointers into [arr]. *)
Definition rm_collect (l : list positive) : list positive :=
  foldl (fun arr it =>
           if decide (length arr < P3_MAX_RSV)%nat then arr ++ [it] else arr)
        [] l.

(** [arr[k]->T_ns]. *)
Definition T_of (h : gmap positive p3_rsv_entry) (it : positive) : Z :=
  match h !! it with
  | Some ent => ktime_to_ns (T_ns ent)
  | None => 0
  end.

(** Body of the inner loop at indices [i], [j]: exchange the two pointers
    when the later one has the smaller period. *)
Definition rm_exchange (h : gmap positive p3_rsv_entry) (i : nat)
    (arr : list positive) (j : nat) : list positive :=
  match arr !! i, arr !! j with
  | Some ai, Some aj =>
      if T_of h aj <? T_of h ai then <[j := ai]> (<[i := aj]> arr) else arr
  | _, _ => arr
  end.

(** [for (j = i + 1; j < n; j++)]. *)
Definition rm_inner (h : gmap positive p3_rsv_entry) (n : nat)
    (arr : list positive) (i : nat) : list positive :=
  foldl (rm_exchange h i) arr (seq (S i) (n - S i)).

(** [for (i = 0; i < n; i++)]. *)
Definition rm_sort (h : gmap positive p3_rsv_entry) (arr : list positive)
  : list positive :=
  foldl (rm_inner h (length arr)) arr (seq 0 (length arr)).

(** [int prio = (MAX_RT_PRIO - 1) - i; if (prio < 1) prio = 1;] *)
Definition rm_prio (i : nat) : Z :=
  let prio := (MAX_RT_PRIO - 1) - Z.of_nat i in
  if prio <? 1 then 1 else prio.

(** Body of the last loop for [arr[i] = it]. *)
Definition rm_assign_one (i : nat) (it : positive) (st : kstate) : kstate :=
  match heap st !! it with
  | None => st
  | Some ent =>
      let st1 := with_heap (<[it := set_prio (rm_prio i) ent]> (heap st)) st in
      match task ent with
      | Some t => sched_setscheduler_nocheck t SCHED_FIFO (rm_prio i) st1
      | None => st1
      end
  end.

Fixpoint rm_assign (i : nat) (arr : list positive) (st : kstate) : kstate :=
  match arr with
  | [] => st
  | it :: arr' => rm_assign (S i) arr' (rm_assign_one i it st)
  end.

(** The array of entry pointers after the sorting loops. *)
Definition rm_order (st : kstate) : list positive :=
  rm_sort (heap st) (rm_collect (p3_rsv_list st)).

Definition p3_reassign_rm_prios_locked (st : kstate) : kstate :=
  rm_assign 0 (rm_order st) st.

(** ** Periodic release: the hrtimer callback *)

(** [atomic64_inc] on the 64-bit pattern. *)
Definition atomic64_inc (v : Z) : Z := (v + 1) mod 2 ^ 64.

(** [wake_up_all(&e->wq)]: every sleeper leaves the queue and is runnable. *)
Definition wake_up_all (e : p3_rsv_entry) : p3_rsv_entry := set_wq [] e.

(** [p3_timer_cb].  [hrtimer_forward_now] only moves the expiry time of the
    timer forward by whole periods, which has no counterpart in the entry
    fields kept here. *)
Definition p3_timer_cb (e : positive) (st : kstate) : hrtimer_restart * kstate :=
  match heap st !! e with
  | None => (HRTIMER_NORESTART, st)
  | Some ent =>
      if canceled ent then (HRTIMER_NORESTART, st)
      else
        let ent1 := set_period_seq (atomic64_inc (period_seq ent)) ent in
        let ent2 := wake_up_all ent1 in
        (HRTIMER_RESTART, with_heap (<[e := ent2]> (heap st)) st)
  end.

(** One expiry as the hrtimer core runs it: an enqueued timer is taken off
    the queue, its callback is called, and the timer is put back on the
    queue exactly when the callback answers [HRTIMER_RESTART]. *)
Definition hrtimer_expire (e : positive) (st : kstate) : kstate :=
  match heap st !! e with
  | None => st
  | Some ent =>
      match timer ent with
      | HRTIMER_STATE_INACTIVE => st
      | HRTIMER_STATE_ENQUEUED =>
          let st0 :=
            with_heap (<[e := set_timer HRTIMER_STATE_INACTIVE ent]> (heap st)) st in
          match p3_timer_cb e st0 with
          | (HRTIMER_RESTART, st1) =>
              with_heap (alter (set_timer HRTIMER_STATE_ENQUEUED) e (heap st1)) st1
          | (HRTIMER_NORESTART, st1) => st1
          end
      end
  end.

(** ** Teardown: [p3_free_entry], one definition per statement *)

(** [WRITE_ONCE(e->canceled, true)]. *)
Definition free_mark_canceled (e : positive) (st : kstate) : kstate :=
  with_heap (alter (set_canceled true) e (heap st)) st.

(** [hrtimer_cancel(&e->timer)]. *)
Definition free_hrtimer_cancel (e : positive) (st : kstate) : kstate :=
  with_heap (alter (set_timer HRTIMER_STATE_INACTIVE) e (heap st)) st.

(** [wake_up_all(&e->wq)]. *)
Definition free_wake_up_all (e : positive) (st : kstate) : kstate :=
  with_heap (alter wake_up_all e (heap st)) st.

(** The [if (e->task)] block: back to [SCHED_NORMAL] unless the task is
    exiting, then drop the reference. *)
Definition free_release_task (e : positive) (st : kstate) : kstate :=
  match heap st !! e with
  | None => st
  | Some ent =>
      match task ent with
      | None => st
      | Some t =>
          let st1 :=
            match tasks st !! t with
            | Some ts =>
                if pf_exiting ts then st
                else sched_setscheduler_nocheck t SCHED_NORMAL 0 st
            | None => st
            end in
          put_task_struct t st1
      end
  end.

(** [kfree(e)]. *)
Definition kfree (e : positive) (st : kstate) : kstate :=
  with_heap (delete e (heap st)) st.

Definition p3_free_entry (e : option positive) (st : kstate) : kstate :=
  match e with
  | None => st
  | Some e =>
      kfree e
        (free_release_task e
           (free_wake_up_all e
              (free_hrtimer_cancel e
                 (free_mark_canceled e st))))
  end.

(** ** System calls *)

(** [list_del(&e->node)]. *)
Definition list_del (e : positive) (st : kstate) : kstate :=
  with_list (filter (fun x => x <> e) (p3_rsv_list st)) st.

(** [list_add_tail(&e->node, &p3_rsv_list)]. *)
Definition list_add_tail (e : positive) (st : kstate) : kstate :=
  with_list (p3_rsv_list st ++ [e]) st.

(** [kzalloc]: [ok] says whether the allocator finds memory; the object it
    hands out is at an address not in use. *)
Definition kzalloc (ok : bool) (h : gmap positive p3_rsv_entry)
  : option positive :=
  if ok then Some (fresh (dom h)) else None.

(** The entry [set_rsv] builds in the zeroed allocation before it links it:
    pid, task, C, T, sequence 0, not canceled, empty wait queue, timer
    started.  [prio] is still the zero of [kzalloc]. *)
Definition new_entry (p : Z) (t : positive) (Cns Tns : Z) : p3_rsv_entry :=
  mk_entry p (Some t) Cns Tns 0 HRTIMER_STATE_ENQUEUED 0 [] 0 false.

(** [set_rsv(pid, C, T)] called by the task with pid [cur].  [C] and [T]
    are what [copy_from_user] reads ([None]: the copy faults). *)
Definition set_rsv (cur : Z) (ok : bool) (p : Z) (C T : option timespec)
    (st : kstate) : Z * kstate :=
  let p := if p =? 0 then cur else p in
  match C, T with
  | Some c_us, Some t_us =>
      if (tv_sec c_us <? 0) || (tv_nsec c_us <? 0)
         || (tv_sec t_us <? 0) || (tv_nsec t_us <? 0)
      then (- EINVAL, st)
      else
        let Cns := ktime_set (tv_sec c_us) (tv_nsec c_us) in
        let Tns := ktime_set (tv_sec t_us) (tv_nsec t_us) in
        if (ktime_to_ns Cns <=? 0) || (ktime_to_ns Tns <=? 0)
        then (- EINVAL, st)
        else if ktime_to_ns Cns >? ktime_to_ns Tns
        then (- EINVAL, st)
        else
          match pid_task st p with
          | None => (- ESRCH, st)
          | Some t =>
              let st1 := get_task_struct t st in
              match p3_find_locked st1 p with
              | Some _ => (- EBUSY, put_task_struct t st1)
              | None =>
                  if decide (P3_MAX_RSV <= length (p3_rsv_list st1))%nat
                  then (- ENOSPC, put_task_struct t st1)
                  else
                    match kzalloc ok (heap st1) with
                    | None => (- ENOMEM, put_task_struct t st1)
                    | Some e =>
                        let st2 :=
                          with_heap (<[e := new_entry p t Cns Tns]> (heap st1))
                                    st1 in
                        (0, p3_reassign_rm_prios_locked (list_add_tail e st2))
                    end
              end
          end
  | _, _ => (- EFAULT, st)
  end.

(** [cancel_rsv(pid)] called by the task with pid [cur]. *)
Definition cancel_rsv (cur : Z) (p : Z) (st : kstate) : Z * kstate :=
  let p := if p =? 0 then cur else p in
  match p3_find_locked st p with
  | None => (- ENOENT, st)
  | Some e =>
      let st1 := list_del e st in
      let st2 := p3_free_entry (Some e) st1 in
      (0, p3_reassign_rm_prios_locked st2)
  end.

(** [p3_sched_exit_cb(ignore, p)]: [p] is the exiting task. *)
Definition p3_sched_exit_cb (p : option positive) (st : kstate) : kstate :=
  match p with
  | None => st
  | Some t =>
      match tasks st !! t with
      | None => st
      | Some ts =>
          let e := p3_find_locked st (t_pid ts) in
          let st1 := match e with Some e' => list_del e' st | None => st end in
          let st2 := match e with Some _ => p3_free_entry e st1 | None => st1 end in
          p3_reassign_rm_prios_locked st2
      end
  end.

(** ** [wait_until_next_period] as the steps of the calling task

    The call is cut where other contexts can run in between: after the
    locked lookup that reads [seen], after the unlocked re-check, inside
    [wait_event_interruptible], and before the final read of [canceled]. *)
Inductive wait_pc :=
  | W_lookup
  | W_recheck (e : positive) (seen : Z)
  | W_wait (e : positive) (seen : Z)
  | W_woken (e : positive)
  | W_return (r : Z)
  | W_fault.

(** The condition [wait_event_interruptible] is given. *)
Definition wait_cond (ent : p3_rsv_entry) (seen : Z) : bool :=
  negb (period_seq ent =? seen) || canceled ent.

(** One step of the task [cur]; [sig] tells whether a signal is pending for
    it.  In [W_wait] the task tests the condition and, in the same step,
    either leaves the wait (condition true), gives up with [-EINTR]
    (signal pending), or is put to sleep on the entry's wait queue.
    [W_fault] stands for a read of an entry that has been freed. *)
Definition wait_step (cur : Z) (sig : bool) (st : kstate) (pc : wait_pc)
  : kstate * wait_pc :=
  match pc with
  | W_lookup =>
      match p3_find_locked st cur with
      | None => (st, W_return (- ENOENT))
      | Some e =>
          match heap st !! e with
          | Some ent => (st, W_recheck e (period_seq ent))
          | None => (st, W_fault)
          end
      end
  | W_recheck e seen =>
      match heap st !! e with
      | Some ent =>
          if negb (period_seq ent =? seen) then (st, W_return 0)
          else (st, W_wait e seen)
      | None => (st, W_fault)
      end
  | W_wait e seen =>
      match heap st !! e with
      | Some ent =>
          let off := filter (fun x => x <> cur) (wq ent) in
          if wait_cond ent seen then
            (with_heap (<[e := set_wq off ent]> (heap st)) st, W_woken e)
          else if sig then
            (with_heap (<[e := set_wq off ent]> (heap st)) st, W_return (- EINTR))
          else
            (with_heap (<[e := set_wq (cur :: off) ent]> (heap st)) st, W_wait e seen)
      | None => (st, W_fault)
      end
  | W_woken e =>
      match heap st !! e with
      | Some ent =>
          if canceled ent then (st, W_return (- ENOENT)) else (st, W_return 0)
      | None => (st, W_fault)
      end
  | W_return r => (st, W_return r)
  | W_fault => (st, W_fault)
  end.

(** A task sleeps while it sits on the wait queue of the entry it waits
    for; otherwise the scheduler may run it. *)
Definition sleeping (cur : Z) (st : kstate) (pc : wait_pc) : Prop :=
  match pc with
  | W_wait e _ =>
      match heap st !! e with
      | Some ent => cur ∈ wq ent
      | None => False
      end
  | _ => False
  end.

(** ** Loop invariants of the sorting loops *)

(** Cells below [i] hold periods no larger than any later cell. *)
Definition settled (h : gmap positive p3_rsv_entry) (arr : list positive)
    (i : nat) : Prop :=
  forall a b x y, (a < i)%nat -> (a < b)%nat ->
    arr !! a = Some x -> arr !! b = Some y -> T_of h x <= T_of h y.

(** Cell [i] holds a period no larger than the cells in [(i, j)]. *)
Definition least_upto (h : gmap positive p3_rsv_entry) (arr : list positive)
    (i j : nat) : Prop :=
  forall b x y, (i < b < j)%nat ->
    arr !! i = Some x -> arr !! b = Some y -> T_of h x <= T_of h y.

(** ** Observations on a state *)

(** The priority and the period stored in the entry at address [it]. *)
Definition prio_of (st : kstate) (it : positive) : option Z :=
  prio <$> heap st !! it.

Definition period_of (st : kstate) (it : positive) : option Z :=
  (fun ent => ktime_to_ns (T_ns ent)) <$> heap st !! it.

(** The priority of the reservation of pid [p], if it has one. *)
Definition rsv_prio (st : kstate) (p : Z) : option Z :=
  match p3_find_locked st p with
  | Some it => prio_of st it
  | None => None
  end.

(** ** Well-formed stores and reachable states *)

(** What the list operations maintain: every node is linked once and
    points to an allocated entry, no two linked entries carry the same pid,
    and at most [P3_MAX_RSV] entries are linked. *)
Record store_wf (st : kstate) : Prop := mk_store_wf {
  wf_nodup : NoDup (p3_rsv_list st);
  wf_alloc : forall it, it ∈ p3_rsv_list st -> is_Some (heap st !! it);
  wf_pids : forall a b ea eb,
      a ∈ p3_rsv_list st -> b ∈ p3_rsv_list st ->
      heap st !! a = Some ea -> heap st !! b = Some eb ->
      pid ea = pid eb -> a = b;
  wf_cap : (length (p3_rsv_list st) <= P3_MAX_RSV)%nat
}.

(** The state at boot: no reservation has been made yet. *)
Definition boot (st : kstate) : Prop :=
  heap st = ∅ /\ p3_rsv_list st = [].

(** The entry points through which the reservation state changes, each
    call taken as one step.  This is coarser than the code: [cancel_rsv]
    and [p3_sched_exit_cb] release [p3_rsv_lock] between [list_del] and
    the final priority pass, and the timer callback holds no lock; the
    states in between are not states of this relation.  What is proved of
    [reachable] states is proved of the states between whole calls. *)
Inductive kstep : kstate -> kstate -> Prop :=
  | kstep_set_rsv cur ok p C T st :
      kstep st (set_rsv cur ok p C T st).2
  | kstep_cancel_rsv cur p st :
      kstep st (cancel_rsv cur p st).2
  | kstep_exit t st :
      kstep st (p3_sched_exit_cb t st)
  | kstep_timer e st :
      kstep st (hrtimer_expire e st)
  | kstep_wait cur sig pc st :
      kstep st (wait_step cur sig st pc).1.

Definition reachable (st : kstate) : Prop :=
  exists st0, boot st0 /\ rtc kstep st0 st.

(** ** Vocabulary of the registration contract *)

(** The pid a call is about: pid 0 stands for the caller. *)
Definition target_pid (cur p : Z) : Z := if p =? 0 then cur else p.

(** The duration, in nanoseconds, that the kernel derives from a
    [timespec] handed in by the user. *)
Definition ts_ns (ts : timespec) : Z :=
  ktime_to_ns (ktime_set (tv_sec ts) (tv_nsec ts)).

(** A duration that is not positive: a negative field, or a value of at
    most zero nanoseconds. *)
Definition ts_nonpositive (ts : timespec) : Prop :=
  tv_sec ts < 0 \/ tv_nsec ts < 0 \/ ts_ns ts <= 0.

(** "C or T is non-positive or C > T". *)
Definition args_invalid (c t : timespec) : Prop :=
  ts_nonpositive c \/ ts_nonpositive t \/ ts_ns c > ts_ns t.

Definition args_invalidb (c t : timespec) : bool :=
  (tv_sec c <? 0) || (tv_nsec c <? 0) || (ts_ns c <=? 0)
  || (tv_sec t <? 0) || (tv_nsec t <? 0) || (ts_ns t <=? 0)
  || (ts_ns c >? ts_ns t).

(** The checks of a registration, in the order in which the contract is
    said to apply them, each with the error it reports.  Every check is a
    test on the arguments and on the state the call starts from. *)
Inductive rsv_check :=
  | Chk_readable | Chk_valid | Chk_resolve
  | Chk_duplicate | Chk_capacity | Chk_alloc.

Definition rsv_check_order : list rsv_check :=
  [Chk_readable; Chk_valid; Chk_resolve; Chk_duplicate; Chk_capacity; Chk_alloc].

Definition rsv_check_errno (c : rsv_check) : Z :=
  match c with
  | Chk_readable => - EFAULT
  | Chk_valid => - EINVAL
  | Chk_resolve => - ESRCH
  | Chk_duplicate => - EBUSY
  | Chk_capacity => - ENOSPC
  | Chk_alloc => - ENOMEM
  end.

Definition rsv_check_fails (cur : Z) (ok : bool) (p : Z)
    (C T : option timespec) (st : kstate) (c : rsv_check) : bool :=
  match c with
  | Chk_readable =>
      match C, T with Some _, Some _ => false | _, _ => true end
  | Chk_valid =>
      match C, T with Some c, Some t => args_invalidb c t | _, _ => false end
  | Chk_resolve =>
      match pid_task st (target_pid cur p) with Some _ => false | None => true end
  | Chk_duplicate =>
      match p3_find_locked st (target_pid cur p) with Some _ => true | None => false end
  | Chk_capacity => bool_decide (P3_MAX_RSV <= length (p3_rsv_list st))%nat
  | Chk_alloc => negb ok
  end.

(** The error of the first failing check in that order, or 0. *)
Definition set_rsv_precedence (cur : Z) (ok : bool) (p : Z)
    (C T : option timespec) (st : kstate) : Z :=
  match list_find (fun c => rsv_check_fails cur ok p C T st c = true)
                  rsv_check_order with
  | Some (_, c) => rsv_check_errno c
  | None => 0
  end.

(** ** Example states *)

(** A task structure as the process subsystem would hold it for a running
    task of the default scheduling class. *)
Definition plain_task (p : Z) : task_struct := mk_task p 1 false SCHED_NORMAL 0.

(** The state at boot of a system whose tasks have the pids [pids]: task
    number [k] of the list lives at address [k + 1]. *)
Definition boot_state (pids : list Z) : kstate :=
  mk_kstate ∅ []
    (list_to_map (imap (fun k p => (Pos.of_succ_nat k, plain_task p)) pids))
    (list_to_map (imap (fun k p => (p, Pos.of_succ_nat k)) pids)).

Definition msec (n : Z) : timespec := mk_timespec 0 (n * 1000000).

(** Each task of [pids] in turn reserves 1 ms every 10 ms for itself. *)
Definition register_all (pids : list Z) (st : kstate) : kstate :=
  foldl (fun s p => (set_rsv p true 0 (Some (msec 1)) (Some (msec 10)) s).2)
        st pids.

(** Fifty tasks, all holding a reservation. *)
Definition fifty_pids : list Z := Z.of_nat <$> seq 1 50.

Definition full_store : kstate := register_all fifty_pids (boot_state fifty_pids).

(** Task 100 alone, holding a reservation of 2 ms every 10 ms. *)
Definition one_rsv : kstate :=
  (set_rsv 100 true 100 (Some (msec 2)) (Some (msec 10)) (boot_state [100; 101])).2.

(** Tasks 100 (2 ms every 10 ms) and 101 (1 ms every 5 ms). *)
Definition two_rsv : kstate :=
  (set_rsv 101 true 101 (Some (msec 1)) (Some (msec 5)) one_rsv).2.

(** [one_rsv] after three periods have elapsed. *)
Definition one_rsv_aged : kstate :=
  hrtimer_expire 1 (hrtimer_expire 1 (hrtimer_expire 1 one_rsv)).

(** The reservation store of a state alone: the entries and the list. *)
Definition store_only (st : kstate) : kstate :=
  mk_kstate (heap st) (p3_rsv_list st) ∅ ∅.

(** ** Calls and interference *)

(** A call of [wait_until_next_period] observed step by step: the k-th
    element of [sched] is the pending-signal flag and the kernel state the
    task finds when it takes its k-th step.  Nothing is assumed about how
    other contexts changed the state between two steps.  The result is the
    control point the call has reached at the end of the schedule. *)
Definition run_wait (cur : Z) (sched : list (bool * kstate)) (pc : wait_pc)
  : wait_pc :=
  foldl (fun pc ss => (wait_step cur ss.1 ss.2 pc).2) pc sched.

(** [n] consecutive expiries of the timer of entry [e]. *)
Definition expire_n (n : nat) (e : positive) (st : kstate) : kstate :=
  Nat.iter n (hrtimer_expire e) st.

(** The statements of [p3_free_entry] that follow the write of [canceled],
    up to but not including [kfree]. *)
Inductive teardown_step (e : positive) : kstate -> kstate -> Prop :=
  | td_hrtimer_cancel st : teardown_step e st (free_hrtimer_cancel e st)
  | td_wake_up_all st : teardown_step e st (free_wake_up_all e st)
  | td_release_task st : teardown_step e st (free_release_task e st).

(** What can happen to the state while entry [e] is being torn down and
    not yet freed: any entry point of the kernel, in any context, each
    taken as one step (a timer callback included), and the remaining
    statements of the teardown of [e]. *)
Definition interference (e : positive) (st st' : kstate) : Prop :=
  kstep st st' \/ teardown_step e st st'.

(** Entry [e] is unlinked, allocated and marked canceled, and its sequence
    counter stands at [s]. *)
Definition torn_down (e : positive) (s : Z) (st : kstate) : Prop :=
  exists ent, heap st !! e = Some ent /\ canceled ent = true /\
    period_seq ent = s /\ e ∉ p3_rsv_list st.

(** [one_rsv] at the moment the teardown of task 100's entry has unlinked
    it and set [canceled]. *)
Definition one_rsv_marked : kstate :=
  free_mark_canceled 1 (list_del 1 one_rsv).

(** Task 100 calls [wait_until_next_period]: lookup, re-check and going to
    sleep happen in [one_rsv]; its last two steps find the entry marked
    canceled. *)
Definition cancelled_wait_schedule : list (bool * kstate) :=
  [(false, one_rsv); (false, one_rsv); (false, one_rsv);
   (false, one_rsv_marked); (false, one_rsv_marked)].

(** ** Further observations and invariants *)

(** The reference count and the scheduling class and priority of the task
    structure at address [t]. *)
Definition usage_of (st : kstate) (t : positive) : option Z :=
  usage <$> tasks st !! t.

Definition sched_of (st : kstate) (t : positive) : option (Z * Z) :=
  (fun ts => (policy ts, rt_priority ts)) <$> tasks st !! t.

(** The priorities stored in the entries are the ones a priority pass
    would write. *)
Definition rm_fixed (st : kstate) : Prop :=
  forall k it, rm_order st !! k = Some it -> prio_of st it = Some (rm_prio k).

(** An entry as [set_rsv] leaves it and the timer callback keeps it: not
    canceled, timer on the queue, 0 < C <= T, sequence within 64 bits. *)
Definition entry_live (ent : p3_rsv_entry) : Prop :=
  canceled ent = false /\ timer ent = HRTIMER_STATE_ENQUEUED /\
  0 < C_ns ent <= T_ns ent /\ 0 <= period_seq ent < 2 ^ 64.

Definition entries_live (st : kstate) : Prop :=
  forall it, it ∈ p3_rsv_list st ->
    exists ent, heap st !! it = Some ent /\ entry_live ent.

(** A call of [wait_until_next_period] left alone: [n] steps of the caller
    with no signal pending, each on the state the previous one left. *)
Fixpoint wait_alone (n : nat) (cur : Z) (st : kstate) (pc : wait_pc)
  : kstate * wait_pc :=
  match n with
  | O => (st, pc)
  | S n' =>
      wait_alone n' cur (wait_step cur false st pc).1 (wait_step cur false st pc).2
  end.

(** The task pointer stored in the entry at address [it]. *)
Definition entry_task (st : kstate) (it : positive) : option positive :=
  heap st !! it ≫= task.

(** Tasks 100 and 101, both holding a reservation of 1 ms every 10 ms,
    registered in this order. *)
Definition tie_rsv : kstate := register_all [100; 101] (boot_state [100; 101]).

(** The rank written last to the task [t] by the assignment loop started
    at rank [i] over [arr]: the rank of the last array entry whose task
    pointer is [t], if there is one. *)
Fixpoint last_task_rank (st : kstate) (t : positive) (i : nat)
    (arr : list positive) : option nat :=
  match arr with
  | [] => None
  | it :: arr' =>
      match last_task_rank st t (S i) arr' with
      | Some k => Some k
      | None =>
          if decide (entry_task st it = Some t) then Some i else None
      end
  end.

(** ** The calibration tool: growth loop of [calibrate]

    [dummy_load_calib] is an [int]; [meas k] stands for what the k-th
    call of [measure_us] returns (a difference of two clock readings).
    [calibrate_grow] is the loop [while (us < 100) { if (dummy_load_calib
    > 1000000) break; dummy_load_calib *= 10; us = measure_us(ref_ms); }]
    run with [fuel] iterations at most; it yields the calibration value,
    the last measurement and the number of measurements taken. *)
Definition to_s32 (x : Z) : Z := (x + 2 ^ 31) mod 2 ^ 32 - 2 ^ 31.

Fixpoint calibrate_grow (fuel : nat) (meas : nat -> Z) (k : nat)
    (calib us : Z) : option (Z * Z * nat) :=
  if us <? 100 then
    if calib >? 1000000 then Some (calib, us, k)
    else
      match fuel with
      | O => None
      | S fuel' =>
          calibrate_grow fuel' meas (S k) (to_s32 (calib * 10)) (meas k)
      end
  else Some (calib, us, k).

(** [dummy_load_calib = 1; us = measure_us(ref_ms);] followed by the loop. *)
Definition calibrate_start (fuel : nat) (meas : nat -> Z)
  : option (Z * Z * nat) :=
  calibrate_grow fuel meas 1 1 (meas 0%nat).

(** ** Further example states *)

(** Fifty-one tasks, pids 1 to 51; the first fifty hold a reservation and
    task 51 holds none. *)
Definition crowded_store : kstate :=
  register_all fifty_pids (boot_state (fifty_pids ++ [51])).


(** The statements of [p3_timer_cb] that follow its test of [canceled]:
    [atomic64_inc], [hrtimer_forward_now], [wake_up_all], and the answer
    [HRTIMER_RESTART].  No lock is held between the test and these. *)
Definition p3_timer_cb_tail (e : positive) (st : kstate)
  : hrtimer_restart * kstate :=
  match heap st !! e with
  | None => (HRTIMER_RESTART, st)
  | Some ent =>
      let ent1 := set_period_seq (atomic64_inc (period_seq ent)) ent in
      let ent2 := wake_up_all ent1 in
      (HRTIMER_RESTART, with_heap (<[e := ent2]> (heap st)) st)
  end.

(** * Properties *)

(** ** The sorting loops of the priority pass *)

Section rm_sort_facts.
Local Open Scope nat_scope.

Variable h : gmap positive p3_rsv_entry.

Lemma rm_collect_from (acc l : list positive) :
  length acc <= P3_MAX_RSV ->
  foldl (fun arr it =>
           if decide (length arr < P3_MAX_RSV) then arr ++ [it] else arr)
        acc l
  = acc ++ take (P3_MAX_RSV - length acc) l.
Proof.
  revert acc. induction l as [|x l IH]; intros acc Hacc; simpl.
  - by rewrite take_nil, app_nil_r.
  - destruct (decide (length acc < P3_MAX_RSV)) as [Hlt|Hge].
    + rewrite IH by (rewrite length_app; simpl; lia).
      rewrite length_app; simpl.
      replace (P3_MAX_RSV - length acc) with (S (P3_MAX_RSV - (length acc + 1))) by lia.
      simpl. by rewrite <- app_assoc.
    + rewrite IH by done.
      replace (P3_MAX_RSV - length acc) with 0 by lia.
      by rewrite !take_0.
Qed.

Lemma rm_collect_take (l : list positive) :
  rm_collect l = take P3_MAX_RSV l.
Proof.
  unfold rm_collect. rewrite rm_collect_from by (simpl; unfold P3_MAX_RSV; lia).
  reflexivity.
Qed.

Lemma rm_collect_all (l : list positive) :
  length l <= P3_MAX_RSV -> rm_collect l = l.
Proof. intros Hl. rewrite rm_collect_take. by apply take_ge. Qed.

(** Exchanging two cells of an array. *)
Lemma exchange_lookup (arr : list positive) i j ai aj x :
  arr !! i = Some ai -> arr !! j = Some aj ->
  <[j := ai]> (<[i := aj]> arr) !! x
  = if decide (x = j) then Some ai
    else if decide (x = i) then Some aj else arr !! x.
Proof.
  intros Hi Hj.
  apply lookup_lt_Some in Hi as Hil. apply lookup_lt_Some in Hj as Hjl.
  destruct (decide (x = j)) as [->|Hxj].
  - rewrite list_lookup_insert_eq by (by rewrite length_insert). done.
  - rewrite list_lookup_insert_ne by done.
    destruct (decide (x = i)) as [->|Hxi].
    + by rewrite list_lookup_insert_eq.
    + by rewrite list_lookup_insert_ne.
Qed.

Lemma insert_head_perm (l : list positive) j a b :
  l !! j = Some b -> b :: <[j := a]> l ≡ₚ a :: l.
Proof.
  revert j. induction l as [|x l IH]; intros [|j] Hj; simplify_eq/=.
  - apply perm_swap.
  - rewrite perm_swap. rewrite (IH _ Hj). apply perm_swap.
Qed.

Lemma exchange_perm (arr : list positive) i j ai aj :
  i < j -> arr !! i = Some ai -> arr !! j = Some aj ->
  <[j := ai]> (<[i := aj]> arr) ≡ₚ arr.
Proof.
  revert i j. induction arr as [|x arr IH]; intros i j Hij Hi Hj.
  - done.
  - destruct j as [|j]; [lia|]. destruct i as [|i]; simplify_eq/=.
    + by apply insert_head_perm.
    + f_equiv. apply IH; [lia|done..].
Qed.

Lemma rm_exchange_length i arr j :
  length (rm_exchange h i arr j) = length arr.
Proof.
  unfold rm_exchange.
  destruct (arr !! i), (arr !! j); try done.
  case_match; [by rewrite !length_insert | done].
Qed.

Lemma rm_exchange_perm i arr j :
  i < j -> rm_exchange h i arr j ≡ₚ arr.
Proof.
  intros Hij. unfold rm_exchange.
  destruct (arr !! i) as [ai|] eqn:Hi, (arr !! j) as [aj|] eqn:Hj; try done.
  case_match; [by eapply exchange_perm | done].
Qed.

Lemma rm_exchange_inv i arr j :
  i < j -> settled h arr i -> least_upto h arr i j ->
  settled h (rm_exchange h i arr j) i /\ least_upto h (rm_exchange h i arr j) i (S j).
Proof.
  intros Hij Hset Hleast. unfold rm_exchange.
  destruct (arr !! i) as [ai|] eqn:Hi; cycle 1.
  { split; [done|]. intros b x y _ Hx. congruence. }
  destruct (arr !! j) as [aj|] eqn:Hj; cycle 1.
  { split; [done|]. intros b x y Hb Hx Hy.
    destruct (decide (b = j)) as [->|]; [congruence|].
    eapply Hleast; [|done..]. lia. }
  destruct (T_of h aj <? T_of h ai)%Z eqn:Hcmp.
  - apply Z.ltb_lt in Hcmp. split.
    + intros a b x y Ha Hab.
      rewrite !(exchange_lookup _ _ _ _ _ _ Hi Hj).
      rewrite (decide_False (P := a = j)), (decide_False (P := a = i)) by lia.
      intros Hx. repeat case_decide; intros Hy; simplify_eq.
      * eapply (Hset a i); [done| lia |done..].
      * eapply (Hset a j); [done| lia |done..].
      * by eapply (Hset a b).
    + intros b x y Hb.
      rewrite !(exchange_lookup _ _ _ _ _ _ Hi Hj).
      rewrite (decide_False (P := i = j)), (decide_True (P := i = i)) by lia.
      intros Hx. repeat case_decide; intros Hy; simplify_eq.
      * lia.
      * lia.
      * assert (T_of h ai <= T_of h y)%Z; [|lia].
        eapply (Hleast b); [lia|done..].
  - apply Z.ltb_ge in Hcmp. split; [done|].
    intros b x y Hb Hx Hy. simplify_eq.
    destruct (decide (b = j)) as [->|]; [by simplify_eq|].
    eapply (Hleast b); [lia|done..].
Qed.

Lemma rm_inner_from i m : forall s arr,
  i < s -> settled h arr i -> least_upto h arr i s ->
  let arr' := foldl (rm_exchange h i) arr (seq s m) in
  length arr' = length arr /\ arr' ≡ₚ arr /\
  settled h arr' i /\ least_upto h arr' i (s + m).
Proof.
  induction m as [|m IH]; intros s arr Hs Hset Hleast; simpl.
  - by rewrite Nat.add_0_r.
  - destruct (rm_exchange_inv i arr s Hs Hset Hleast) as [Hset' Hleast'].
    destruct (IH (S s) (rm_exchange h i arr s)) as (Hlen & Hperm & ? & ?);
      [lia|done..|].
    replace (s + S m) with (S s + m) by lia.
    split_and!; [|etrans; [exact Hperm|by apply rm_exchange_perm]|done..].
    by rewrite Hlen, rm_exchange_length.
Qed.

Lemma rm_inner_inv n arr i :
  length arr <= n -> settled h arr i ->
  length (rm_inner h n arr i) = length arr /\
  rm_inner h n arr i ≡ₚ arr /\
  settled h (rm_inner h n arr i) (S i).
Proof.
  intros Hn Hset. unfold rm_inner.
  destruct (rm_inner_from i (n - S i) (S i) arr) as (Hlen & Hperm & Hset' & Hleast');
    [lia|done| |].
  { intros b x y Hb. lia. }
  split_and!; [done..|].
  intros a b x y Ha Hab Hx Hy.
  destruct (decide (a = i)) as [->|]; [|eapply Hset'; [|done..]; lia].
  eapply (Hleast' b); [|done..].
  apply lookup_lt_Some in Hy. lia.
Qed.

Lemma rm_outer_from n m : forall s arr,
  length arr <= n -> settled h arr s ->
  let arr' := foldl (rm_inner h n) arr (seq s m) in
  length arr' = length arr /\ arr' ≡ₚ arr /\ settled h arr' (s + m).
Proof.
  induction m as [|m IH]; intros s arr Hn Hset; simpl.
  - by rewrite Nat.add_0_r.
  - destruct (rm_inner_inv n arr s Hn Hset) as (Hlen & Hperm & Hset').
    destruct (IH (S s) (rm_inner h n arr s)) as (Hlen2 & Hperm2 & ?);
      [lia|done|].
    replace (s + S m) with (S s + m) by lia.
    split_and!; [congruence|by etrans|done].
Qed.

Lemma rm_sort_length arr : length (rm_sort h arr) = length arr.
Proof.
  unfold rm_sort.
  destruct (rm_outer_from (length arr) (length arr) 0 arr) as (? & _); [lia| |done].
  intros a b x y Ha. lia.
Qed.

Lemma rm_sort_perm arr : rm_sort h arr ≡ₚ arr.
Proof.
  unfold rm_sort.
  destruct (rm_outer_from (length arr) (length arr) 0 arr) as (_ & ? & _); [lia| |done].
  intros a b x y Ha. lia.
Qed.

Lemma rm_sort_ascending arr i j x y :
  i <= j -> rm_sort h arr !! i = Some x -> rm_sort h arr !! j = Some y ->
  (T_of h x <= T_of h y)%Z.
Proof.
  intros Hij Hx Hy.
  destruct (decide (i = j)) as [->|]; [simplify_eq; lia|].
  destruct (rm_outer_from (length arr) (length arr) 0 arr) as (Hlen & _ & Hset);
    [lia| |].
  { intros a b ? ? Ha. lia. }
  eapply (Hset i j); [|lia|done..].
  apply lookup_lt_Some in Hx. fold (rm_sort h arr) in Hlen. simpl. lia.
Qed.

End rm_sort_facts.

(** ** The assignment loop of the priority pass *)

Section rm_assign_facts.
Local Open Scope nat_scope.

Lemma set_prio_set_prio v w ent : set_prio v (set_prio w ent) = set_prio v ent.
Proof. done. Qed.

Lemma set_prio_id ent : set_prio (prio ent) ent = ent.
Proof. by destruct ent. Qed.

Lemma rm_assign_one_list i it st :
  p3_rsv_list (rm_assign_one i it st) = p3_rsv_list st.
Proof. unfold rm_assign_one. repeat case_match; done. Qed.

Lemma rm_assign_one_pidhash i it st :
  pidhash (rm_assign_one i it st) = pidhash st.
Proof. unfold rm_assign_one. repeat case_match; done. Qed.

Lemma rm_assign_one_heap i it st :
  heap (rm_assign_one i it st)
  = match heap st !! it with
    | Some ent => <[it := set_prio (rm_prio i) ent]> (heap st)
    | None => heap st
    end.
Proof. unfold rm_assign_one. repeat case_match; done. Qed.

Lemma rm_assign_one_other i it st x :
  x ≠ it -> heap (rm_assign_one i it st) !! x = heap st !! x.
Proof.
  intros Hx. rewrite rm_assign_one_heap.
  case_match; [by rewrite lookup_insert_ne|done].
Qed.

Lemma rm_assign_one_at i it st ent :
  heap st !! it = Some ent ->
  heap (rm_assign_one i it st) !! it = Some (set_prio (rm_prio i) ent).
Proof.
  intros Hit. rewrite rm_assign_one_heap, Hit. by rewrite lookup_insert_eq.
Qed.

Lemma rm_assign_list arr : forall i st,
  p3_rsv_list (rm_assign i arr st) = p3_rsv_list st.
Proof.
  induction arr as [|it arr IH]; intros i st; simpl; [done|].
  by rewrite IH, rm_assign_one_list.
Qed.

Lemma rm_assign_pidhash arr : forall i st,
  pidhash (rm_assign i arr st) = pidhash st.
Proof.
  induction arr as [|it arr IH]; intros i st; simpl; [done|].
  by rewrite IH, rm_assign_one_pidhash.
Qed.

Lemma rm_assign_other arr : forall i st x,
  x ∉ arr -> heap (rm_assign i arr st) !! x = heap st !! x.
Proof.
  induction arr as [|it arr IH]; intros i st x Hx; simpl; [done|].
  apply not_elem_of_cons in Hx as [Hne Hx].
  by rewrite IH, rm_assign_one_other.
Qed.

(** The entry at rank [k] of the array gets the priority of rank [k]. *)
Lemma rm_assign_at arr : forall i st k it ent,
  NoDup arr -> arr !! k = Some it -> heap st !! it = Some ent ->
  heap (rm_assign i arr st) !! it = Some (set_prio (rm_prio (i + k)) ent).
Proof.
  induction arr as [|x arr IH]; intros i st k it ent Hnd Hk Hit; [done|].
  apply NoDup_cons in Hnd as [Hx Hnd]. simpl. destruct k as [|k]; simplify_eq/=.
  - rewrite rm_assign_other by done.
    rewrite Nat.add_0_r. by apply rm_assign_one_at.
  - assert (it ≠ x) as Hne.
    { intros ->. apply Hx. by eapply list_elem_of_lookup_2. }
    replace (i + S k) with (S i + k) by lia.
    apply IH; [done..|]. by rewrite rm_assign_one_other.
Qed.

(** The pass changes nothing in an entry but its priority. *)
Lemma rm_assign_entry arr : forall i st it,
  heap (rm_assign i arr st) !! it = None /\ heap st !! it = None \/
  exists ent v, heap st !! it = Some ent /\
                heap (rm_assign i arr st) !! it = Some (set_prio v ent).
Proof.
  induction arr as [|x arr IH]; intros i st it; simpl.
  - destruct (heap st !! it) as [ent|] eqn:Hit; [right|by left].
    exists ent, (prio ent). by rewrite set_prio_id.
  - destruct (IH (S i) (rm_assign_one i x st) it) as [[H1 H2]|(ent & v & H1 & H2)].
    + left. split; [done|]. revert H2. rewrite rm_assign_one_heap.
      destruct (heap st !! x) eqn:Hx; [|done].
      destruct (decide (it = x)) as [->|]; [by rewrite lookup_insert_eq|].
      by rewrite lookup_insert_ne.
    + right. revert H1. rewrite rm_assign_one_heap.
      destruct (heap st !! x) as [ex|] eqn:Hx; [|by eauto].
      destruct (decide (it = x)) as [->|].
      * rewrite lookup_insert_eq. intros [= <-]. exists ex, v. by rewrite H2.
      * rewrite lookup_insert_ne by done. eauto.
Qed.

Lemma reassign_list st :
  p3_rsv_list (p3_reassign_rm_prios_locked st) = p3_rsv_list st.
Proof. apply rm_assign_list. Qed.

Lemma reassign_pidhash st :
  pidhash (p3_reassign_rm_prios_locked st) = pidhash st.
Proof. apply rm_assign_pidhash. Qed.

Lemma reassign_entry st it :
  heap (p3_reassign_rm_prios_locked st) !! it = None /\ heap st !! it = None \/
  exists ent v, heap st !! it = Some ent /\
    heap (p3_reassign_rm_prios_locked st) !! it = Some (set_prio v ent).
Proof. apply rm_assign_entry. Qed.

Lemma reassign_period st it :
  period_of (p3_reassign_rm_prios_locked st) it = period_of st it.
Proof.
  unfold period_of.
  destruct (reassign_entry st it) as [[-> ->]|(ent & v & -> & ->)]; done.
Qed.

Lemma reassign_T_of st it :
  T_of (heap (p3_reassign_rm_prios_locked st)) it = T_of (heap st) it.
Proof.
  unfold T_of.
  destruct (reassign_entry st it) as [[-> ->]|(ent & v & -> & ->)]; done.
Qed.

Lemma rm_order_perm st :
  length (p3_rsv_list st) <= P3_MAX_RSV -> rm_order st ≡ₚ p3_rsv_list st.
Proof.
  intros Hlen. unfold rm_order.
  by rewrite rm_sort_perm, rm_collect_all.
Qed.

Lemma rm_prio_max i : rm_prio i = Z.max 1 ((MAX_RT_PRIO - 1) - Z.of_nat i).
Proof. unfold rm_prio. simpl. case_match; lia. Qed.

Lemma rm_prio_lt i j :
  i < j -> j < P3_MAX_RSV -> (rm_prio j < rm_prio i)%Z.
Proof.
  rewrite !rm_prio_max. unfold MAX_RT_PRIO, P3_MAX_RSV. lia.
Qed.

End rm_assign_facts.

(** C1.  For a well-formed store of at most 50 reservations, one priority
    pass orders the entries by ascending period ([rm_order] is a
    rearrangement of the list with non-decreasing periods), leaves the set
    of reservations and their periods as they were, and gives the entry of
    rank [i] the priority [(MAX_RT_PRIO - 1) - i] clamped below at 1.
    Hence priorities strictly decrease with the rank, and of two
    reservations with different periods the one with the smaller period
    ends up with the larger priority. *)
Theorem rm_pass_priorities (st : kstate) :
  store_wf st ->
  (length (p3_rsv_list st) <= 50)%nat ->
  let st' := p3_reassign_rm_prios_locked st in
  let arr := rm_order st in
  arr ≡ₚ p3_rsv_list st /\
  p3_rsv_list st' = p3_rsv_list st /\
  (forall it, period_of st' it = period_of st it) /\
  (forall i j x y, (i <= j)%nat -> arr !! i = Some x -> arr !! j = Some y ->
     exists tx ty, period_of st x = Some tx /\ period_of st y = Some ty /\ tx <= ty) /\
  (forall i x, arr !! i = Some x ->
     prio_of st' x = Some (Z.max 1 ((MAX_RT_PRIO - 1) - Z.of_nat i)) /\
     1 <= Z.max 1 ((MAX_RT_PRIO - 1) - Z.of_nat i)) /\
  (forall i j x y, (i < j)%nat -> arr !! i = Some x -> arr !! j = Some y ->
     exists px py, prio_of st' x = Some px /\ prio_of st' y = Some py /\ py < px) /\
  (forall x y tx ty, x ∈ p3_rsv_list st -> y ∈ p3_rsv_list st ->
     period_of st x = Some tx -> period_of st y = Some ty -> tx < ty ->
     exists px py, prio_of st' x = Some px /\ prio_of st' y = Some py /\ py < px).
Proof.
  intros Hwf Hlen st' arr.
  assert (arr ≡ₚ p3_rsv_list st) as Hperm by (by apply rm_order_perm).
  assert (NoDup arr) as Hnd by (rewrite Hperm; apply Hwf).
  assert (forall i x, arr !! i = Some x -> exists ent, heap st !! x = Some ent) as Halloc.
  { intros i x Hx. apply (wf_alloc st Hwf). rewrite <- Hperm.
    by eapply list_elem_of_lookup_2. }
  assert (forall i x, arr !! i = Some x -> prio_of st' x = Some (rm_prio i)) as Hprio.
  { intros i x Hx. destruct (Halloc i x Hx) as [ent Hent].
    unfold prio_of, st', p3_reassign_rm_prios_locked. fold arr.
    by rewrite (rm_assign_at arr 0 st i x ent Hnd Hx Hent). }
  assert (forall i j x y, (i < j)%nat -> arr !! i = Some x -> arr !! j = Some y ->
     exists px py, prio_of st' x = Some px /\ prio_of st' y = Some py /\ py < px)
    as Hdecr.
  { intros i j x y Hij Hx Hy. exists (rm_prio i), (rm_prio j).
    split_and!; [by apply Hprio..|]. apply rm_prio_lt; [done|].
    apply lookup_lt_Some in Hy. rewrite Hperm in Hy. unfold P3_MAX_RSV. lia. }
  assert (forall i j x y, (i <= j)%nat -> arr !! i = Some x -> arr !! j = Some y ->
     T_of (heap st) x <= T_of (heap st) y) as Hasc.
  { intros i j x y Hij Hx Hy. by eapply rm_sort_ascending. }
  split_and!; [done|apply reassign_list|apply reassign_period| | |done|].
  - intros i j x y Hij Hx Hy.
    destruct (Halloc i x Hx) as [ex Hex], (Halloc j y Hy) as [ey Hey].
    specialize (Hasc i j x y Hij Hx Hy). unfold T_of in Hasc.
    rewrite Hex, Hey in Hasc. unfold period_of. rewrite Hex, Hey. simpl. eauto.
  - intros i x Hx. rewrite (Hprio i x Hx), rm_prio_max. split; [done|lia].
  - intros x y tx ty Hxl Hyl Htx Hty Hlt.
    rewrite <- Hperm in Hxl, Hyl.
    apply list_elem_of_lookup in Hxl as [i Hi], Hyl as [j Hj].
    destruct (decide (i < j)%nat) as [Hij|Hij]; [by eapply Hdecr|].
    exfalso. assert (j <= i)%nat as Hji by lia.
    specialize (Hasc j i y x Hji Hj Hi). unfold T_of, period_of in *.
    destruct (heap st !! x), (heap st !! y); simplify_eq/=. lia.
Qed.

(** ** Lookup by pid *)

Lemma find_in_Some h l p it :
  find_in h l p = Some it ->
  it ∈ l /\ exists ent, h !! it = Some ent /\ pid ent = p.
Proof.
  induction l as [|x l IH]; simpl; [done|].
  destruct (h !! x) as [ent|] eqn:Hx.
  - destruct (pid ent =? p) eqn:Hp.
    + intros [= <-]. apply Z.eqb_eq in Hp. split; [left|eauto].
    + intros [? ?]%IH. split; [by right|done].
  - intros [? ?]%IH. split; [by right|done].
Qed.

Lemma find_in_None h l p it ent :
  find_in h l p = None -> it ∈ l -> h !! it = Some ent -> pid ent ≠ p.
Proof.
  induction l as [|x l IH]; simpl; [by intros _ ?%elem_of_nil|].
  intros Hfind [->|Hin]%elem_of_cons Hit.
  - rewrite Hit in Hfind. destruct (pid ent =? p) eqn:Hp; [done|].
    by apply Z.eqb_neq.
  - apply IH; [|done..]. by repeat case_match.
Qed.

Lemma find_in_is_Some h l p it ent :
  it ∈ l -> h !! it = Some ent -> pid ent = p -> is_Some (find_in h l p).
Proof.
  intros Hin Hit Hp. destruct (find_in h l p) eqn:Hfind; [done|].
  by destruct (find_in_None _ _ _ _ _ Hfind Hin Hit).
Qed.

(** The lookup only reads the pids of linked entries. *)
Lemma find_in_ext h h' l p :
  (forall it, it ∈ l -> pid <$> h !! it = pid <$> h' !! it) ->
  find_in h l p = find_in h' l p.
Proof.
  induction l as [|x l IH]; intros Hext; simpl; [done|].
  rewrite IH by (intros; apply Hext; by right).
  specialize (Hext x ltac:(by left)).
  destruct (h !! x), (h' !! x); simplify_eq/=; [|done].
  by rewrite Hext.
Qed.

(** ** Reference counts *)

Lemma put_get_task_struct t st : put_task_struct t (get_task_struct t st) = st.
Proof.
  destruct st as [h l ts ph]. unfold put_task_struct, get_task_struct, with_tasks.
  simpl. f_equal. rewrite alter_alter_eq. apply alter_id.
  intros [tp us ex po rp] _. unfold task_add_usage. simpl. f_equal. lia.
Qed.

(** ** Well-formedness is kept by every entry point *)

Lemma store_wf_frame st st' :
  p3_rsv_list st' = p3_rsv_list st ->
  (forall it ent, it ∈ p3_rsv_list st -> heap st !! it = Some ent ->
     exists ent', heap st' !! it = Some ent' /\ pid ent' = pid ent) ->
  store_wf st -> store_wf st'.
Proof.
  intros Hl Hh [Hnd Hal Hpid Hcap]. split; rewrite ?Hl; [done| | |done].
  - intros it Hit. destruct (Hal it Hit) as [ent Hent].
    destruct (Hh it ent Hit Hent) as (ent' & -> & _). done.
  - intros a b ea eb Ha Hb Hea Heb Heq.
    destruct (Hal a Ha) as [ea0 Hea0], (Hal b Hb) as [eb0 Heb0].
    destruct (Hh a ea0 Ha Hea0) as (ea' & Hea' & Hpa).
    destruct (Hh b eb0 Hb Heb0) as (eb' & Heb' & Hpb).
    simplify_eq. eapply Hpid; [done..|congruence].
Qed.

Lemma reassign_wf st : store_wf st -> store_wf (p3_reassign_rm_prios_locked st).
Proof.
  apply store_wf_frame; [apply reassign_list|].
  intros it ent _ Hent.
  destruct (reassign_entry st it) as [[_ ?]|(ent0 & v & ? & ->)]; simplify_eq.
  eauto.
Qed.

Lemma p3_timer_cb_list e st : p3_rsv_list (p3_timer_cb e st).2 = p3_rsv_list st.
Proof. unfold p3_timer_cb. repeat case_match; done. Qed.

Lemma p3_timer_cb_lookup e st it ent :
  heap st !! it = Some ent ->
  exists ent', heap (p3_timer_cb e st).2 !! it = Some ent' /\
    pid ent' = pid ent /\ task ent' = task ent /\ T_ns ent' = T_ns ent /\
    C_ns ent' = C_ns ent /\ prio ent' = prio ent /\ canceled ent' = canceled ent /\
    timer ent' = timer ent.
Proof.
  intros Hit. unfold p3_timer_cb.
  destruct (heap st !! e) as [ee|] eqn:He; [|by eauto 10].
  destruct (canceled ee); [by eauto 10|]. simpl.
  destruct (decide (it = e)) as [->|].
  - rewrite lookup_insert_eq. simplify_eq. eauto 10.
  - rewrite lookup_insert_ne by done. eauto 10.
Qed.

Lemma hrtimer_expire_list e st : p3_rsv_list (hrtimer_expire e st) = p3_rsv_list st.
Proof.
  unfold hrtimer_expire. destruct (heap st !! e) as [ee|]; [|done].
  destruct (timer ee); [done|].
  match goal with |- context [p3_timer_cb e ?s] =>
    pose proof (p3_timer_cb_list e s) as Hl; destruct (p3_timer_cb e s) as [[] s1]
  end; simpl in *; done.
Qed.

Lemma hrtimer_expire_lookup e st it ent :
  heap st !! it = Some ent ->
  exists ent', heap (hrtimer_expire e st) !! it = Some ent' /\
    pid ent' = pid ent /\ task ent' = task ent /\ T_ns ent' = T_ns ent /\
    C_ns ent' = C_ns ent /\ prio ent' = prio ent /\ canceled ent' = canceled ent.
Proof.
  intros Hit. unfold hrtimer_expire.
  destruct (heap st !! e) as [ee|] eqn:He; [|by eauto 10].
  destruct (timer ee); [by eauto 10|].
  match goal with |- context [p3_timer_cb e ?s] =>
    assert (exists ent0, heap s !! it = Some ent0 /\
      pid ent0 = pid ent /\ task ent0 = task ent /\ T_ns ent0 = T_ns ent /\
      C_ns ent0 = C_ns ent /\ prio ent0 = prio ent /\ canceled ent0 = canceled ent)
      as (ent0 & Hent0 & Heq0);
    [|destruct (p3_timer_cb_lookup e s it ent0 Hent0) as (ent1 & Hent1 & Heq1);
      destruct (p3_timer_cb e s) as [[] s1]]
  end; simpl in *.
  - destruct (decide (it = e)) as [->|].
    + rewrite lookup_insert_eq. simplify_eq. eauto 10.
    + rewrite lookup_insert_ne by done. eauto 10.
  - exists ent1. split; [done|]. intuition congruence.
  - destruct (decide (it = e)) as [->|].
    + rewrite lookup_alter_eq, Hent1. simpl. eexists; split; [done|].
      simpl. intuition congruence.
    + rewrite lookup_alter_ne by done. exists ent1. split; [done|].
      intuition congruence.
Qed.

Lemma hrtimer_expire_wf e st : store_wf st -> store_wf (hrtimer_expire e st).
Proof.
  apply store_wf_frame; [apply hrtimer_expire_list|].
  intros it ent _ Hent.
  destruct (hrtimer_expire_lookup e st it ent Hent) as (ent' & ? & ? & _). eauto.
Qed.

Lemma wait_step_list cur sig st pc :
  p3_rsv_list (wait_step cur sig st pc).1 = p3_rsv_list st.
Proof. unfold wait_step. repeat case_match; done. Qed.

Lemma wait_step_lookup cur sig st pc it ent :
  heap st !! it = Some ent ->
  exists q, heap (wait_step cur sig st pc).1 !! it = Some (set_wq q ent).
Proof.
  intros Hit.
  assert (exists q, heap st !! it = Some (set_wq q ent)) as Hsame.
  { exists (wq ent). by destruct ent. }
  unfold wait_step. destruct pc as [|e seen|e seen|e|r|]; simpl;
    repeat case_match; simpl; try done;
    (destruct (decide (it = e)) as [->|];
      [rewrite lookup_insert_eq; simplify_eq; eauto
      |rewrite lookup_insert_ne by done; eauto]).
Qed.

Lemma wait_step_wf cur sig st pc :
  store_wf st -> store_wf (wait_step cur sig st pc).1.
Proof.
  apply store_wf_frame; [apply wait_step_list|].
  intros it ent _ Hent.
  destruct (wait_step_lookup cur sig st pc it ent Hent) as [q ->]. eauto.
Qed.

(** ** Teardown *)

Lemma free_release_task_heap e st : heap (free_release_task e st) = heap st.
Proof. unfold free_release_task. repeat case_match; done. Qed.

Lemma free_release_task_list e st :
  p3_rsv_list (free_release_task e st) = p3_rsv_list st.
Proof. unfold free_release_task. repeat case_match; done. Qed.

Lemma free_release_task_pidhash e st :
  pidhash (free_release_task e st) = pidhash st.
Proof. unfold free_release_task. repeat case_match; done. Qed.

Lemma p3_free_entry_heap e st :
  heap (p3_free_entry (Some e) st)
  = delete e (alter wake_up_all e
                (alter (set_timer HRTIMER_STATE_INACTIVE) e
                   (alter (set_canceled true) e (heap st)))).
Proof. unfold p3_free_entry, kfree. simpl. by rewrite free_release_task_heap. Qed.

Lemma p3_free_entry_list e st :
  p3_rsv_list (p3_free_entry e st) = p3_rsv_list st.
Proof.
  destruct e as [e|]; [|done]. unfold p3_free_entry, kfree. simpl.
  by rewrite free_release_task_list.
Qed.

Lemma p3_free_entry_pidhash e st :
  pidhash (p3_free_entry e st) = pidhash st.
Proof.
  destruct e as [e|]; [|done]. unfold p3_free_entry, kfree. simpl.
  by rewrite free_release_task_pidhash.
Qed.

Lemma p3_free_entry_other e st it :
  it ≠ e -> heap (p3_free_entry (Some e) st) !! it = heap st !! it.
Proof.
  intros Hne. rewrite p3_free_entry_heap.
  by rewrite lookup_delete_ne, !lookup_alter_ne.
Qed.

Lemma p3_free_entry_freed e st : heap (p3_free_entry (Some e) st) !! e = None.
Proof. rewrite p3_free_entry_heap. apply lookup_delete_eq. Qed.

(** Unlinking an entry and tearing it down keeps the store well-formed. *)
Lemma unlink_free_wf e st :
  store_wf st -> store_wf (p3_free_entry (Some e) (list_del e st)).
Proof.
  intros [Hnd Hal Hpid Hcap].
  assert (forall it, it ∈ p3_rsv_list (p3_free_entry (Some e) (list_del e st)) ->
            it ≠ e /\ it ∈ p3_rsv_list st) as Hin.
  { intros it. rewrite p3_free_entry_list. simpl.
    by rewrite list_elem_of_filter. }
  split.
  - rewrite p3_free_entry_list. simpl. by apply NoDup_filter.
  - intros it [Hne Hit]%Hin. rewrite p3_free_entry_other by done. by apply Hal.
  - intros a b ea eb [Hnea Ha]%Hin [Hneb Hb]%Hin.
    rewrite !p3_free_entry_other by done. by apply Hpid.
  - rewrite p3_free_entry_list. simpl.
    etrans; [apply length_filter|done].
Qed.

(** ** [set_rsv] *)

Lemma set_rsv_failure_unchanged cur ok p C T st :
  (set_rsv cur ok p C T st).1 ≠ 0 -> (set_rsv cur ok p C T st).2 = st.
Proof.
  unfold set_rsv. repeat case_match; simpl; try done;
    intros _; apply put_get_task_struct.
Qed.

Lemma args_invalidb_spec c t : args_invalidb c t = true <-> args_invalid c t.
Proof.
  unfold args_invalidb, args_invalid, ts_nonpositive.
  rewrite !orb_true_iff, !Z.ltb_lt, !Z.leb_le, Z.gtb_ltb, Z.ltb_lt. lia.
Qed.

(** The validation tests of [set_rsv] are the tests of [args_invalidb]. *)
Lemma set_rsv_validation c t :
  (tv_sec c <? 0) || (tv_nsec c <? 0) || (tv_sec t <? 0) || (tv_nsec t <? 0)
  || ((ktime_to_ns (ktime_set (tv_sec c) (tv_nsec c)) <=? 0)
      || (ktime_to_ns (ktime_set (tv_sec t) (tv_nsec t)) <=? 0))
  || (ktime_to_ns (ktime_set (tv_sec c) (tv_nsec c))
      >? ktime_to_ns (ktime_set (tv_sec t) (tv_nsec t)))
  = args_invalidb c t.
Proof.
  unfold args_invalidb, ts_ns.
  repeat match goal with |- context [?a <? ?b] => destruct (a <? b) end;
  repeat match goal with |- context [?a <=? ?b] => destruct (a <=? b) end;
  repeat match goal with |- context [?a >? ?b] => destruct (a >? b) end; done.
Qed.

Lemma set_rsv_invalid cur ok p c t st :
  args_invalid c t -> set_rsv cur ok p (Some c) (Some t) st = (- EINVAL, st).
Proof.
  intros Hinv%args_invalidb_spec. rewrite <- set_rsv_validation in Hinv.
  unfold set_rsv.
  destruct ((tv_sec c <? 0) || (tv_nsec c <? 0) || (tv_sec t <? 0)
            || (tv_nsec t <? 0)); [done|].
  destruct ((ktime_to_ns (ktime_set (tv_sec c) (tv_nsec c)) <=? 0)
            || (ktime_to_ns (ktime_set (tv_sec t) (tv_nsec t)) <=? 0)); [done|].
  destruct (ktime_to_ns (ktime_set (tv_sec c) (tv_nsec c))
            >? ktime_to_ns (ktime_set (tv_sec t) (tv_nsec t))); done.
Qed.

(** Past validation, [set_rsv] is the registry lookup followed by the
    locked section. *)
Lemma set_rsv_valid cur ok p c t st :
  ~ args_invalid c t ->
  set_rsv cur ok p (Some c) (Some t) st
  = match pid_task st (target_pid cur p) with
    | None => (- ESRCH, st)
    | Some tk =>
        let st1 := get_task_struct tk st in
        match p3_find_locked st1 (target_pid cur p) with
        | Some _ => (- EBUSY, put_task_struct tk st1)
        | None =>
            if decide (P3_MAX_RSV <= length (p3_rsv_list st1))%nat
            then (- ENOSPC, put_task_struct tk st1)
            else
              match kzalloc ok (heap st1) with
              | None => (- ENOMEM, put_task_struct tk st1)
              | Some e =>
                  (0, p3_reassign_rm_prios_locked
                        (list_add_tail e
                           (with_heap
                              (<[e := new_entry (target_pid cur p) tk (ts_ns c) (ts_ns t)]>
                                 (heap st1)) st1)))
              end
        end
    end.
Proof.
  intros Hval. rewrite <- args_invalidb_spec, <- set_rsv_validation in Hval.
  unfold set_rsv.
  destruct ((tv_sec c <? 0) || (tv_nsec c <? 0) || (tv_sec t <? 0)
            || (tv_nsec t <? 0)); [done|].
  destruct ((ktime_to_ns (ktime_set (tv_sec c) (tv_nsec c)) <=? 0)
            || (ktime_to_ns (ktime_set (tv_sec t) (tv_nsec t)) <=? 0)); [done|].
  destruct (ktime_to_ns (ktime_set (tv_sec c) (tv_nsec c))
            >? ktime_to_ns (ktime_set (tv_sec t) (tv_nsec t))); done.
Qed.

Lemma set_rsv_wf cur ok p C T st :
  store_wf st -> store_wf (set_rsv cur ok p C T st).2.
Proof.
  intros Hwf.
  destruct (decide ((set_rsv cur ok p C T st).1 = 0)) as [Hok|Hfail];
    [|by rewrite set_rsv_failure_unchanged].
  destruct C as [c|], T as [t|]; try done.
  destruct (decide (args_invalid c t)) as [Hinv|Hval].
  { by rewrite set_rsv_invalid in Hok. }
  rewrite set_rsv_valid in Hok |- * by done.
  destruct (pid_task st (target_pid cur p)) as [tk|]; [|done]. simpl in *.
  change (p3_find_locked (get_task_struct tk st) (target_pid cur p))
    with (p3_find_locked st (target_pid cur p)) in *.
  destruct (p3_find_locked st (target_pid cur p)) eqn:Hfind; [done|].
  case_decide as Hcap; [done|].
  destruct ok; [|done]. simpl.
  apply reassign_wf.
  destruct Hwf as [Hnd Hal Hpid _].
  set (e := fresh (dom (heap st))).
  assert (heap st !! e = None) as He.
  { apply not_elem_of_dom, is_fresh. }
  assert (e ∉ p3_rsv_list st) as Hnotin.
  { intros [ent Hent]%Hal. congruence. }
  split; simpl.
  - apply NoDup_app. split_and!; [done| |apply NoDup_singleton].
    intros x Hx ->%list_elem_of_singleton. done.
  - intros it [Hit| ->%list_elem_of_singleton]%elem_of_app.
    + rewrite lookup_insert_ne by (intros <-; done). by apply Hal.
    + by rewrite lookup_insert_eq.
  - assert (forall a ea, a ∈ p3_rsv_list st ->
              <[e := new_entry (target_pid cur p) tk (ts_ns c) (ts_ns t)]> (heap st) !! a = Some ea ->
              heap st !! a = Some ea /\ pid ea ≠ target_pid cur p) as Hold.
    { intros a ea Ha. rewrite lookup_insert_ne by (intros <-; done).
      intros Hea. split; [done|]. by eapply find_in_None. }
    intros a b ea eb [Ha| ->%list_elem_of_singleton]%elem_of_app
                     [Hb| ->%list_elem_of_singleton]%elem_of_app; [| | |done].
    + intros [Hea _]%Hold [Heb _]%Hold; [|done..]. by apply Hpid.
    + intros [_ Hea]%Hold; [|done]. rewrite lookup_insert_eq. by intros [= <-].
    + rewrite lookup_insert_eq. intros [= <-] [_ Heb]%Hold; [|done]. done.
  - rewrite length_app. simpl. lia.
Qed.

Lemma cancel_rsv_wf cur p st : store_wf st -> store_wf (cancel_rsv cur p st).2.
Proof.
  intros Hwf. unfold cancel_rsv. case_match; [|done]. simpl.
  by apply reassign_wf, unlink_free_wf.
Qed.

Lemma p3_sched_exit_cb_wf t st :
  store_wf st -> store_wf (p3_sched_exit_cb t st).
Proof.
  intros Hwf. unfold p3_sched_exit_cb. destruct t as [t|]; [|done].
  destruct (tasks st !! t); [|done]. apply reassign_wf.
  case_match; [by apply unlink_free_wf|done].
Qed.

Lemma boot_wf st : boot st -> store_wf st.
Proof.
  intros [Hh Hl]. split; rewrite ?Hl; simpl.
  - constructor.
  - by intros it ?%elem_of_nil.
  - by intros a b ea eb ?%elem_of_nil.
  - lia.
Qed.

Lemma kstep_wf st st' : kstep st st' -> store_wf st -> store_wf st'.
Proof.
  destruct 1; eauto using set_rsv_wf, cancel_rsv_wf, p3_sched_exit_cb_wf,
    hrtimer_expire_wf, wait_step_wf.
Qed.

Lemma reachable_wf st : reachable st -> store_wf st.
Proof.
  intros (st0 & Hboot%boot_wf & Hsteps).
  induction Hsteps; eauto using kstep_wf.
Qed.

(** ** Registration: error paths *)

Lemma reachable_boot st : boot st -> reachable st.
Proof. intros Hb. exists st. split; [done|apply rtc_refl]. Qed.

Lemma reachable_step st st' : reachable st -> kstep st st' -> reachable st'.
Proof.
  intros (st0 & Hb & Hs) Hstep. exists st0. split; [done|].
  by eapply rtc_r.
Qed.

Lemma register_all_reachable pids st :
  reachable st -> reachable (register_all pids st).
Proof.
  unfold register_all. revert st.
  induction pids as [|p pids IH]; intros st Hst; cbn [foldl]; [done|].
  apply IH. eapply reachable_step; [done|]. apply kstep_set_rsv.
Qed.

Lemma full_store_reachable : reachable full_store.
Proof. apply register_all_reachable, reachable_boot. by split. Qed.

Lemma full_store_length : length (p3_rsv_list full_store) = 50%nat.
Proof. vm_compute. reflexivity. Qed.

Lemma set_rsv_precedence_ok cur ok p C T st :
  (set_rsv cur ok p C T st).1 = set_rsv_precedence cur ok p C T st.
Proof.
  unfold set_rsv_precedence, rsv_check_order.
  destruct C as [c|], T as [t|]; try reflexivity.
  destruct (decide (args_invalid c t)) as [Hinv|Hval].
  - rewrite set_rsv_invalid by done.
    apply args_invalidb_spec in Hinv. simpl. rewrite Hinv. reflexivity.
  - rewrite set_rsv_valid by done.
    assert (args_invalidb c t = false) as Hb.
    { destruct (args_invalidb c t) eqn:Hb; [|done].
      by apply args_invalidb_spec in Hb. }
    simpl. rewrite Hb. simpl.
    change (p3_find_locked (get_task_struct ?tk st) ?q)
      with (p3_find_locked st q).
    destruct (pid_task st (target_pid cur p)) as [tk|]; [|reflexivity]. simpl.
    change (p3_find_locked (get_task_struct tk st) (target_pid cur p))
      with (p3_find_locked st (target_pid cur p)).
    destruct (p3_find_locked st (target_pid cur p)); [reflexivity|]. simpl.
    case_decide as Hcap.
    + rewrite bool_decide_eq_true_2 by done. reflexivity.
    + rewrite bool_decide_eq_false_2 by done. simpl.
      destruct ok; reflexivity.
Qed.

(** The nanosecond value of a normalised [timespec] below the saturation
    bound is the usual [tv_sec * 10^9 + tv_nsec]. *)
Lemma ts_ns_normalised ts :
  0 <= tv_sec ts < KTIME_SEC_MAX -> 0 <= tv_nsec ts < NSEC_PER_SEC ->
  ts_ns ts = tv_sec ts * NSEC_PER_SEC + tv_nsec ts.
Proof.
  unfold ts_ns, ktime_to_ns, ktime_set, to_s64.
  change KTIME_SEC_MAX with 9223372036. unfold NSEC_PER_SEC. intros Hs Hn.
  destruct (9223372036 <=? tv_sec ts) eqn:Hsat; [apply Z.leb_le in Hsat; lia|].
  rewrite Z.mod_small; lia.
Qed.

(** C5.  A registration whose readable arguments have a non-positive C, a
    non-positive T, or C > T fails with [-EINVAL] and returns the state it
    was called in: nothing is inserted, no timer is armed, no priority is
    recomputed. *)
Theorem set_rsv_invalid_argument cur ok p c t st :
  args_invalid c t ->
  set_rsv cur ok p (Some c) (Some t) st = (- EINVAL, st).
Proof. apply set_rsv_invalid. Qed.

Lemma set_rsv_invalid_argument_witness :
  args_invalid (msec 20) (msec 10) /\
  set_rsv 100 true 100 (Some (msec 20)) (Some (msec 10)) (boot_state [100])
  = (- EINVAL, boot_state [100]).
Proof.
  assert (args_invalid (msec 20) (msec 10)) as Hinv.
  { right; right. vm_compute. reflexivity. }
  split; [exact Hinv|].
  exact (set_rsv_invalid_argument 100 true 100 (msec 20) (msec 10)
           (boot_state [100]) Hinv).
Defined.

(** C6.  When the task a registration is about already holds a
    reservation, a call with readable, valid arguments for that (live)
    task fails with [-EBUSY] and returns the state it was called in; in
    particular the existing entry is the same record as before. *)
Theorem set_rsv_already_exists cur ok p c t st e tk :
  p3_find_locked st (target_pid cur p) = Some e ->
  ~ args_invalid c t ->
  pid_task st (target_pid cur p) = Some tk ->
  set_rsv cur ok p (Some c) (Some t) st = (- EBUSY, st) /\
  heap (set_rsv cur ok p (Some c) (Some t) st).2 !! e = heap st !! e.
Proof.
  intros Hfind Hval Htk.
  assert (set_rsv cur ok p (Some c) (Some t) st = (- EBUSY, st)) as Hres.
  { rewrite set_rsv_valid, Htk by done. simpl.
    change (p3_find_locked (get_task_struct tk st) (target_pid cur p))
      with (p3_find_locked st (target_pid cur p)).
    rewrite Hfind. by rewrite put_get_task_struct. }
  by rewrite Hres.
Qed.

(** C10.  The result of [set_rsv] is the error of the first failing check
    in the order: unreadable arguments, invalid arguments, unknown task,
    duplicate, capacity, allocation.  Every failing call returns the state
    it was called in.  In particular a call with C > T for an unknown task
    fails with [-EINVAL], not [-ESRCH]. *)
Theorem set_rsv_check_order cur ok p C T st :
  (set_rsv cur ok p C T st).1 = set_rsv_precedence cur ok p C T st /\
  ((set_rsv cur ok p C T st).1 ≠ 0 -> (set_rsv cur ok p C T st).2 = st) /\
  (forall c t, C = Some c -> T = Some t -> ts_ns c > ts_ns t ->
     pid_task st (target_pid cur p) = None ->
     (set_rsv cur ok p C T st).1 = - EINVAL /\ - EINVAL ≠ - ESRCH).
Proof.
  split_and!.
  - apply set_rsv_precedence_ok.
  - apply set_rsv_failure_unchanged.
  - intros c t -> -> Hgt _. rewrite set_rsv_invalid; [done|].
    right; right. done.
Qed.

Lemma set_rsv_check_order_witness :
  (set_rsv 1 true 7 (Some (msec 20)) (Some (msec 10)) (boot_state [1])).1
  = - EINVAL.
Proof.
  refine (proj1 (proj2 (proj2
    (set_rsv_check_order 1 true 7 (Some (msec 20)) (Some (msec 10))
       (boot_state [1]))) (msec 20) (msec 10) eq_refl eq_refl _ _)).
  - vm_compute. reflexivity.
  - vm_compute. reflexivity.
Defined.

(** C4, as the code has it.  A reachable state never links more than 50
    entries.  A registration made while 50 are linked never succeeds and
    returns the state it was called in; its error is [-ENOSPC] when the
    arguments are readable and valid and the task is known and holds no
    reservation (otherwise an earlier check reports its own error). *)
Theorem store_capacity st :
  reachable st ->
  (length (p3_rsv_list st) <= 50)%nat /\
  (length (p3_rsv_list st) = 50%nat ->
   forall cur ok p C T,
     (set_rsv cur ok p C T st).1 ≠ 0 /\
     (set_rsv cur ok p C T st).2 = st /\
     (forall c t tk, C = Some c -> T = Some t -> ~ args_invalid c t ->
        pid_task st (target_pid cur p) = Some tk ->
        p3_find_locked st (target_pid cur p) = None ->
        (set_rsv cur ok p C T st).1 = - ENOSPC)).
Proof.
  intros Hwf%reachable_wf. split; [apply Hwf|].
  intros Hfull cur ok p C T.
  assert ((set_rsv cur ok p C T st).1 ≠ 0) as Hfail.
  { unfold set_rsv. repeat case_match; simpl; try done.
    all: exfalso; simpl in *; unfold P3_MAX_RSV in *; lia. }
  split_and!; [done|by apply set_rsv_failure_unchanged|].
  intros c t tk -> -> Hval Htk Hfind.
  rewrite set_rsv_valid, Htk by done. simpl.
  change (p3_find_locked (get_task_struct tk st) (target_pid cur p))
    with (p3_find_locked st (target_pid cur p)).
  rewrite Hfind. rewrite decide_True; [done|]. rewrite Hfull. done.
Qed.

Lemma store_capacity_witness :
  (length (p3_rsv_list crowded_store) <= 50)%nat /\
  (set_rsv 51 true 51 (Some (msec 1)) (Some (msec 10)) crowded_store).1
  = - ENOSPC.
Proof.
  assert (reachable crowded_store) as Hreach.
  { apply register_all_reachable, reachable_boot. by split. }
  assert (length (p3_rsv_list crowded_store) = 50%nat) as Hfull
    by (vm_compute; reflexivity).
  assert (~ args_invalid (msec 1) (msec 10)) as Hval.
  { intros Hinv. apply args_invalidb_spec in Hinv. vm_compute in Hinv.
    discriminate Hinv. }
  assert (pid_task crowded_store (target_pid 51 51) = Some 51%positive) as Htk
    by (vm_compute; reflexivity).
  assert (p3_find_locked crowded_store (target_pid 51 51) = None) as Hfind
    by (vm_compute; reflexivity).
  destruct (store_capacity crowded_store Hreach) as [Hlen Hcap].
  split; [exact Hlen|].
  exact (proj2 (proj2 (Hcap Hfull 51 true 51 (Some (msec 1)) (Some (msec 10))))
           (msec 1) (msec 10) 51%positive eq_refl eq_refl Hval Htk Hfind).
Defined.

(** C4 as worded fails: with 50 reservations linked, a registration with
    C = 20 ms > T = 10 ms is refused with [-EINVAL], not [-ENOSPC]. *)
Lemma register_when_full_not_always_ENOSPC :
  ~ (forall st cur ok p C T,
       reachable st -> length (p3_rsv_list st) = 50%nat ->
       (set_rsv cur ok p C T st).1 = - ENOSPC).
Proof.
  intros Hall.
  specialize (Hall full_store 1 true 1 (Some (msec 20)) (Some (msec 10))
                full_store_reachable full_store_length).
  rewrite set_rsv_invalid in Hall; [done|].
  right; right. vm_compute. reflexivity.
Qed.

(** ** Registration and cancellation: success paths *)

Lemma args_validb c t : args_invalidb c t = false -> ~ args_invalid c t.
Proof. intros Hb Hinv%args_invalidb_spec. congruence. Qed.

Lemma find_in_absent h l p :
  (forall it ent, it ∈ l -> h !! it = Some ent -> pid ent ≠ p) ->
  find_in h l p = None.
Proof.
  intros Hno. destruct (find_in h l p) as [it|] eqn:Hfind; [|done].
  apply find_in_Some in Hfind as (Hin & ent & Hent & Hp).
  by destruct (Hno it ent).
Qed.

Lemma find_in_app_miss h l l' p :
  find_in h l p = None -> find_in h (l ++ l') p = find_in h l' p.
Proof.
  induction l as [|x l IH]; simpl; [done|].
  destruct (h !! x) as [ent|]; [|done].
  destruct (pid ent =? p); [done|]. done.
Qed.

(** The pass keeps the lookup by pid. *)
Lemma reassign_find st p :
  p3_find_locked (p3_reassign_rm_prios_locked st) p = p3_find_locked st p.
Proof.
  unfold p3_find_locked. rewrite reassign_list.
  apply find_in_ext. intros it _.
  destruct (reassign_entry st it) as [[-> ->]|(ent & v & -> & ->)]; done.
Qed.

(** The heap and the list after the pass depend on the heap and the list
    only. *)
Lemma rm_assign_heap_ext arr : forall i st st',
  heap st = heap st' -> heap (rm_assign i arr st) = heap (rm_assign i arr st').
Proof.
  induction arr as [|it arr IH]; intros i st st' Heq; simpl; [done|].
  apply IH. by rewrite !rm_assign_one_heap, Heq.
Qed.

Lemma reassign_store_ext st st' :
  heap st = heap st' -> p3_rsv_list st = p3_rsv_list st' ->
  heap (p3_reassign_rm_prios_locked st) = heap (p3_reassign_rm_prios_locked st').
Proof.
  intros Hh Hl. unfold p3_reassign_rm_prios_locked, rm_order.
  rewrite Hh, Hl. by apply rm_assign_heap_ext.
Qed.

Lemma rsv_prio_ext st st' p :
  heap st = heap st' -> p3_rsv_list st = p3_rsv_list st' ->
  rsv_prio st p = rsv_prio st' p.
Proof.
  intros Hh Hl. unfold rsv_prio, p3_find_locked, prio_of. by rewrite Hh, Hl.
Qed.

Lemma set_rsv_pidhash cur ok p C T st :
  pidhash (set_rsv cur ok p C T st).2 = pidhash st.
Proof.
  unfold set_rsv. repeat case_match; simpl; try done.
  all: by rewrite reassign_pidhash.
Qed.

(** A registration that passes every check. *)
Lemma set_rsv_success cur p c t st tk :
  ~ args_invalid c t ->
  pid_task st (target_pid cur p) = Some tk ->
  p3_find_locked st (target_pid cur p) = None ->
  (length (p3_rsv_list st) < P3_MAX_RSV)%nat ->
  set_rsv cur true p (Some c) (Some t) st
  = (0, p3_reassign_rm_prios_locked
          (list_add_tail (fresh (dom (heap st)))
             (with_heap
                (<[fresh (dom (heap st))
                   := new_entry (target_pid cur p) tk (ts_ns c) (ts_ns t)]>
                   (heap st))
                (get_task_struct tk st)))).
Proof.
  intros Hval Htk Hfind Hlen. rewrite set_rsv_valid, Htk by done. simpl.
  change (p3_find_locked (get_task_struct tk st) (target_pid cur p))
    with (p3_find_locked st (target_pid cur p)).
  rewrite Hfind. rewrite decide_False by lia. done.
Qed.

Lemma set_rsv_success_entry cur p c t st tk :
  store_wf st ->
  ~ args_invalid c t ->
  pid_task st (target_pid cur p) = Some tk ->
  p3_find_locked st (target_pid cur p) = None ->
  (length (p3_rsv_list st) < P3_MAX_RSV)%nat ->
  (set_rsv cur true p (Some c) (Some t) st).1 = 0 /\
  exists e v,
    heap st !! e = None /\
    p3_find_locked (set_rsv cur true p (Some c) (Some t) st).2 (target_pid cur p)
      = Some e /\
    heap (set_rsv cur true p (Some c) (Some t) st).2 !! e
      = Some (set_prio v (new_entry (target_pid cur p) tk (ts_ns c) (ts_ns t))).
Proof.
  intros Hwf Hval Htk Hfind Hlen.
  rewrite (set_rsv_success cur p c t st tk) by done. simpl. split; [done|].
  set (e := fresh (dom (heap st))).
  set (ent := new_entry (target_pid cur p) tk (ts_ns c) (ts_ns t)).
  assert (heap st !! e = None) as He by apply not_elem_of_dom, is_fresh.
  assert (e ∉ p3_rsv_list st) as Hnotin.
  { intros [? ?]%(wf_alloc st Hwf). congruence. }
  match goal with |- context [p3_reassign_rm_prios_locked ?X] => set (st2 := X) end.
  destruct (reassign_entry st2 e) as [[_ Hnone]|(ent0 & v & Hent0 & Hent')].
  { simpl in Hnone. by rewrite lookup_insert_eq in Hnone. }
  simpl in Hent0. rewrite lookup_insert_eq in Hent0. simplify_eq.
  exists e, v. split_and!; [done| |done].
  rewrite reassign_find. unfold p3_find_locked. simpl.
  rewrite find_in_app_miss.
  - simpl. rewrite lookup_insert_eq. simpl. by rewrite Z.eqb_refl.
  - rewrite <- Hfind. unfold p3_find_locked. apply find_in_ext.
    intros it Hit. rewrite lookup_insert_ne; [done|]. by intros <-.
Qed.

(** A cancellation that succeeds unlinks the entry of the pid, tears it
    down, and recomputes the priorities. *)
Lemma cancel_rsv_success cur p st st1 :
  cancel_rsv cur p st = (0, st1) ->
  exists e, p3_find_locked st (target_pid cur p) = Some e /\
    st1 = p3_reassign_rm_prios_locked (p3_free_entry (Some e) (list_del e st)).
Proof.
  unfold cancel_rsv. fold (target_pid cur p).
  destruct (p3_find_locked st (target_pid cur p)) as [e|]; [|done].
  intros [= <-]. eauto.
Qed.

Lemma unlink_free_list e st :
  p3_rsv_list (p3_free_entry (Some e) (list_del e st))
  = filter (fun x => x ≠ e) (p3_rsv_list st).
Proof. by rewrite p3_free_entry_list. Qed.

Lemma unlink_free_other e st it :
  it ≠ e -> heap (p3_free_entry (Some e) (list_del e st)) !! it = heap st !! it.
Proof. intros Hne. by rewrite p3_free_entry_other. Qed.

Lemma cancel_rsv_gone cur p st st1 :
  store_wf st -> cancel_rsv cur p st = (0, st1) ->
  p3_find_locked st1 (target_pid cur p) = None /\
  (length (p3_rsv_list st1) < P3_MAX_RSV)%nat /\
  pidhash st1 = pidhash st.
Proof.
  intros Hwf (e & Hfind & ->)%cancel_rsv_success.
  apply find_in_Some in Hfind as (He & ee & Hee & Hpe).
  split_and!.
  - rewrite reassign_find. unfold p3_find_locked.
    rewrite unlink_free_list. apply find_in_absent.
    intros it ent [Hne Hit]%list_elem_of_filter.
    rewrite unlink_free_other by done. intros Hent Hp.
    apply Hne. eapply (wf_pids st Hwf); [done..|congruence].
  - rewrite reassign_list, unlink_free_list.
    pose proof (wf_cap st Hwf) as Hcap.
    assert (length (filter (λ x, x ≠ e) (p3_rsv_list st))
            < length (p3_rsv_list st))%nat; [|lia].
    clear -He. induction (p3_rsv_list st) as [|x l IH]; [by apply elem_of_nil in He|].
    rewrite filter_cons. case_decide as Hx; simpl.
    + apply elem_of_cons in He as [->|He]; [done|]. specialize (IH He). lia.
    + pose proof (length_filter (λ x, x ≠ e) l). lia.
  - by rewrite reassign_pidhash, p3_free_entry_pidhash.
Qed.

(** C9.  After a successful [cancel_rsv] for a task, a registration for the
    same task with readable valid arguments succeeds once the task
    resolves and the allocator finds memory (capacity is free, an entry
    having just been unlinked); the entry it links for the task has
    [period_seq] 0 and is not canceled, whatever the sequence of the
    cancelled entry was. *)
Theorem reregister_fresh_sequence cur p c t st st1 tk :
  store_wf st ->
  cancel_rsv cur p st = (0, st1) ->
  ~ args_invalid c t ->
  pid_task st1 (target_pid cur p) = Some tk ->
  (set_rsv cur true p (Some c) (Some t) st1).1 = 0 /\
  exists e ent,
    p3_find_locked (set_rsv cur true p (Some c) (Some t) st1).2 (target_pid cur p)
      = Some e /\
    heap (set_rsv cur true p (Some c) (Some t) st1).2 !! e = Some ent /\
    heap st1 !! e = None /\
    period_seq ent = 0 /\ canceled ent = false /\
    C_ns ent = ts_ns c /\ T_ns ent = ts_ns t.
Proof.
  intros Hwf Hcancel Hval Htk.
  destruct (cancel_rsv_gone cur p st st1 Hwf Hcancel) as (Hgone & Hlen & _).
  assert (store_wf st1) as Hwf1.
  { replace st1 with (cancel_rsv cur p st).2 by (by rewrite Hcancel).
    by apply cancel_rsv_wf. }
  destruct (set_rsv_success_entry cur p c t st1 tk Hwf1 Hval Htk Hgone Hlen)
    as (Hok & e & v & Hnew & Hfind & Hent).
  split; [done|].
  exists e, (set_prio v (new_entry (target_pid cur p) tk (ts_ns c) (ts_ns t))).
  split_and!; done.
Qed.

Lemma cancel_rsv_found cur p st e :
  p3_find_locked st (target_pid cur p) = Some e ->
  cancel_rsv cur p st
  = (0, p3_reassign_rm_prios_locked (p3_free_entry (Some e) (list_del e st))).
Proof. unfold cancel_rsv. fold (target_pid cur p). by intros ->. Qed.

Lemma rsv_prio_reassign_store st p :
  rsv_prio (p3_reassign_rm_prios_locked st) p
  = rsv_prio (p3_reassign_rm_prios_locked (store_only st)) p.
Proof.
  apply rsv_prio_ext; [by apply reassign_store_ext|by rewrite !reassign_list].
Qed.

Lemma unlink_free_store_only e st :
  store_only (p3_free_entry (Some e) (list_del e st))
  = mk_kstate
      (delete e (alter wake_up_all e
                   (alter (set_timer HRTIMER_STATE_INACTIVE) e
                      (alter (set_canceled true) e (heap st)))))
      (filter (fun x => x ≠ e) (p3_rsv_list st)) ∅ ∅.
Proof. unfold store_only. by rewrite p3_free_entry_heap, unlink_free_list. Qed.

Lemma valid_2ms_10ms : ~ args_invalid (msec 2) (msec 10).
Proof. apply args_validb. vm_compute. reflexivity. Qed.

Lemma valid_1ms_5ms : ~ args_invalid (msec 1) (msec 5).
Proof. apply args_validb. vm_compute. reflexivity. Qed.

Lemma one_rsv_reachable : reachable one_rsv.
Proof.
  eapply reachable_step; [|apply kstep_set_rsv].
  apply reachable_boot. by split.
Qed.

Lemma two_rsv_reachable : reachable two_rsv.
Proof. eapply reachable_step; [apply one_rsv_reachable|apply kstep_set_rsv]. Qed.

Lemma one_rsv_aged_reachable : reachable one_rsv_aged.
Proof.
  repeat (eapply reachable_step; [|apply kstep_timer]).
  apply one_rsv_reachable.
Qed.

Lemma rm_pass_priorities_witness :
  exists px py,
    prio_of (p3_reassign_rm_prios_locked two_rsv) 2%positive = Some px /\
    prio_of (p3_reassign_rm_prios_locked two_rsv) 1%positive = Some py /\
    py < px.
Proof.
  assert (store_wf two_rsv) as Hwf by exact (reachable_wf _ two_rsv_reachable).
  assert (length (p3_rsv_list two_rsv) <= 50)%nat as Hlen by (vm_compute; lia).
  destruct (rm_pass_priorities two_rsv Hwf Hlen)
    as (_ & _ & _ & _ & _ & _ & Hperiod).
  apply (Hperiod 2%positive 1%positive 5000000 10000000).
  - vm_compute. right. left.
  - vm_compute. left.
  - vm_compute. reflexivity.
  - vm_compute. reflexivity.
  - lia.
Defined.

Lemma set_rsv_already_exists_witness :
  set_rsv 100 true 0 (Some (msec 3)) (Some (msec 7)) one_rsv = (- EBUSY, one_rsv).
Proof.
  refine (proj1 (set_rsv_already_exists 100 true 0 (msec 3) (msec 7) one_rsv
                   1%positive 1%positive _ _ _)).
  - vm_compute. reflexivity.
  - apply args_validb. vm_compute. reflexivity.
  - vm_compute. reflexivity.
Defined.

Lemma reregister_fresh_sequence_witness :
  (period_seq <$> heap one_rsv_aged !! 1%positive) = Some 3 /\
  (set_rsv 100 true 0 (Some (msec 2)) (Some (msec 10))
     (cancel_rsv 100 0 one_rsv_aged).2).1 = 0.
Proof.
  split; [vm_compute; reflexivity|].
  refine (proj1 (reregister_fresh_sequence 100 0 (msec 2) (msec 10)
                   one_rsv_aged (cancel_rsv 100 0 one_rsv_aged).2 1%positive
                   (reachable_wf _ one_rsv_aged_reachable) _ _ _)).
  - vm_compute. reflexivity.
  - apply args_validb. vm_compute. reflexivity.
  - vm_compute. reflexivity.
Defined.

(** ** The timer callback and the wait protocol *)

Lemma atomic64_inc_neq v : atomic64_inc v ≠ v.
Proof.
  unfold atomic64_inc. intros Heq.
  assert (0 <= v < 2 ^ 64) as Hv.
  { rewrite <- Heq. apply Z.mod_pos_bound. lia. }
  destruct (decide (v + 1 < 2 ^ 64)).
  - rewrite Z.mod_small in Heq; lia.
  - assert (v + 1 = 2 ^ 64) as Hw by lia. rewrite Hw, Z.mod_same in Heq; lia.
Qed.

(** The callback on a canceled entry does nothing and asks not to be
    restarted. *)
Lemma p3_timer_cb_canceled e st ent :
  heap st !! e = Some ent -> canceled ent = true ->
  p3_timer_cb e st = (HRTIMER_NORESTART, st).
Proof. intros He Hc. unfold p3_timer_cb. by rewrite He, Hc. Qed.

Lemma p3_timer_cb_live e st ent :
  heap st !! e = Some ent -> canceled ent = false ->
  p3_timer_cb e st
  = (HRTIMER_RESTART,
     with_heap (<[e := wake_up_all
                         (set_period_seq (atomic64_inc (period_seq ent)) ent)]>
                  (heap st)) st).
Proof. intros He Hc. unfold p3_timer_cb. by rewrite He, Hc. Qed.

Lemma hrtimer_expire_canceled e st ent :
  heap st !! e = Some ent -> canceled ent = true ->
  heap (hrtimer_expire e st) !! e = Some (set_timer HRTIMER_STATE_INACTIVE ent).
Proof.
  intros He Hc. unfold hrtimer_expire. rewrite He.
  destruct (timer ent) eqn:Ht.
  - rewrite He. f_equal. destruct ent; simpl in *; by subst.
  - erewrite p3_timer_cb_canceled; [|by apply lookup_insert_eq|done].
    simpl. by rewrite lookup_insert_eq.
Qed.

Lemma hrtimer_expire_live e st ent :
  heap st !! e = Some ent -> canceled ent = false ->
  timer ent = HRTIMER_STATE_ENQUEUED ->
  heap (hrtimer_expire e st) !! e
  = Some (set_wq [] (set_period_seq (atomic64_inc (period_seq ent)) ent)).
Proof.
  intros He Hc Ht. unfold hrtimer_expire. rewrite He, Ht.
  erewrite p3_timer_cb_live; [|by apply lookup_insert_eq|done].
  simpl. rewrite lookup_alter_eq, lookup_insert_eq. simpl. f_equal.
  destruct ent; simpl in *; by subst.
Qed.

Lemma hrtimer_expire_other e st it :
  it ≠ e -> heap (hrtimer_expire e st) !! it = heap st !! it.
Proof.
  intros Hne. unfold hrtimer_expire.
  destruct (heap st !! e) as [ee|] eqn:He; [|done].
  destruct (timer ee); [done|].
  destruct (canceled ee) eqn:Hc.
  - erewrite p3_timer_cb_canceled; [|by apply lookup_insert_eq|done].
    simpl. by rewrite lookup_insert_ne.
  - erewrite p3_timer_cb_live; [|by apply lookup_insert_eq|done].
    simpl. by rewrite lookup_alter_ne, !lookup_insert_ne.
Qed.

(** [n] periods on a live entry advance the sequence by [n] (modulo
    2^64), leave the entry live and armed, and empty the wait queue. *)
Lemma expire_n_live n : forall e st ent,
  heap st !! e = Some ent -> canceled ent = false ->
  timer ent = HRTIMER_STATE_ENQUEUED -> (0 < n)%nat ->
  exists ent', heap (expire_n n e st) !! e = Some ent' /\
    period_seq ent' = (period_seq ent + Z.of_nat n) mod 2 ^ 64 /\
    canceled ent' = false /\ timer ent' = HRTIMER_STATE_ENQUEUED /\
    wq ent' = [].
Proof.
  induction n as [|n IH]; intros e st ent He Hc Ht Hn; [lia|].
  destruct (decide (n = 0)%nat) as [->|Hn0].
  - simpl. rewrite (hrtimer_expire_live e st ent) by done.
    eexists; split; [done|]. simpl. unfold atomic64_inc. done.
  - destruct (IH e st ent He Hc Ht ltac:(lia)) as (e1 & He1 & Hs1 & Hc1 & Ht1 & _).
    change (expire_n (S n) e st) with (hrtimer_expire e (expire_n n e st)).
    rewrite (hrtimer_expire_live e _ e1) by done.
    eexists; split; [done|]. simpl. unfold atomic64_inc. rewrite Hs1.
    split_and!; try done.
    rewrite Zplus_mod_idemp_l. f_equal. lia.
Qed.

(** The steps of a call. *)
Lemma wait_step_lookup_found cur sig st e ent :
  p3_find_locked st cur = Some e -> heap st !! e = Some ent ->
  wait_step cur sig st W_lookup = (st, W_recheck e (period_seq ent)).
Proof. intros Hf He. simpl. by rewrite Hf, He. Qed.

Lemma wait_step_lookup_none cur sig st :
  p3_find_locked st cur = None ->
  wait_step cur sig st W_lookup = (st, W_return (- ENOENT)).
Proof. intros Hf. simpl. by rewrite Hf. Qed.

Lemma wait_step_recheck_advanced cur sig st e seen ent :
  heap st !! e = Some ent -> period_seq ent ≠ seen ->
  wait_step cur sig st (W_recheck e seen) = (st, W_return 0).
Proof.
  intros He Hs. simpl. rewrite He.
  by apply Z.eqb_neq in Hs as ->.
Qed.

Lemma wait_step_recheck_same cur sig st e seen ent :
  heap st !! e = Some ent -> period_seq ent = seen ->
  wait_step cur sig st (W_recheck e seen) = (st, W_wait e seen).
Proof.
  intros He Hs. simpl. rewrite He.
  by apply Z.eqb_eq in Hs as ->.
Qed.

Lemma wait_step_wait_cond cur sig st e seen ent :
  heap st !! e = Some ent -> wait_cond ent seen = true ->
  wait_step cur sig st (W_wait e seen)
  = (with_heap (<[e := set_wq (filter (fun x => x ≠ cur) (wq ent)) ent]> (heap st)) st,
     W_woken e).
Proof. intros He Hc. simpl. by rewrite He, Hc. Qed.

Lemma wait_step_wait_sleep cur st e seen ent :
  heap st !! e = Some ent -> wait_cond ent seen = false ->
  wait_step cur false st (W_wait e seen)
  = (with_heap (<[e := set_wq (cur :: filter (fun x => x ≠ cur) (wq ent)) ent]>
                  (heap st)) st,
     W_wait e seen).
Proof. intros He Hc. simpl. by rewrite He, Hc. Qed.

Lemma wait_step_wait_signal cur st e seen ent :
  heap st !! e = Some ent -> wait_cond ent seen = false ->
  (wait_step cur true st (W_wait e seen)).2 = W_return (- EINTR).
Proof. intros He Hc. simpl. by rewrite He, Hc. Qed.

Lemma wait_step_woken cur sig st e ent :
  heap st !! e = Some ent ->
  wait_step cur sig st (W_woken e)
  = (st, W_return (if canceled ent then - ENOENT else 0)).
Proof. intros He. simpl. rewrite He. by destruct (canceled ent). Qed.

(** A step never leads back to the lookup. *)
Lemma wait_step_not_lookup cur sig st pc :
  (wait_step cur sig st pc).2 = W_lookup -> False.
Proof. unfold wait_step. destruct pc; repeat case_match; done. Qed.

(** The return value of a returning step, by the control point it was
    taken at. *)
Lemma wait_step_return cur sig st pc r :
  (forall r0, pc ≠ W_return r0) ->
  (wait_step cur sig st pc).2 = W_return r ->
  (pc = W_lookup /\ p3_find_locked st cur = None /\ r = - ENOENT) \/
  (exists e seen ent, pc = W_recheck e seen /\ heap st !! e = Some ent /\
     period_seq ent ≠ seen /\ r = 0) \/
  (exists e seen ent, pc = W_wait e seen /\ heap st !! e = Some ent /\
     wait_cond ent seen = false /\ sig = true /\ r = - EINTR) \/
  (exists e ent, pc = W_woken e /\ heap st !! e = Some ent /\
     r = if canceled ent then - ENOENT else 0).
Proof.
  intros Hpc. destruct pc as [|e seen|e seen|e|r0|]; simpl.
  - destruct (p3_find_locked st cur) as [e|] eqn:Hf.
    + destruct (heap st !! e); done.
    + intros [= <-]. by left.
  - destruct (heap st !! e) as [ent|] eqn:He; [|done].
    destruct (period_seq ent =? seen) eqn:Hs; simpl; [done|].
    intros [= <-]. right; left. apply Z.eqb_neq in Hs. eauto 10.
  - destruct (heap st !! e) as [ent|] eqn:He; [|done].
    destruct (wait_cond ent seen) eqn:Hc; [done|].
    destruct sig; [|done]. simpl. intros [= <-]. right; right; left. eauto 10.
  - destruct (heap st !! e) as [ent|] eqn:He; [|done].
    intros Hr. right; right; right. exists e, ent. split_and!; [done..|].
    destruct (canceled ent); simpl in Hr; by simplify_eq.
  - by destruct (Hpc r0).
  - done.
Qed.

Lemma run_wait_app cur pre post pc :
  run_wait cur (pre ++ post) pc = run_wait cur post (run_wait cur pre pc).
Proof. apply foldl_app. Qed.

Lemma run_wait_returned cur sched r : run_wait cur sched (W_return r) = W_return r.
Proof. induction sched as [|ss sched IH]; [done|]. simpl. apply IH. Qed.

Lemma run_wait_lookup cur sched :
  run_wait cur sched W_lookup = W_lookup -> sched = [].
Proof.
  destruct sched as [|ss sched _] using rev_ind; [done|].
  rewrite run_wait_app. simpl. by intros ?%wait_step_not_lookup.
Qed.

(** A call that has returned did so at one step, taken at a control point
    inside the call. *)
Lemma run_wait_first_return cur sched : forall pc r,
  (forall r0, pc ≠ W_return r0) ->
  run_wait cur sched pc = W_return r ->
  exists pre ss rest,
    sched = pre ++ ss :: rest /\
    (forall r0, run_wait cur pre pc ≠ W_return r0) /\
    (wait_step cur ss.1 ss.2 (run_wait cur pre pc)).2 = W_return r.
Proof.
  induction sched as [|ss sched IH] using rev_ind; intros pc r Hpc Hrun.
  { simpl in Hrun. by destruct (Hpc r). }
  rewrite run_wait_app in Hrun. simpl in Hrun.
  destruct (run_wait cur sched pc) as [| | | |r0|] eqn:Hr0;
    try (exists sched, ss, []; rewrite Hr0; by split_and!).
  simpl in Hrun. simplify_eq.
  destruct (IH pc r Hpc Hr0) as (pre & s1 & rest & -> & Hpre & Hstep).
  exists pre, s1, (rest ++ [ss]). by rewrite <- app_assoc.
Qed.

(** ** A canceled entry stays canceled until it is freed *)

Lemma set_rsv_frame cur ok p C T st it ent :
  heap st !! it = Some ent ->
  (exists v, heap (set_rsv cur ok p C T st).2 !! it = Some (set_prio v ent)) /\
  (it ∉ p3_rsv_list st -> it ∉ p3_rsv_list (set_rsv cur ok p C T st).2).
Proof.
  intros Hit.
  destruct (decide ((set_rsv cur ok p C T st).1 = 0)) as [Hok|Hfail]; cycle 1.
  { rewrite set_rsv_failure_unchanged by done. split; [|done].
    exists (prio ent). by rewrite set_prio_id. }
  destruct C as [c|], T as [t|]; try done.
  destruct (decide (args_invalid c t)) as [Hinv|Hval].
  { by rewrite set_rsv_invalid in Hok. }
  rewrite set_rsv_valid in Hok |- * by done.
  destruct (pid_task st (target_pid cur p)) as [tk|]; [|done]. simpl in *.
  destruct (p3_find_locked _ _); [done|].
  case_decide; [done|]. destruct ok; [|done]. simpl.
  assert (it ≠ fresh (dom (heap st))) as Hne.
  { intros ->. pose proof (is_fresh (dom (heap st))) as Hfr.
    apply not_elem_of_dom in Hfr. congruence. }
  match goal with |- context [p3_reassign_rm_prios_locked ?X] => set (st2 := X) end.
  split.
  - destruct (reassign_entry st2 it) as [[_ Hnone]|(ent0 & v & Hent0 & ->)].
    + simpl in Hnone. rewrite lookup_insert_ne in Hnone by done. congruence.
    + simpl in Hent0. rewrite lookup_insert_ne in Hent0 by done.
      simplify_eq. eauto.
  - rewrite reassign_list. simpl. intros Hnotin.
    rewrite elem_of_app, list_elem_of_singleton. tauto.
Qed.

Lemma unlink_free_frame e st it ent :
  heap st !! it = Some ent -> it ∉ p3_rsv_list st ->
  p3_find_locked st (pid ent) = Some e \/ e ∈ p3_rsv_list st ->
  heap (p3_free_entry (Some e) (list_del e st)) !! it = Some ent /\
  it ∉ p3_rsv_list (p3_free_entry (Some e) (list_del e st)).
Proof.
  intros Hit Hnotin He.
  assert (e ∈ p3_rsv_list st) as Hin.
  { destruct He as [Hf|]; [|done]. by apply find_in_Some in Hf as [? _]. }
  assert (it ≠ e) as Hne by (by intros ->).
  rewrite unlink_free_other, unlink_free_list by done. split; [done|].
  rewrite list_elem_of_filter. tauto.
Qed.

Lemma reassign_frame st it ent :
  heap st !! it = Some ent ->
  exists v, heap (p3_reassign_rm_prios_locked st) !! it = Some (set_prio v ent).
Proof.
  intros Hit.
  destruct (reassign_entry st it) as [[_ ?]|(ent0 & v & ? & ->)]; simplify_eq.
  eauto.
Qed.

Lemma kstep_torn_down e s st st' :
  kstep st st' -> torn_down e s st -> torn_down e s st'.
Proof.
  intros Hstep (ent & He & Hc & Hs & Hnotin). destruct Hstep.
  - destruct (set_rsv_frame cur ok p C T st e ent He) as [[v Hv] Hl].
    exists (set_prio v ent). split_and!; [done..|by apply Hl].
  - unfold cancel_rsv. destruct (p3_find_locked st _) as [e'|] eqn:Hf;
      [|by exists ent]. simpl.
    destruct (unlink_free_frame e' st e ent He Hnotin) as [He' Hl].
    { right. by apply find_in_Some in Hf as [? _]. }
    destruct (reassign_frame _ _ _ He') as [v Hv].
    exists (set_prio v ent). rewrite reassign_list. done.
  - unfold p3_sched_exit_cb. destruct t as [t|]; [|by exists ent].
    destruct (tasks st !! t) as [ts|]; [|by exists ent].
    destruct (p3_find_locked st (t_pid ts)) as [e'|] eqn:Hf.
    + destruct (unlink_free_frame e' st e ent He Hnotin) as [He' Hl].
      { right. by apply find_in_Some in Hf as [? _]. }
      destruct (reassign_frame _ _ _ He') as [v Hv].
      exists (set_prio v ent). rewrite reassign_list. done.
    + destruct (reassign_frame _ _ _ He) as [v Hv].
      exists (set_prio v ent). rewrite reassign_list. done.
  - unfold torn_down. rewrite hrtimer_expire_list.
    destruct (decide (e = e0)) as [<-|Hne].
    + rewrite (hrtimer_expire_canceled e st ent) by done. eauto.
    + rewrite hrtimer_expire_other by done. eauto.
  - destruct (wait_step_lookup cur sig st pc e ent He) as [q Hq].
    exists (set_wq q ent). by rewrite wait_step_list.
Qed.

Lemma teardown_step_torn_down e s st st' :
  teardown_step e st st' -> torn_down e s st -> torn_down e s st'.
Proof.
  intros Hstep (ent & He & Hc & Hs & Hnotin). destruct Hstep.
  - exists (set_timer HRTIMER_STATE_INACTIVE ent). simpl.
    by rewrite lookup_alter_eq, He.
  - exists (wake_up_all ent). simpl. by rewrite lookup_alter_eq, He.
  - exists ent. by rewrite free_release_task_heap, free_release_task_list.
Qed.

Lemma interference_torn_down e s st st' :
  rtc (interference e) st st' -> torn_down e s st -> torn_down e s st'.
Proof.
  induction 1 as [|st st1 st2 [Hk|Ht] _ IH]; [done|..]; intros Htd; apply IH.
  - by eapply kstep_torn_down.
  - by eapply teardown_step_torn_down.
Qed.

Lemma mark_torn_down e st0 ent0 :
  heap st0 !! e = Some ent0 ->
  torn_down e (period_seq ent0) (free_mark_canceled e (list_del e st0)).
Proof.
  intros He. exists (set_canceled true ent0). simpl.
  rewrite lookup_alter_eq, He. split_and!; [done..|].
  rewrite list_elem_of_filter. tauto.
Qed.

(** What does hold once the flag is set, with each timer callback taken
    as one step that starts after the write of [canceled].  Take an entry
    [e] that teardown has unlinked and marked canceled ([list_del], then
    the first statement of [p3_free_entry]).  In every state reached from
    there by any entry point of the kernel (timer expiries of [e] included)
    and by the further teardown statements short of [kfree]: the entry is still canceled and its [period_seq] is what
    it was; the timer callback returns [HRTIMER_NORESTART] without
    touching the state, so an expiry leaves the timer inactive; a waiter
    inside [wait_event_interruptible] leaves the wait, and a call that
    reads [canceled] after the wait returns [-ENOENT]; a call that starts
    its lookup does not get this entry. *)
Theorem canceled_is_terminal st0 e ent0 st' :
  heap st0 !! e = Some ent0 ->
  rtc (interference e) (free_mark_canceled e (list_del e st0)) st' ->
  exists ent',
    heap st' !! e = Some ent' /\ canceled ent' = true /\
    period_seq ent' = period_seq ent0 /\
    p3_timer_cb e st' = (HRTIMER_NORESTART, st') /\
    (exists ent'', heap (hrtimer_expire e st') !! e = Some ent'' /\
       period_seq ent'' = period_seq ent0 /\ canceled ent'' = true /\
       timer ent'' = HRTIMER_STATE_INACTIVE) /\
    (forall cur sig seen, (wait_step cur sig st' (W_wait e seen)).2 = W_woken e) /\
    (forall cur sig, wait_step cur sig st' (W_woken e) = (st', W_return (- ENOENT))) /\
    (forall cur sig s, (wait_step cur sig st' W_lookup).2 ≠ W_recheck e s).
Proof.
  intros He0 Hsteps.
  destruct (interference_torn_down e (period_seq ent0) _ _ Hsteps
              (mark_torn_down e st0 ent0 He0)) as (ent & He & Hc & Hs & Hnotin).
  exists ent. split_and!; [done..| | | | |].
  - by eapply p3_timer_cb_canceled.
  - exists (set_timer HRTIMER_STATE_INACTIVE ent).
    by rewrite (hrtimer_expire_canceled e st' ent).
  - intros cur sig seen.
    rewrite (wait_step_wait_cond cur sig st' e seen ent); [done..|].
    unfold wait_cond. rewrite Hc. apply orb_true_r.
  - intros cur sig. rewrite (wait_step_woken cur sig st' e ent) by done.
    by rewrite Hc.
  - intros cur sig s. simpl.
    destruct (p3_find_locked st' cur) as [e'|] eqn:Hf; [|done].
    apply find_in_Some in Hf as [Hin _].
    destruct (heap st' !! e'); [|done]. simpl. intros [= -> _]. done.
Qed.

Lemma canceled_is_terminal_witness :
  wait_step 100 false
    (hrtimer_expire 1 (free_mark_canceled 1 (list_del 1 one_rsv_aged)))
    (W_woken 1)
  = (hrtimer_expire 1 (free_mark_canceled 1 (list_del 1 one_rsv_aged)),
     W_return (- ENOENT)).
Proof.
  assert (heap one_rsv_aged !! 1%positive
          = Some (mk_entry 100 (Some 1%positive) 2000000 10000000 99
                    HRTIMER_STATE_ENQUEUED 0 [] 3 false)) as He
    by (vm_compute; reflexivity).
  assert (rtc (interference 1)
            (free_mark_canceled 1 (list_del 1 one_rsv_aged))
            (hrtimer_expire 1 (free_mark_canceled 1 (list_del 1 one_rsv_aged))))
    as Hsteps.
  { apply rtc_once. left. apply kstep_timer. }
  destruct (canceled_is_terminal one_rsv_aged 1%positive _ _ He Hsteps)
    as (ent' & _ & _ & _ & _ & _ & _ & Hwoken & _).
  exact (Hwoken 100 false).
Defined.

(** The timer callback is its test of [canceled] followed, when the flag
    reads clear, by [p3_timer_cb_tail]. *)
Lemma p3_timer_cb_split e st ent :
  heap st !! e = Some ent ->
  p3_timer_cb e st
  = if canceled ent then (HRTIMER_NORESTART, st) else p3_timer_cb_tail e st.
Proof.
  intros He. unfold p3_timer_cb, p3_timer_cb_tail. rewrite He.
  destruct (canceled ent); reflexivity.
Qed.


(** C2.  For a call by task [cur] whose lookup found entry [e] and read the
    sequence value [s0] under the lock: (1) the lookup hands exactly that
    value to the re-check; (2) when the sequence differs from [s0] at the
    re-check, the call returns 0 at once and the state is untouched (the
    caller is put on no wait queue); (3) otherwise, with no signal
    pending, the caller goes to sleep on the entry's wait queue; (4) for a
    sleeping caller, after [n] expiries of the entry's timer
    (0 < n < 2^64, the first period boundary being n = 1) the caller is
    off the wait queue, its next step leaves the wait, and the call
    returns 0. *)
Theorem no_missed_wakeup cur e s0 :
  (forall sig st ent,
     p3_find_locked st cur = Some e -> heap st !! e = Some ent ->
     period_seq ent = s0 ->
     wait_step cur sig st W_lookup = (st, W_recheck e s0)) /\
  (forall sig st ent,
     heap st !! e = Some ent -> period_seq ent ≠ s0 ->
     wait_step cur sig st (W_recheck e s0) = (st, W_return 0)) /\
  (forall st ent,
     heap st !! e = Some ent -> period_seq ent = s0 -> canceled ent = false ->
     wait_step cur false st (W_recheck e s0) = (st, W_wait e s0) /\
     (wait_step cur false st (W_wait e s0)).2 = W_wait e s0 /\
     sleeping cur (wait_step cur false st (W_wait e s0)).1 (W_wait e s0)) /\
  (forall sig st ent n,
     heap st !! e = Some ent -> period_seq ent = s0 -> canceled ent = false ->
     timer ent = HRTIMER_STATE_ENQUEUED ->
     sleeping cur st (W_wait e s0) ->
     (0 < n)%nat -> Z.of_nat n < 2 ^ 64 ->
     ~ sleeping cur (expire_n n e st) (W_wait e s0) /\
     exists st2,
       wait_step cur sig (expire_n n e st) (W_wait e s0) = (st2, W_woken e) /\
       wait_step cur sig st2 (W_woken e) = (st2, W_return 0)).
Proof.
  split_and!.
  - intros sig st ent Hf He <-. by apply wait_step_lookup_found.
  - intros sig st ent He Hs. by eapply wait_step_recheck_advanced.
  - intros st ent He Hs Hc.
    assert (wait_cond ent s0 = false) as Hcond.
    { unfold wait_cond. rewrite Hc. by apply Z.eqb_eq in Hs as ->. }
    split_and!.
    + by eapply wait_step_recheck_same.
    + by rewrite (wait_step_wait_sleep cur st e s0 ent).
    + rewrite (wait_step_wait_sleep cur st e s0 ent) by done.
      simpl. rewrite lookup_insert_eq. simpl. left.
  - intros sig st ent n He Hs Hc Ht _ Hn Hlt.
    destruct (expire_n_live n e st ent He Hc Ht Hn)
      as (ent' & He' & Hs' & Hc' & Ht' & Hq').
    assert (period_seq ent' ≠ s0) as Hadv.
    { rewrite Hs', Hs. intros Heq.
      assert (0 <= s0 < 2 ^ 64) as Hr.
      { rewrite <- Heq. apply Z.mod_pos_bound. lia. }
      destruct (decide (s0 + Z.of_nat n < 2 ^ 64)).
      - rewrite Z.mod_small in Heq; lia.
      - replace (s0 + Z.of_nat n) with ((s0 + Z.of_nat n - 2 ^ 64) + 1 * 2 ^ 64)
          in Heq by lia.
        rewrite Z.mod_add, Z.mod_small in Heq; lia. }
    split.
    + simpl. rewrite He', Hq'. by intros ?%elem_of_nil.
    + assert (wait_cond ent' s0 = true) as Hcond.
      { unfold wait_cond. by apply Z.eqb_neq in Hadv as ->. }
      rewrite (wait_step_wait_cond cur sig _ e s0 ent') by done.
      eexists. split; [done|].
      erewrite wait_step_woken; [|simpl; by rewrite lookup_insert_eq].
      simpl. by rewrite Hc'.
Qed.

Lemma no_missed_wakeup_witness :
  ~ sleeping 100
      (expire_n 1 1 (wait_step 100 false one_rsv (W_wait 1 0)).1) (W_wait 1 0) /\
  exists st2,
    wait_step 100 false
      (expire_n 1 1 (wait_step 100 false one_rsv (W_wait 1 0)).1) (W_wait 1 0)
    = (st2, W_woken 1) /\
    wait_step 100 false st2 (W_woken 1) = (st2, W_return 0).
Proof.
  refine (proj2 (proj2 (proj2 (no_missed_wakeup 100 1%positive 0)))
            false (wait_step 100 false one_rsv (W_wait 1 0)).1
            (mk_entry 100 (Some 1%positive) 2000000 10000000 99
               HRTIMER_STATE_ENQUEUED 0 [100] 0 false)
            1%nat _ _ _ _ _ _ _).
  - vm_compute. reflexivity.
  - reflexivity.
  - reflexivity.
  - reflexivity.
  - vm_compute. left.
  - lia.
  - vm_compute. reflexivity.
Defined.

(** C7.  Whatever other contexts do between the steps of a call ([sched]
    is arbitrary), a call that has returned has returned 0, [-EINTR] or
    [-ENOENT]; and it has returned [-ENOENT] exactly when its first step
    found no reservation for the caller, or when, having left
    [wait_event_interruptible] for the entry it waited on, it read
    [canceled] as set.  The failed lookup returns the state untouched. *)
Theorem wait_not_found_cases cur sched r :
  run_wait cur sched W_lookup = W_return r ->
  (r = 0 \/ r = - EINTR \/ r = - ENOENT) /\
  (r = - ENOENT <->
     (exists sig st rest,
        sched = (sig, st) :: rest /\ p3_find_locked st cur = None) \/
     (exists pre sig st rest e ent,
        sched = pre ++ (sig, st) :: rest /\
        run_wait cur pre W_lookup = W_woken e /\
        heap st !! e = Some ent /\ canceled ent = true)) /\
  (forall sig st rest,
     sched = (sig, st) :: rest -> p3_find_locked st cur = None ->
     wait_step cur sig st W_lookup = (st, W_return (- ENOENT))).
Proof.
  intros Hrun.
  destruct (run_wait_first_return cur sched W_lookup r ltac:(done) Hrun)
    as (pre & [sig st] & rest & -> & Hpre & Hstep). simpl in Hstep.
  apply wait_step_return in Hstep; [|done].
  split_and!.
  - destruct Hstep as [(_ & _ & ->)|[(e & seen & ent & _ & _ & _ & ->)
      |[(e & seen & ent & _ & _ & _ & _ & ->)|(e & ent & _ & _ & ->)]]];
      [by right; right|by left|by right; left|].
    destruct (canceled ent); [by right; right|by left].
  - split.
    + intros ->.
      destruct Hstep as [(Hpc & Hf & _)|[(e & seen & ent & _ & _ & _ & ?)
        |[(e & seen & ent & _ & _ & _ & _ & ?)|(e & ent & Hpc & He & Hr)]]];
        try done.
      * left. apply run_wait_lookup in Hpc as ->. simpl. eauto.
      * right. exists pre, sig, st, rest, e, ent. split_and!; [done..|].
        by destruct (canceled ent).
    + intros [(sig' & st' & rest' & Heq & Hf)
             |(pre' & sig' & st' & rest' & e & ent & Heq & Hpc & He & Hc)].
      * rewrite Heq in Hrun. simpl in Hrun. rewrite Hf in Hrun. simpl in Hrun.
        rewrite run_wait_returned in Hrun. by simplify_eq.
      * rewrite Heq, run_wait_app in Hrun. simpl in Hrun.
        rewrite Hpc in Hrun. simpl in Hrun. rewrite He, Hc in Hrun. simpl in Hrun.
        rewrite run_wait_returned in Hrun. by simplify_eq.
  - intros sig' st' rest' _ Hf. by apply wait_step_lookup_none.
Qed.

Lemma wait_not_found_cases_witness :
  (exists sig st rest,
     cancelled_wait_schedule = (sig, st) :: rest /\
     p3_find_locked st 100 = None) \/
  (exists pre sig st rest e ent,
     cancelled_wait_schedule = pre ++ (sig, st) :: rest /\
     run_wait 100 pre W_lookup = W_woken e /\
     heap st !! e = Some ent /\ canceled ent = true).
Proof.
  assert (run_wait 100 cancelled_wait_schedule W_lookup = W_return (- ENOENT))
    as Hrun by (vm_compute; reflexivity).
  exact (proj1 (proj1 (proj2
           (wait_not_found_cases 100 cancelled_wait_schedule (- ENOENT) Hrun)))
           eq_refl).
Defined.

(** * Further properties of the reservation code *)

(** ** The priority pass reads periods and the list only *)

Lemma rm_exchange_ext h h' i arr j :
  (forall x, T_of h x = T_of h' x) ->
  rm_exchange h i arr j = rm_exchange h' i arr j.
Proof.
  intros Hext. unfold rm_exchange.
  destruct (arr !! i) as [ai|], (arr !! j) as [aj|]; try done.
  by rewrite !Hext.
Qed.

Lemma foldl_ext_all {A B} (f g : A -> B -> A) (l : list B) : forall a,
  (forall a b, f a b = g a b) -> foldl f a l = foldl g a l.
Proof.
  induction l as [|b l IH]; intros a Hfg; simpl; [done|].
  rewrite Hfg. by apply IH.
Qed.

Lemma rm_sort_ext h h' arr :
  (forall x, T_of h x = T_of h' x) -> rm_sort h arr = rm_sort h' arr.
Proof.
  intros Hext. unfold rm_sort. apply foldl_ext_all. intros a i.
  unfold rm_inner. apply foldl_ext_all. intros a' j.
  by apply rm_exchange_ext.
Qed.

Lemma rm_order_ext st st' :
  p3_rsv_list st = p3_rsv_list st' ->
  (forall x, T_of (heap st) x = T_of (heap st') x) ->
  rm_order st = rm_order st'.
Proof. intros Hl Hext. unfold rm_order. rewrite Hl. by apply rm_sort_ext. Qed.

Lemma rm_order_reassign st :
  rm_order (p3_reassign_rm_prios_locked st) = rm_order st.
Proof. apply rm_order_ext; [apply reassign_list|apply reassign_T_of]. Qed.

Lemma rm_order_nodup st : store_wf st -> NoDup (rm_order st).
Proof.
  intros Hwf. rewrite rm_order_perm; [apply Hwf|apply Hwf].
Qed.

Lemma rm_order_linked st it :
  store_wf st -> it ∈ rm_order st <-> it ∈ p3_rsv_list st.
Proof. intros Hwf. by rewrite rm_order_perm by apply Hwf. Qed.

(** The entries after a pass: a linked entry gets the priority of its
    rank, any other entry is left as it is. *)
Lemma reassign_lookup_rank st k it ent :
  store_wf st -> rm_order st !! k = Some it -> heap st !! it = Some ent ->
  heap (p3_reassign_rm_prios_locked st) !! it = Some (set_prio (rm_prio k) ent).
Proof.
  intros Hwf Hk Hit. unfold p3_reassign_rm_prios_locked.
  by rewrite (rm_assign_at (rm_order st) 0 st k it ent (rm_order_nodup st Hwf)).
Qed.

Lemma reassign_lookup_unlinked st it :
  store_wf st -> it ∉ p3_rsv_list st ->
  heap (p3_reassign_rm_prios_locked st) !! it = heap st !! it.
Proof.
  intros Hwf Hit. unfold p3_reassign_rm_prios_locked.
  apply rm_assign_other. by rewrite rm_order_linked.
Qed.

(** Two well-formed stores with the same list whose linked entries agree
    up to the priority, and whose other entries agree, come out of the
    pass with the same entries. *)
Lemma reassign_heap_ext st st' :
  store_wf st -> store_wf st' ->
  p3_rsv_list st = p3_rsv_list st' ->
  (forall it, it ∈ p3_rsv_list st ->
     set_prio 0 <$> heap st !! it = set_prio 0 <$> heap st' !! it) ->
  (forall it, it ∉ p3_rsv_list st -> heap st !! it = heap st' !! it) ->
  heap (p3_reassign_rm_prios_locked st) = heap (p3_reassign_rm_prios_locked st').
Proof.
  intros Hwf Hwf' Hl Hin Hout.
  assert (forall x, T_of (heap st) x = T_of (heap st') x) as HT.
  { intros x. unfold T_of. destruct (decide (x ∈ p3_rsv_list st)) as [Hx|Hx].
    - specialize (Hin x Hx).
      destruct (heap st !! x) as [[]|], (heap st' !! x) as [[]|];
        simplify_eq/=; done.
    - by rewrite (Hout x Hx). }
  pose proof (rm_order_ext st st' Hl HT) as Hord.
  apply map_eq. intros it.
  destruct (decide (it ∈ p3_rsv_list st)) as [Hit|Hit].
  - pose proof Hit as Hit'. rewrite <- rm_order_linked in Hit' by done.
    apply list_elem_of_lookup in Hit' as [k Hk].
    destruct (wf_alloc st Hwf it Hit) as [ent Hent].
    destruct (wf_alloc st' Hwf' it ltac:(by rewrite <- Hl)) as [ent' Hent'].
    rewrite (reassign_lookup_rank st k it ent) by done.
    rewrite (reassign_lookup_rank st' k it ent') by (by rewrite <- ?Hord).
    specialize (Hin it Hit). rewrite Hent, Hent' in Hin.
    destruct ent, ent'; simplify_eq/=; done.
  - rewrite !reassign_lookup_unlinked by (by rewrite <- ?Hl). by apply Hout.
Qed.

(** ** Priorities in reachable states *)

Lemma reassign_alloc st it :
  is_Some (heap (p3_reassign_rm_prios_locked st) !! it) <-> is_Some (heap st !! it).
Proof.
  destruct (reassign_entry st it) as [[-> ->]|(ent & v & -> & ->)]; done.
Qed.

(** A pass on a well-formed store leaves priorities that a further pass
    would write again. *)
Lemma reassign_rm_fixed st :
  store_wf st -> rm_fixed (p3_reassign_rm_prios_locked st).
Proof.
  intros Hwf k it. rewrite rm_order_reassign. intros Hk.
  destruct (wf_alloc st Hwf it) as [ent Hent].
  { rewrite <- rm_order_linked by done. by eapply list_elem_of_lookup_2. }
  unfold prio_of. by rewrite (reassign_lookup_rank st k it ent).
Qed.

Lemma rm_fixed_frame st st' :
  p3_rsv_list st' = p3_rsv_list st ->
  (forall it ent, heap st !! it = Some ent ->
     exists ent', heap st' !! it = Some ent' /\
       T_ns ent' = T_ns ent /\ prio ent' = prio ent) ->
  (forall it, heap st !! it = None -> heap st' !! it = None) ->
  rm_fixed st -> rm_fixed st'.
Proof.
  intros Hl Hsome Hnone Hfix k it.
  assert (rm_order st' = rm_order st) as ->.
  { apply rm_order_ext; [done|]. intros x. unfold T_of.
    destruct (heap st !! x) as [ent|] eqn:Hx.
    - destruct (Hsome x ent Hx) as (ent' & -> & -> & _). done.
    - by rewrite (Hnone x Hx). }
  intros Hk. specialize (Hfix k it Hk). unfold prio_of in *.
  destruct (heap st !! it) as [ent|] eqn:Hit; [|done].
  destruct (Hsome it ent Hit) as (ent' & -> & _ & Hp). simpl in *. congruence.
Qed.

Lemma reassign_wf_inv st :
  store_wf (p3_reassign_rm_prios_locked st) -> store_wf st.
Proof.
  apply store_wf_frame; [by rewrite reassign_list|].
  intros it ent _ Hent.
  destruct (reassign_entry st it) as [[? _]|(ent0 & v & -> & ?)]; simplify_eq.
  eauto.
Qed.

Lemma set_rsv_shape cur ok p C T st :
  (set_rsv cur ok p C T st).2 = st \/
  exists st1, (set_rsv cur ok p C T st).2 = p3_reassign_rm_prios_locked st1.
Proof.
  destruct (decide ((set_rsv cur ok p C T st).1 = 0)) as [Hok|Hfail];
    [|left; by apply set_rsv_failure_unchanged].
  right. revert Hok. unfold set_rsv. repeat case_match; simpl; try done.
  all: intros _; eauto.
Qed.

Lemma cancel_rsv_shape cur p st :
  (cancel_rsv cur p st).2 = st \/
  exists st1, (cancel_rsv cur p st).2 = p3_reassign_rm_prios_locked st1.
Proof. unfold cancel_rsv. case_match; simpl; eauto. Qed.

Lemma p3_sched_exit_cb_shape t st :
  p3_sched_exit_cb t st = st \/
  exists st1, p3_sched_exit_cb t st = p3_reassign_rm_prios_locked st1.
Proof. unfold p3_sched_exit_cb. repeat case_match; eauto. Qed.

Lemma kstep_rm_fixed st st' :
  kstep st st' -> store_wf st -> rm_fixed st -> rm_fixed st'.
Proof.
  intros Hstep Hwf Hfix. pose proof (kstep_wf st st' Hstep Hwf) as Hwf'.
  destruct Hstep.
  - destruct (set_rsv_shape cur ok p C T st) as [->|[st1 Heq]]; [done|].
    rewrite Heq in Hwf' |- *. by apply reassign_rm_fixed, reassign_wf_inv.
  - destruct (cancel_rsv_shape cur p st) as [->|[st1 Heq]]; [done|].
    rewrite Heq in Hwf' |- *. by apply reassign_rm_fixed, reassign_wf_inv.
  - destruct (p3_sched_exit_cb_shape t st) as [->|[st1 Heq]]; [done|].
    rewrite Heq in Hwf' |- *. by apply reassign_rm_fixed, reassign_wf_inv.
  - eapply rm_fixed_frame; [apply hrtimer_expire_list| | |done].
    + intros it ent Hit.
      destruct (hrtimer_expire_lookup e st it ent Hit)
        as (ent' & ? & _ & _ & ? & _ & ? & _). eauto.
    + intros it Hit. destruct (decide (it = e)) as [->|Hne].
      * unfold hrtimer_expire. by rewrite Hit.
      * by rewrite hrtimer_expire_other.
  - eapply rm_fixed_frame; [apply wait_step_list| | |done].
    + intros it ent Hit.
      destruct (wait_step_lookup cur sig st pc it ent Hit) as [q ->]. eauto.
    + intros it Hit. unfold wait_step.
      destruct pc; repeat case_match; simpl; try done;
        (rewrite lookup_insert_ne; [done|congruence]).
Qed.

Lemma boot_rm_fixed st : boot st -> rm_fixed st.
Proof.
  intros [_ Hl] k it. unfold rm_order. rewrite Hl. done.
Qed.

Lemma reachable_rm_fixed st : reachable st -> rm_fixed st.
Proof.
  intros (st0 & Hboot & Hsteps).
  assert (store_wf st0 /\ rm_fixed st0) as Hinv
    by (split; [by apply boot_wf|by apply boot_rm_fixed]).
  clear Hboot. induction Hsteps as [|a b c Hstep _ IH]; [apply Hinv|].
  destruct Hinv as [Hwf Hfix]. apply IH. split.
  - by eapply kstep_wf.
  - by eapply kstep_rm_fixed.
Qed.

(** Rank facts shared by the statements below. *)
Lemma rm_order_rank st it :
  store_wf st -> it ∈ p3_rsv_list st ->
  exists k, rm_order st !! k = Some it /\ (k < P3_MAX_RSV)%nat.
Proof.
  intros Hwf Hit. rewrite <- rm_order_linked in Hit by done.
  apply list_elem_of_lookup in Hit as [k Hk]. exists k. split; [done|].
  apply lookup_lt_Some in Hk.
  rewrite rm_order_perm in Hk by apply Hwf. pose proof (wf_cap st Hwf). lia.
Qed.

Lemma rm_order_rank_inj st i j it :
  store_wf st -> rm_order st !! i = Some it -> rm_order st !! j = Some it ->
  i = j.
Proof. intros Hwf. apply NoDup_lookup, rm_order_nodup, Hwf. Qed.

Lemma rm_order_ascending st i j x y :
  (i <= j)%nat -> rm_order st !! i = Some x -> rm_order st !! j = Some y ->
  T_of (heap st) x <= T_of (heap st) y.
Proof. apply rm_sort_ascending. Qed.

(** X1.  Rate-monotonic order as a state invariant: in every reachable
    state, of two linked reservations the one with the smaller period
    holds the larger priority. *)
Theorem reachable_rm_order st x y ex ey :
  reachable st ->
  x ∈ p3_rsv_list st -> y ∈ p3_rsv_list st ->
  heap st !! x = Some ex -> heap st !! y = Some ey ->
  T_ns ex < T_ns ey -> prio ey < prio ex.
Proof.
  intros Hreach Hx Hy Hex Hey Hlt.
  pose proof (reachable_wf st Hreach) as Hwf.
  pose proof (reachable_rm_fixed st Hreach) as Hfix.
  destruct (rm_order_rank st x Hwf Hx) as (i & Hi & Hil).
  destruct (rm_order_rank st y Hwf Hy) as (j & Hj & Hjl).
  pose proof (Hfix i x Hi) as Hpx. pose proof (Hfix j y Hj) as Hpy.
  unfold prio_of in Hpx, Hpy. rewrite Hex in Hpx. rewrite Hey in Hpy.
  simplify_eq/=. rewrite Hpx, Hpy.
  destruct (decide (i < j)%nat) as [Hij|Hij]; [by apply rm_prio_lt|].
  exfalso. pose proof (rm_order_ascending st j i y x ltac:(lia) Hj Hi) as Hasc.
  unfold T_of, ktime_to_ns in Hasc. rewrite Hex, Hey in Hasc. lia.
Qed.

Lemma reachable_rm_order_witness :
  prio (mk_entry 100 (Some 1%positive) 2000000 10000000 98
          HRTIMER_STATE_ENQUEUED 0 [] 0 false)
  < prio (mk_entry 101 (Some 2%positive) 1000000 5000000 99
            HRTIMER_STATE_ENQUEUED 0 [] 0 false).
Proof.
  refine (reachable_rm_order two_rsv 2%positive 1%positive _ _
            two_rsv_reachable _ _ _ _ _).
  - vm_compute. right. left.
  - vm_compute. left.
  - vm_compute. reflexivity.
  - vm_compute. reflexivity.
  - vm_compute. reflexivity.
Defined.

(** X2.  In every reachable state each linked reservation holds a valid
    SCHED_FIFO priority between [MAX_RT_PRIO - 50] and [MAX_RT_PRIO - 1]
    (the clamp at 1 is never reached), and two different linked
    reservations never hold the same priority. *)
Theorem reachable_prio_range st x ex :
  reachable st ->
  x ∈ p3_rsv_list st -> heap st !! x = Some ex ->
  MAX_RT_PRIO - 50 <= prio ex <= MAX_RT_PRIO - 1 /\
  (forall y ey, y ∈ p3_rsv_list st -> heap st !! y = Some ey ->
     x ≠ y -> prio ex ≠ prio ey).
Proof.
  intros Hreach Hx Hex.
  pose proof (reachable_wf st Hreach) as Hwf.
  pose proof (reachable_rm_fixed st Hreach) as Hfix.
  destruct (rm_order_rank st x Hwf Hx) as (i & Hi & Hil).
  pose proof (Hfix i x Hi) as Hpx. unfold prio_of in Hpx. rewrite Hex in Hpx.
  simplify_eq/=. rewrite Hpx. split.
  - rewrite rm_prio_max. unfold MAX_RT_PRIO, P3_MAX_RSV in *. lia.
  - intros y ey Hy Hey Hne.
    destruct (rm_order_rank st y Hwf Hy) as (j & Hj & Hjl).
    pose proof (Hfix j y Hj) as Hpy. unfold prio_of in Hpy. rewrite Hey in Hpy.
    simplify_eq/=. rewrite Hpy.
    assert (i ≠ j) as Hij by (intros ->; simplify_eq).
    rewrite !rm_prio_max. unfold MAX_RT_PRIO, P3_MAX_RSV in *. lia.
Qed.

Lemma reachable_prio_range_witness :
  MAX_RT_PRIO - 50 <= 98 <= MAX_RT_PRIO - 1.
Proof.
  refine (proj1 (reachable_prio_range two_rsv 1%positive
            (mk_entry 100 (Some 1%positive) 2000000 10000000 98
               HRTIMER_STATE_ENQUEUED 0 [] 0 false)
            two_rsv_reachable _ _)).
  - vm_compute. left.
  - vm_compute. reflexivity.
Defined.

(** ** Lists that are already in period order *)

Lemma foldl_fixed {A B} (f : A -> B -> A) (a : A) (l : list B) :
  (forall b, f a b = a) -> foldl f a l = a.
Proof.
  intros Hf. induction l as [|b l IH]; simpl; [done|]. by rewrite Hf.
Qed.

Lemma rm_sort_sorted h arr :
  (forall i j x y, (i < j)%nat -> arr !! i = Some x -> arr !! j = Some y ->
     T_of h x <= T_of h y) ->
  rm_sort h arr = arr.
Proof.
  intros Hsorted. unfold rm_sort. apply foldl_fixed. intros i.
  unfold rm_inner.
  assert (forall l, Forall (fun j => (i < j)%nat) l ->
            foldl (rm_exchange h i) arr l = arr) as Hin.
  { intros l Hl. induction Hl as [|j l Hj _ IH]; simpl; [done|].
    replace (rm_exchange h i arr j) with arr; [done|].
    unfold rm_exchange.
    destruct (arr !! i) as [ai|] eqn:Hi, (arr !! j) as [aj|] eqn:Haj; try done.
    specialize (Hsorted i j ai aj Hj Hi Haj).
    by rewrite (proj2 (Z.ltb_ge _ _) Hsorted). }
  apply Hin. apply Forall_forall. intros j Hj%elem_of_seq. lia.
Qed.

(** X4.  Tie-break on an ordered list: when the reservations are linked in
    non-decreasing period order (equal periods included), the sorting
    loops exchange nothing, so the k-th linked reservation gets the
    priority of rank k: of two reservations with equal periods the one
    registered first holds the larger priority. *)
Theorem reassign_keeps_list_order st :
  store_wf st ->
  (forall i j x y, (i < j)%nat ->
     p3_rsv_list st !! i = Some x -> p3_rsv_list st !! j = Some y ->
     T_of (heap st) x <= T_of (heap st) y) ->
  rm_order st = p3_rsv_list st /\
  (forall k it, p3_rsv_list st !! k = Some it ->
     prio_of (p3_reassign_rm_prios_locked st) it = Some (rm_prio k)).
Proof.
  intros Hwf Hsorted.
  assert (rm_order st = p3_rsv_list st) as Hord.
  { unfold rm_order. rewrite rm_collect_all by apply Hwf.
    by apply rm_sort_sorted. }
  split; [done|]. intros k it Hk.
  destruct (wf_alloc st Hwf it) as [ent Hent];
    [by eapply list_elem_of_lookup_2|].
  unfold prio_of.
  by rewrite (reassign_lookup_rank st k it ent Hwf ltac:(by rewrite Hord) Hent).
Qed.

(** ** Effects of the priority pass on the task structures *)

Lemma sched_setscheduler_usage t pol sp st t' :
  usage_of (sched_setscheduler_nocheck t pol sp st) t' = usage_of st t'.
Proof.
  unfold usage_of, sched_setscheduler_nocheck. simpl.
  destruct (decide (t = t')) as [->|Hne].
  - rewrite lookup_alter_eq. by destruct (tasks st !! t').
  - by rewrite lookup_alter_ne.
Qed.

Lemma rm_assign_one_usage i it st t :
  usage_of (rm_assign_one i it st) t = usage_of st t.
Proof.
  unfold rm_assign_one. repeat case_match; try done.
  by rewrite sched_setscheduler_usage.
Qed.

Lemma rm_assign_usage arr : forall i st t,
  usage_of (rm_assign i arr st) t = usage_of st t.
Proof.
  induction arr as [|it arr IH]; intros i st t; simpl; [done|].
  by rewrite IH, rm_assign_one_usage.
Qed.

Lemma reassign_usage st t :
  usage_of (p3_reassign_rm_prios_locked st) t = usage_of st t.
Proof. apply rm_assign_usage. Qed.

Lemma rm_assign_one_entry_task i x st it :
  entry_task (rm_assign_one i x st) it = entry_task st it.
Proof.
  unfold entry_task. rewrite rm_assign_one_heap.
  destruct (heap st !! x) as [ex|] eqn:Hx; [|done].
  destruct (decide (it = x)) as [->|Hne].
  - by rewrite lookup_insert_eq, Hx.
  - by rewrite lookup_insert_ne.
Qed.

Lemma rm_assign_one_tasks_other i x st t :
  entry_task st x ≠ Some t ->
  tasks (rm_assign_one i x st) !! t = tasks st !! t.
Proof.
  unfold entry_task, rm_assign_one. intros Hx.
  destruct (heap st !! x) as [ex|]; [|done]. simpl in Hx.
  destruct (task ex) as [tx|]; [|done]. simpl.
  rewrite lookup_alter_ne; [done|congruence].
Qed.

(** The pass leaves alone the task structures no array entry points to. *)
Lemma rm_assign_tasks_other arr : forall i st t,
  (forall it, it ∈ arr -> entry_task st it ≠ Some t) ->
  tasks (rm_assign i arr st) !! t = tasks st !! t.
Proof.
  induction arr as [|x arr IH]; intros i st t Hno; simpl; [done|].
  rewrite IH.
  - apply rm_assign_one_tasks_other, (Hno x). by left.
  - intros it Hit. rewrite rm_assign_one_entry_task. apply (Hno it). by right.
Qed.

(** The task an array entry of rank [k] points to, and no other array
    entry points to, ends in SCHED_FIFO at the priority of rank [k]. *)
Lemma rm_assign_tasks_at arr : forall i st k it t ts,
  NoDup arr -> arr !! k = Some it ->
  entry_task st it = Some t -> tasks st !! t = Some ts ->
  (forall it', it' ∈ arr -> entry_task st it' = Some t -> it' = it) ->
  tasks (rm_assign i arr st) !! t
  = Some (task_set_sched SCHED_FIFO (rm_prio (i + k)%nat) ts).
Proof.
  induction arr as [|x arr IH]; intros i st k it t ts Hnd Hk Het Hts Huniq;
    [done|].
  apply NoDup_cons in Hnd as [Hx Hnd]. simpl. destruct k as [|k]; simplify_eq/=.
  - rewrite rm_assign_tasks_other.
    + unfold rm_assign_one, entry_task in *.
      destruct (heap st !! it) as [ent|]; [|done]. simpl in Het. rewrite Het.
      simpl. rewrite lookup_alter_eq, Hts. simpl. by rewrite Nat.add_0_r.
    + intros it' Hit'. rewrite rm_assign_one_entry_task. intros Het'.
      apply Hx. rewrite <- (Huniq it' ltac:(by right) Het'). done.
  - assert (x ≠ it) as Hne.
    { intros ->. apply Hx. by eapply list_elem_of_lookup_2. }
    replace (i + S k)%nat with (S i + k)%nat by lia.
    apply (IH (S i) (rm_assign_one i x st) k it t ts); [done..| | |].
    + by rewrite rm_assign_one_entry_task.
    + rewrite rm_assign_one_tasks_other; [done|].
      intros Hxt. apply Hne. apply Huniq; [by left|done].
    + intros it' Hit'. rewrite rm_assign_one_entry_task. intros Het'.
      apply Huniq; [by right|done].
Qed.

(** X5.  The pass pushes each priority to the scheduler: on a well-formed
    store, a linked reservation whose task structure exists and is shared
    with no other linked reservation has, after the pass, its task in
    SCHED_FIFO at exactly the priority stored in the entry. *)
Theorem reassign_scheduler_agrees st it t ts :
  store_wf st ->
  it ∈ p3_rsv_list st ->
  entry_task st it = Some t -> tasks st !! t = Some ts ->
  (forall it', it' ∈ p3_rsv_list st -> entry_task st it' = Some t -> it' = it) ->
  exists v,
    prio_of (p3_reassign_rm_prios_locked st) it = Some v /\
    sched_of (p3_reassign_rm_prios_locked st) t = Some (SCHED_FIFO, v) /\
    usage_of (p3_reassign_rm_prios_locked st) t = Some (usage ts).
Proof.
  intros Hwf Hit Het Hts Huniq.
  destruct (rm_order_rank st it Hwf Hit) as (k & Hk & _).
  destruct (wf_alloc st Hwf it Hit) as [ent Hent].
  exists (rm_prio k). split_and!.
  - unfold prio_of. by rewrite (reassign_lookup_rank st k it ent).
  - unfold sched_of, p3_reassign_rm_prios_locked.
    rewrite (rm_assign_tasks_at (rm_order st) 0 st k it t ts); try done.
    + by apply rm_order_nodup.
    + intros it' Hit'. apply Huniq. by rewrite <- rm_order_linked.
  - rewrite reassign_usage. unfold usage_of. by rewrite Hts.
Qed.


Lemma reassign_keeps_list_order_witness :
  prio_of (p3_reassign_rm_prios_locked tie_rsv) 1%positive = Some (rm_prio 0) /\
  prio_of (p3_reassign_rm_prios_locked tie_rsv) 2%positive = Some (rm_prio 1).
Proof.
  assert (store_wf tie_rsv) as Hwf.
  { apply reachable_wf, register_all_reachable, reachable_boot. by split. }
  assert (p3_rsv_list tie_rsv = [1%positive; 2%positive]) as Hl
    by (vm_compute; reflexivity).
  assert (forall x, x ∈ p3_rsv_list tie_rsv -> T_of (heap tie_rsv) x = 10000000)
    as HT.
  { intros x. rewrite Hl.
    intros [->|[->|[]%elem_of_nil]%elem_of_cons]%elem_of_cons;
      vm_compute; reflexivity. }
  assert (forall i j x y, (i < j)%nat ->
            p3_rsv_list tie_rsv !! i = Some x ->
            p3_rsv_list tie_rsv !! j = Some y ->
            T_of (heap tie_rsv) x <= T_of (heap tie_rsv) y) as Hsorted.
  { intros i j x y _ Hi%list_elem_of_lookup_2 Hj%list_elem_of_lookup_2.
    rewrite (HT x Hi), (HT y Hj). lia. }
  destruct (reassign_keeps_list_order tie_rsv Hwf Hsorted) as [_ Hrank].
  split; [apply (Hrank 0%nat)|apply (Hrank 1%nat)]; rewrite Hl; reflexivity.
Defined.

Lemma reassign_scheduler_agrees_witness :
  exists v,
    prio_of (p3_reassign_rm_prios_locked two_rsv) 1%positive = Some v /\
    sched_of (p3_reassign_rm_prios_locked two_rsv) 1%positive
    = Some (SCHED_FIFO, v) /\
    usage_of (p3_reassign_rm_prios_locked two_rsv) 1%positive = Some 2.
Proof.
  assert (p3_rsv_list two_rsv = [1%positive; 2%positive]) as Hl
    by (vm_compute; reflexivity).
  refine (reassign_scheduler_agrees two_rsv 1%positive 1%positive
            (mk_task 100 2 false SCHED_FIFO 98)
            (reachable_wf _ two_rsv_reachable) _ _ _ _).
  - rewrite Hl. left.
  - vm_compute. reflexivity.
  - vm_compute. reflexivity.
  - rewrite Hl.
    intros it' [->|[->|[]%elem_of_nil]%elem_of_cons]%elem_of_cons;
      [reflexivity|]. vm_compute. intros [=].
Defined.

(** ** What a registration and a cancellation change *)

Lemma find_in_skip h l p e :
  (forall ent, h !! e = Some ent -> pid ent ≠ p) ->
  find_in h (filter (fun x => x ≠ e) l) p = find_in h l p.
Proof.
  intros He. induction l as [|x l IH]; [done|].
  rewrite filter_cons. destruct (decide (x ≠ e)) as [Hne|Heq]; simpl.
  - by rewrite IH.
  - apply dec_stable in Heq as ->. rewrite IH.
    destruct (h !! e) as [ent|] eqn:Hent; [|done].
    specialize (He ent eq_refl). by apply Z.eqb_neq in He as ->.
Qed.

Lemma find_in_snoc_other h l p e ent :
  h !! e = Some ent -> pid ent ≠ p ->
  find_in h (l ++ [e]) p = find_in h l p.
Proof.
  intros He Hp. induction l as [|x l IH]; simpl.
  - rewrite He. by apply Z.eqb_neq in Hp as ->.
  - by rewrite IH.
Qed.

Lemma get_task_struct_usage tk st t :
  usage_of (get_task_struct tk st) t
  = (fun u => if decide (t = tk) then u + 1 else u) <$> usage_of st t.
Proof.
  unfold usage_of, get_task_struct. simpl.
  destruct (decide (t = tk)) as [->|Hne].
  - rewrite lookup_alter_eq. by destruct (tasks st !! tk).
  - rewrite lookup_alter_ne by done. by destruct (tasks st !! t).
Qed.

Lemma put_task_struct_usage tk st t :
  usage_of (put_task_struct tk st) t
  = (fun u => if decide (t = tk) then u + -1 else u) <$> usage_of st t.
Proof.
  unfold usage_of, put_task_struct. simpl.
  destruct (decide (t = tk)) as [->|Hne].
  - rewrite lookup_alter_eq. by destruct (tasks st !! tk).
  - rewrite lookup_alter_ne by done. by destruct (tasks st !! t).
Qed.

Lemma set_rsv_success_facts cur p c t st tk :
  store_wf st ->
  ~ args_invalid c t ->
  pid_task st (target_pid cur p) = Some tk ->
  p3_find_locked st (target_pid cur p) = None ->
  (length (p3_rsv_list st) < P3_MAX_RSV)%nat ->
  let r := set_rsv cur true p (Some c) (Some t) st in
  r.1 = 0 /\
  (exists v,
     heap st !! fresh (dom (heap st)) = None /\
     p3_rsv_list r.2 = p3_rsv_list st ++ [fresh (dom (heap st))] /\
     p3_find_locked r.2 (target_pid cur p) = Some (fresh (dom (heap st))) /\
     heap r.2 !! fresh (dom (heap st))
     = Some (mk_entry (target_pid cur p) (Some tk) (ts_ns c) (ts_ns t) v
               HRTIMER_STATE_ENQUEUED 0 [] 0 false)) /\
  (forall q, q ≠ target_pid cur p ->
     p3_find_locked r.2 q = p3_find_locked st q) /\
  (forall it ent, heap st !! it = Some ent ->
     exists v, heap r.2 !! it = Some (set_prio v ent)) /\
  (forall t',
     usage_of r.2 t'
     = (fun u => if decide (t' = tk) then u + 1 else u) <$> usage_of st t') /\
  pidhash r.2 = pidhash st.
Proof.
  intros Hwf Hval Htk Hfind Hlen r.
  destruct (set_rsv_success_entry cur p c t st tk Hwf Hval Htk Hfind Hlen)
    as (Hok & e0 & v0 & _ & _ & _).
  pose proof (set_rsv_success cur p c t st tk Hval Htk Hfind Hlen) as Eq.
  fold r in Eq, Hok.
  set (e := fresh (dom (heap st))) in *.
  set (new := new_entry (target_pid cur p) tk (ts_ns c) (ts_ns t)) in *.
  assert (heap st !! e = None) as He by apply not_elem_of_dom, is_fresh.
  assert (p3_rsv_list r.2 = p3_rsv_list st ++ [e]) as Hl.
  { rewrite Eq. simpl. by rewrite reassign_list. }
  assert (forall it, it ≠ e -> forall ent, heap st !! it = Some ent ->
            exists v, heap r.2 !! it = Some (set_prio v ent)) as Hold.
  { intros it Hne ent Hent. rewrite Eq. simpl.
    apply reassign_frame. simpl. by rewrite lookup_insert_ne. }
  assert (exists v, heap r.2 !! e = Some (set_prio v new)) as [v Hnew].
  { rewrite Eq. simpl. apply reassign_frame. simpl. by rewrite lookup_insert_eq. }
  split_and!; [done| | | | |].
  - exists v. split_and!; [done..| |done].
    rewrite Eq. simpl. rewrite reassign_find. unfold p3_find_locked. simpl.
    rewrite find_in_app_miss.
    + simpl. rewrite lookup_insert_eq. simpl. by rewrite Z.eqb_refl.
    + rewrite <- Hfind. unfold p3_find_locked. apply find_in_ext.
      intros it Hit. rewrite lookup_insert_ne; [done|].
      intros <-. destruct (wf_alloc st Hwf _ Hit). congruence.
  - intros q Hq. rewrite Eq. simpl. rewrite reassign_find.
    unfold p3_find_locked. simpl.
    rewrite (find_in_snoc_other _ _ _ e new);
      [|by rewrite lookup_insert_eq|by intros <-].
    apply find_in_ext. intros it Hit. rewrite lookup_insert_ne; [done|].
    intros <-. destruct (wf_alloc st Hwf _ Hit). congruence.
  - intros it ent Hent. apply Hold; [|done]. intros ->. congruence.
  - intros t'. rewrite Eq. simpl. rewrite reassign_usage.
    apply get_task_struct_usage.
  - unfold r. apply set_rsv_pidhash.
Qed.


(** X6.  A registration that passes every check, on a well-formed store:
    it returns 0; the new entry is linked at the tail and is what the
    lookup by pid now finds, with the pid, task, C and T of the call, an
    enqueued timer, an empty wait queue, sequence 0; lookups of other pids
    find what they found before; existing entries are unchanged except for
    their priority; the task gains exactly one reference and no other
    task's count moves. *)
Theorem set_rsv_success_effect cur p c t st tk :
  store_wf st ->
  ~ args_invalid c t ->
  pid_task st (target_pid cur p) = Some tk ->
  p3_find_locked st (target_pid cur p) = None ->
  (length (p3_rsv_list st) < P3_MAX_RSV)%nat ->
  let r := set_rsv cur true p (Some c) (Some t) st in
  r.1 = 0 /\
  (exists e v,
     heap st !! e = None /\
     p3_rsv_list r.2 = p3_rsv_list st ++ [e] /\
     p3_find_locked r.2 (target_pid cur p) = Some e /\
     heap r.2 !! e
     = Some (mk_entry (target_pid cur p) (Some tk) (ts_ns c) (ts_ns t) v
               HRTIMER_STATE_ENQUEUED 0 [] 0 false)) /\
  (forall q, q ≠ target_pid cur p ->
     p3_find_locked r.2 q = p3_find_locked st q) /\
  (forall it ent, heap st !! it = Some ent ->
     exists v, heap r.2 !! it = Some (set_prio v ent)) /\
  (forall t',
     usage_of r.2 t'
     = (fun u => if decide (t' = tk) then u + 1 else u) <$> usage_of st t') /\
  pidhash r.2 = pidhash st.
Proof.
  intros Hwf Hval Htk Hfind Hlen r.
  destruct (set_rsv_success_facts cur p c t st tk Hwf Hval Htk Hfind Hlen)
    as (Hok & (v & Hnew) & Hrest).
  split; [done|]. split; [|done]. by exists (fresh (dom (heap st))), v.
Qed.

Lemma set_rsv_success_effect_witness :
  (set_rsv 101 true 0 (Some (msec 1)) (Some (msec 5)) one_rsv).1 = 0.
Proof.
  refine (proj1 (set_rsv_success_effect 101 0 (msec 1) (msec 5) one_rsv
                   2%positive (reachable_wf _ one_rsv_reachable) _ _ _ _)).
  - apply args_validb. vm_compute. reflexivity.
  - vm_compute. reflexivity.
  - vm_compute. reflexivity.
  - vm_compute. lia.
Defined.

Lemma free_release_task_usage e st t ent tk :
  heap st !! e = Some ent -> task ent = Some tk ->
  usage_of (free_release_task e st) t
  = (fun u => if decide (t = tk) then u + -1 else u) <$> usage_of st t.
Proof.
  intros He Htk. unfold free_release_task. rewrite He, Htk.
  rewrite put_task_struct_usage. f_equal.
  destruct (tasks st !! tk) as [ts|]; [|done].
  destruct (pf_exiting ts); [done|]. apply sched_setscheduler_usage.
Qed.

Lemma p3_free_entry_usage e st t ent tk :
  heap st !! e = Some ent -> task ent = Some tk ->
  usage_of (p3_free_entry (Some e) st) t
  = (fun u => if decide (t = tk) then u + -1 else u) <$> usage_of st t.
Proof.
  intros He Htk. unfold p3_free_entry.
  change (usage_of (kfree e ?s) t) with (usage_of s t).
  erewrite free_release_task_usage.
  - done.
  - simpl. rewrite !lookup_alter_eq, He. done.
  - done.
Qed.

Lemma cancel_rsv_success_facts cur p st e ent tk :
  store_wf st ->
  p3_find_locked st (target_pid cur p) = Some e ->
  heap st !! e = Some ent -> task ent = Some tk ->
  let r := cancel_rsv cur p st in
  r.1 = 0 /\
  heap r.2 !! e = None /\
  p3_rsv_list r.2 = filter (fun x => x ≠ e) (p3_rsv_list st) /\
  S (length (p3_rsv_list r.2)) = length (p3_rsv_list st) /\
  p3_find_locked r.2 (target_pid cur p) = None /\
  (forall q, q ≠ target_pid cur p ->
     p3_find_locked r.2 q = p3_find_locked st q) /\
  (forall it x, it ≠ e -> heap st !! it = Some x ->
     exists v, heap r.2 !! it = Some (set_prio v x)) /\
  (forall t',
     usage_of r.2 t'
     = (fun u => if decide (t' = tk) then u + -1 else u) <$> usage_of st t') /\
  pidhash r.2 = pidhash st.
Proof.
  intros Hwf Hfind He Htk r.
  pose proof (cancel_rsv_found cur p st e Hfind) as Eq. fold r in Eq.
  destruct (cancel_rsv_gone cur p st r.2 Hwf) as (Hgone & _ & Hph).
  { rewrite Eq. done. }
  pose proof Hfind as Hfind'.
  apply find_in_Some in Hfind' as (Hin & ent' & Hent' & Hpid).
  rewrite He in Hent'. injection Hent' as <-.
  assert (p3_rsv_list r.2 = filter (fun x => x ≠ e) (p3_rsv_list st)) as Hl.
  { rewrite Eq. cbn [snd]. by rewrite reassign_list, unlink_free_list. }
  split_and!; [by rewrite Eq| |done| |done| | | |done].
  - rewrite Eq. cbn [snd].
    destruct (reassign_entry (p3_free_entry (Some e) (list_del e st)) e)
      as [[-> _]|(x & v & Hx & _)]; [done|].
    by rewrite p3_free_entry_freed in Hx.
  - rewrite Hl. pose proof (wf_nodup st Hwf) as Hnd. clear -Hin Hnd.
    induction (p3_rsv_list st) as [|x l IH]; [by apply elem_of_nil in Hin|].
    apply NoDup_cons in Hnd as [Hx Hnd]. rewrite filter_cons.
    destruct (decide (x ≠ e)) as [Hne|Heq]; simpl.
    + apply elem_of_cons in Hin as [->|Hin]; [done|]. by rewrite IH.
    + apply dec_stable in Heq as ->. f_equal.
      clear IH Hnd Hin. induction l as [|y l IH]; [done|].
      apply not_elem_of_cons in Hx as [Hy Hx]. rewrite filter_cons.
      rewrite decide_True by done. simpl. by rewrite IH.
  - intros q Hq. rewrite Eq. cbn [snd]. rewrite reassign_find.
    unfold p3_find_locked. rewrite unlink_free_list.
    rewrite (find_in_ext _ (heap st)).
    + apply find_in_skip. intros x Hx. rewrite He in Hx. injection Hx as <-.
      by rewrite Hpid.
    + intros it [Hne _]%list_elem_of_filter. by rewrite unlink_free_other.
  - intros it x Hne Hx. rewrite Eq. cbn [snd]. apply reassign_frame.
    by rewrite unlink_free_other.
  - intros t'. rewrite Eq. cbn [snd]. rewrite reassign_usage.
    erewrite p3_free_entry_usage; [done| |done]. done.
Qed.


(** X7.  A cancellation that finds the entry [e] of the pid, on a
    well-formed store: it returns 0; [e] is unlinked and freed and the pid
    is no longer found; lookups of other pids find what they found before;
    the other entries are unchanged except for their priority; the task
    the entry pointed to loses exactly one reference and no other count
    moves. *)
Theorem cancel_rsv_success_effect cur p st e ent tk :
  store_wf st ->
  p3_find_locked st (target_pid cur p) = Some e ->
  heap st !! e = Some ent -> task ent = Some tk ->
  let r := cancel_rsv cur p st in
  r.1 = 0 /\
  heap r.2 !! e = None /\
  p3_rsv_list r.2 = filter (fun x => x ≠ e) (p3_rsv_list st) /\
  S (length (p3_rsv_list r.2)) = length (p3_rsv_list st) /\
  p3_find_locked r.2 (target_pid cur p) = None /\
  (forall q, q ≠ target_pid cur p ->
     p3_find_locked r.2 q = p3_find_locked st q) /\
  (forall it x, it ≠ e -> heap st !! it = Some x ->
     exists v, heap r.2 !! it = Some (set_prio v x)) /\
  (forall t',
     usage_of r.2 t'
     = (fun u => if decide (t' = tk) then u + -1 else u) <$> usage_of st t') /\
  pidhash r.2 = pidhash st.
Proof. apply cancel_rsv_success_facts. Qed.

Lemma cancel_rsv_success_effect_witness :
  heap (cancel_rsv 101 101 two_rsv).2 !! 2%positive = None.
Proof.
  refine (proj1 (proj2 (cancel_rsv_success_effect 101 101 two_rsv 2%positive
            (mk_entry 101 (Some 2%positive) 1000000 5000000 99
               HRTIMER_STATE_ENQUEUED 0 [] 0 false)
            2%positive (reachable_wf _ two_rsv_reachable) _ _ _))).
  - vm_compute. reflexivity.
  - vm_compute. reflexivity.
  - reflexivity.
Defined.

Lemma cancel_rsv_missing cur p st :
  p3_find_locked st (target_pid cur p) = None ->
  cancel_rsv cur p st = (- ENOENT, st).
Proof. intros Hf. unfold cancel_rsv. fold (target_pid cur p). by rewrite Hf. Qed.

(** X8.  Cancelling twice: on a well-formed store the second of two
    consecutive [cancel_rsv] calls for the same pid always fails with
    [-ENOENT] and leaves the state exactly as the first call left it, so
    no entry is freed twice and no task loses a second reference. *)
Theorem cancel_rsv_twice cur p st :
  store_wf st ->
  cancel_rsv cur p (cancel_rsv cur p st).2
  = (- ENOENT, (cancel_rsv cur p st).2).
Proof.
  intros Hwf.
  destruct (p3_find_locked st (target_pid cur p)) as [e|] eqn:Hfind.
  - pose proof (cancel_rsv_found cur p st e Hfind) as Eq.
    destruct (cancel_rsv_gone cur p st _ Hwf Eq) as (Hgone & _).
    rewrite Eq. cbn [snd]. by apply cancel_rsv_missing.
  - rewrite (cancel_rsv_missing cur p st Hfind). cbn [snd].
    by apply cancel_rsv_missing.
Qed.

Lemma cancel_rsv_twice_witness :
  cancel_rsv 100 100 (cancel_rsv 100 100 one_rsv).2
  = (- ENOENT, (cancel_rsv 100 100 one_rsv).2).
Proof.
  exact (cancel_rsv_twice 100 100 one_rsv (reachable_wf _ one_rsv_reachable)).
Defined.

(** ** The priority pass as a whole-state fixed point *)

Lemma kstate_eq st st' :
  heap st = heap st' -> p3_rsv_list st = p3_rsv_list st' ->
  tasks st = tasks st' -> pidhash st = pidhash st' -> st = st'.
Proof. destruct st, st'; simpl; intros; by subst. Qed.

Lemma last_task_rank_ext st st' t arr : forall i,
  (forall it, it ∈ arr -> entry_task st it = entry_task st' it) ->
  last_task_rank st t i arr = last_task_rank st' t i arr.
Proof.
  induction arr as [|x arr IH]; intros i Hext; simpl; [done|].
  rewrite (IH (S i)) by (intros; apply Hext; by right).
  rewrite (Hext x) by (by left). done.
Qed.

Lemma rm_assign_one_tasks i x st t :
  tasks (rm_assign_one i x st) !! t
  = if decide (entry_task st x = Some t)
    then task_set_sched SCHED_FIFO (rm_prio i) <$> tasks st !! t
    else tasks st !! t.
Proof.
  case_decide as Hx; [|by apply rm_assign_one_tasks_other].
  unfold entry_task, rm_assign_one in *.
  destruct (heap st !! x) as [ex|]; [|done]. simpl in Hx. rewrite Hx. simpl.
  by rewrite lookup_alter_eq.
Qed.

(** The task structures after the assignment loop. *)
Lemma rm_assign_tasks arr : forall i st t,
  tasks (rm_assign i arr st) !! t
  = match last_task_rank st t i arr with
    | Some k => task_set_sched SCHED_FIFO (rm_prio k) <$> tasks st !! t
    | None => tasks st !! t
    end.
Proof.
  induction arr as [|x arr IH]; intros i st t; simpl; [done|].
  rewrite IH, rm_assign_one_tasks.
  rewrite (last_task_rank_ext (rm_assign_one i x st) st)
    by (intros; apply rm_assign_one_entry_task).
  destruct (last_task_rank st t (S i) arr) as [k|];
    case_decide; try done.
  by destruct (tasks st !! t).
Qed.

Lemma rm_assign_entry_task arr : forall i st it,
  entry_task (rm_assign i arr st) it = entry_task st it.
Proof.
  induction arr as [|x arr IH]; intros i st it; simpl; [done|].
  by rewrite IH, rm_assign_one_entry_task.
Qed.

(** Two states with the same list, the same periods, the same task
    pointers and the same task structures come out of the pass with the
    same task structures. *)
Lemma reassign_tasks_ext st st' :
  rm_order st = rm_order st' ->
  (forall it, entry_task st it = entry_task st' it) ->
  tasks st = tasks st' ->
  tasks (p3_reassign_rm_prios_locked st) = tasks (p3_reassign_rm_prios_locked st').
Proof.
  intros Hord Het Hts. apply map_eq. intros t.
  unfold p3_reassign_rm_prios_locked. rewrite !rm_assign_tasks, Hord, Hts.
  by rewrite (last_task_rank_ext st st') by (intros; apply Het).
Qed.

Lemma reassign_tasks_twice st :
  tasks (p3_reassign_rm_prios_locked (p3_reassign_rm_prios_locked st))
  = tasks (p3_reassign_rm_prios_locked st).
Proof.
  apply map_eq. intros t.
  unfold p3_reassign_rm_prios_locked at 1. rewrite rm_assign_tasks.
  rewrite rm_order_reassign.
  rewrite (last_task_rank_ext _ st)
    by (intros; apply rm_assign_entry_task).
  unfold p3_reassign_rm_prios_locked. rewrite rm_assign_tasks.
  destruct (last_task_rank st t 0 (rm_order st)) as [k|]; [|done].
  by destruct (tasks st !! t).
Qed.

Lemma reassign_heap_twice st :
  store_wf st ->
  heap (p3_reassign_rm_prios_locked (p3_reassign_rm_prios_locked st))
  = heap (p3_reassign_rm_prios_locked st).
Proof.
  intros Hwf. pose proof (reassign_wf st Hwf) as Hwf'.
  apply map_eq. intros it.
  destruct (decide (it ∈ p3_rsv_list st)) as [Hit|Hit].
  - destruct (rm_order_rank st it Hwf Hit) as (k & Hk & _).
    destruct (wf_alloc st Hwf it Hit) as [ent Hent].
    pose proof (reassign_lookup_rank st k it ent Hwf Hk Hent) as H1.
    rewrite (reassign_lookup_rank _ k it _ Hwf' ltac:(by rewrite rm_order_reassign) H1).
    by rewrite H1.
  - rewrite reassign_lookup_unlinked; [done|done|by rewrite reassign_list].
Qed.

Lemma reassign_twice st :
  store_wf st ->
  p3_reassign_rm_prios_locked (p3_reassign_rm_prios_locked st)
  = p3_reassign_rm_prios_locked st.
Proof.
  intros Hwf. apply kstate_eq.
  - by apply reassign_heap_twice.
  - by rewrite reassign_list.
  - apply reassign_tasks_twice.
  - by rewrite reassign_pidhash.
Qed.

(** X3.  The priority pass is idempotent: on a well-formed store a second
    pass right after a first one changes nothing at all, neither an
    entry, nor the list, nor the scheduling class or priority of any
    task. *)
Theorem reassign_idempotent st :
  store_wf st ->
  p3_reassign_rm_prios_locked (p3_reassign_rm_prios_locked st)
  = p3_reassign_rm_prios_locked st.
Proof. apply reassign_twice. Qed.

Lemma reassign_idempotent_witness :
  p3_reassign_rm_prios_locked (p3_reassign_rm_prios_locked two_rsv)
  = p3_reassign_rm_prios_locked two_rsv.
Proof.
  exact (reassign_idempotent two_rsv (reachable_wf _ two_rsv_reachable)).
Defined.

(** A pass changes nothing in a state that a pass has produced and that
    timer expiries and steps of waiters have moved on. *)
Lemma reassign_fixed_frame st st' :
  store_wf st' ->
  p3_reassign_rm_prios_locked st = st ->
  p3_rsv_list st' = p3_rsv_list st -> tasks st' = tasks st ->
  pidhash st' = pidhash st ->
  (forall it ent, heap st !! it = Some ent ->
     exists ent', heap st' !! it = Some ent' /\
       T_ns ent' = T_ns ent /\ prio ent' = prio ent /\ task ent' = task ent) ->
  (forall it, heap st !! it = None -> heap st' !! it = None) ->
  rm_fixed st ->
  p3_reassign_rm_prios_locked st' = st'.
Proof.
  intros Hwf' Hfixed Hl Hts Hph Hsome Hnone Hfix.
  assert (rm_fixed st') as Hfix'.
  { eapply rm_fixed_frame; [done| |done|done].
    intros it ent Hit. destruct (Hsome it ent Hit) as (ent' & ? & ? & ? & _).
    eauto. }
  assert (rm_order st' = rm_order st) as Hord.
  { apply rm_order_ext; [done|]. intros x. unfold T_of.
    destruct (heap st !! x) as [ent|] eqn:Hx.
    - destruct (Hsome x ent Hx) as (ent' & -> & -> & _). done.
    - by rewrite (Hnone x Hx). }
  apply kstate_eq.
  - apply map_eq. intros it.
    destruct (decide (it ∈ p3_rsv_list st')) as [Hit|Hit].
    + destruct (rm_order_rank st' it Hwf' Hit) as (k & Hk & _).
      destruct (wf_alloc st' Hwf' it Hit) as [ent Hent].
      rewrite (reassign_lookup_rank st' k it ent) by done.
      specialize (Hfix' k it Hk). unfold prio_of in Hfix'. rewrite Hent in Hfix'.
      simplify_eq/=. rewrite Hent. f_equal. rewrite <- Hfix'. apply set_prio_id.
    + by apply reassign_lookup_unlinked.
  - apply reassign_list.
  - rewrite (reassign_tasks_ext st' st); [by rewrite Hfixed| done | | done].
    intros it. unfold entry_task.
    destruct (heap st !! it) as [ent|] eqn:Hx.
    + destruct (Hsome it ent Hx) as (ent' & -> & _ & _ & Ht). simpl. done.
    + by rewrite (Hnone it Hx).
  - apply reassign_pidhash.
Qed.

Lemma kstep_reassign_fixed st st' :
  kstep st st' -> store_wf st -> rm_fixed st ->
  p3_reassign_rm_prios_locked st = st ->
  p3_reassign_rm_prios_locked st' = st'.
Proof.
  intros Hstep Hwf Hfix Hfixed.
  pose proof (kstep_wf st st' Hstep Hwf) as Hwf'.
  destruct Hstep.
  - destruct (set_rsv_shape cur ok p C T st) as [->|[st1 Heq]]; [done|].
    rewrite Heq in Hwf' |- *. by apply reassign_twice, reassign_wf_inv.
  - destruct (cancel_rsv_shape cur p st) as [->|[st1 Heq]]; [done|].
    rewrite Heq in Hwf' |- *. by apply reassign_twice, reassign_wf_inv.
  - destruct (p3_sched_exit_cb_shape t st) as [->|[st1 Heq]]; [done|].
    rewrite Heq in Hwf' |- *. by apply reassign_twice, reassign_wf_inv.
  - eapply (reassign_fixed_frame st); [done|done|apply hrtimer_expire_list| | | | |done].
    + unfold hrtimer_expire. repeat case_match; try done.
      all: match goal with H : p3_timer_cb _ _ = _ |- _ =>
             unfold p3_timer_cb in H; repeat case_match; by simplify_eq/= end.
    + unfold hrtimer_expire. repeat case_match; try done.
      all: match goal with H : p3_timer_cb _ _ = _ |- _ =>
             unfold p3_timer_cb in H; repeat case_match; by simplify_eq/= end.
    + intros it ent Hit.
      destruct (hrtimer_expire_lookup e st it ent Hit)
        as (ent' & ? & _ & ? & ? & _ & ? & _). eauto 10.
    + intros it Hit. destruct (decide (it = e)) as [->|Hne].
      * unfold hrtimer_expire. by rewrite Hit.
      * by rewrite hrtimer_expire_other.
  - eapply (reassign_fixed_frame st); [done|done|apply wait_step_list| | | | |done].
    + unfold wait_step. destruct pc; repeat case_match; done.
    + unfold wait_step. destruct pc; repeat case_match; done.
    + intros it ent Hit.
      destruct (wait_step_lookup cur sig st pc it ent Hit) as [q ->]. eauto 10.
    + intros it Hit. unfold wait_step.
      destruct pc; repeat case_match; simpl; try done;
        (rewrite lookup_insert_ne; [done|congruence]).
Qed.

Lemma reachable_reassign_fixed st :
  reachable st -> p3_reassign_rm_prios_locked st = st.
Proof.
  intros (st0 & Hboot & Hsteps).
  assert (store_wf st0 /\ rm_fixed st0 /\ p3_reassign_rm_prios_locked st0 = st0)
    as Hinv.
  { split_and!; [by apply boot_wf|by apply boot_rm_fixed|].
    destruct Hboot as [_ Hl]. unfold p3_reassign_rm_prios_locked, rm_order.
    rewrite Hl. done. }
  clear Hboot. induction Hsteps as [|a b c Hstep _ IH]; [apply Hinv|].
  destruct Hinv as (Hwf & Hfix & Hfixed). apply IH. split_and!.
  - by eapply kstep_wf.
  - by eapply kstep_rm_fixed.
  - by eapply kstep_reassign_fixed.
Qed.

(** ** Registering and cancelling again *)

Lemma filter_snoc_fresh (l : list positive) e :
  e ∉ l -> filter (fun x => x ≠ e) (l ++ [e]) = l.
Proof.
  intros He. rewrite filter_app. simpl.
  rewrite filter_cons, decide_False by (by intros ?). simpl.
  rewrite app_nil_r. induction l as [|x l IH]; [done|].
  apply not_elem_of_cons in He as [Hx He].
  rewrite filter_cons, decide_True by done. by rewrite IH.
Qed.

(** X9.  Round trip on a well-formed store: a successful registration
    followed by the cancellation of the same pid succeeds and gives back
    the list, the pid table and every task's reference count exactly as
    they were before the registration, and the entries as one priority
    pass run on the state before the registration leaves them.  When that
    state is one the priority pass leaves unchanged, the entries are
    exactly as they were (the priorities of the other reservations
    included). *)
Theorem register_cancel_round_trip cur p c t st tk :
  store_wf st ->
  ~ args_invalid c t ->
  pid_task st (target_pid cur p) = Some tk ->
  p3_find_locked st (target_pid cur p) = None ->
  (length (p3_rsv_list st) < P3_MAX_RSV)%nat ->
  let st1 := (set_rsv cur true p (Some c) (Some t) st).2 in
  let r := cancel_rsv cur p st1 in
  r.1 = 0 /\
  heap r.2 = heap (p3_reassign_rm_prios_locked st) /\
  p3_rsv_list r.2 = p3_rsv_list st /\
  pidhash r.2 = pidhash st /\
  (forall t', usage_of r.2 t' = usage_of st t') /\
  (p3_reassign_rm_prios_locked st = st -> heap r.2 = heap st).
Proof.
  intros Hwf Hval Htk Hfind Hlen st1 r.
  destruct (set_rsv_success_facts cur p c t st tk Hwf Hval Htk Hfind Hlen)
    as (_ & (v & He & Hl1 & Hf1 & Hnew) & _ & _ & Hus1 & Hph1).
  fold st1 in Hl1, Hf1, Hnew, Hus1, Hph1.
  set (e := fresh (dom (heap st))) in *.
  assert (store_wf st1) as Hwf1 by apply set_rsv_wf, Hwf.
  assert (e ∉ p3_rsv_list st) as Hnotin.
  { intros [? ?]%(wf_alloc st Hwf). congruence. }
  destruct (cancel_rsv_success_facts cur p st1 e _ tk Hwf1 Hf1 Hnew eq_refl)
    as (Hok & _ & Hl2 & _ & _ & _ & _ & Hus2 & Hph2).
  fold r in Hok, Hl2, Hus2, Hph2.
  rewrite Hl1, filter_snoc_fresh in Hl2 by done.
  assert (heap r.2 = heap (p3_reassign_rm_prios_locked st)) as Hheap.
  { pose proof (cancel_rsv_found cur p st1 e Hf1) as Eq2. fold r in Eq2.
    pose proof (set_rsv_success cur p c t st tk Hval Htk Hfind Hlen) as Eq1.
    apply (f_equal snd) in Eq1. cbn [snd] in Eq1. fold st1 e in Eq1.
    set (X := list_add_tail e
                (with_heap
                   (<[e := new_entry (target_pid cur p) tk (ts_ns c) (ts_ns t)]>
                      (heap st)) (get_task_struct tk st))) in *.
    assert (store_wf X) as HwfX by (apply reassign_wf_inv; by rewrite <- Eq1).
    set (Y := p3_free_entry (Some e) (list_del e st1)) in *.
    assert (store_wf Y) as HwfY by (by apply unlink_free_wf).
    assert (p3_rsv_list Y = p3_rsv_list st) as HlY.
    { unfold Y. by rewrite unlink_free_list, Hl1, filter_snoc_fresh. }
    rewrite Eq2. cbn [snd].
    apply reassign_heap_ext; [done..| |].
    + intros it. rewrite HlY. intros Hit.
      assert (it ≠ e) as Hne by (by intros ->).
      unfold Y. rewrite unlink_free_other by done.
      destruct (wf_alloc st Hwf it Hit) as [ent Hent].
      destruct (reassign_frame X it ent) as [v' Hv'].
      { simpl. by rewrite lookup_insert_ne. }
      rewrite Eq1, Hv', Hent. done.
    + intros it. rewrite HlY. intros Hit.
      destruct (decide (it = e)) as [->|Hne].
      * unfold Y. by rewrite p3_free_entry_freed, He.
      * unfold Y. rewrite unlink_free_other by done.
        rewrite Eq1, reassign_lookup_unlinked; [|done|].
        -- simpl. by rewrite lookup_insert_ne.
        -- simpl. rewrite elem_of_app, list_elem_of_singleton. tauto. }
  split_and!; [done|done|done|congruence| |].
  - intros t'. rewrite Hus2, Hus1.
    destruct (usage_of st t') as [u|]; [|done]. simpl.
    case_decide; f_equal; lia.
  - intros Hfix. by rewrite Hheap, Hfix.
Qed.

Lemma register_cancel_round_trip_witness :
  heap (cancel_rsv 101 0
          (set_rsv 101 true 0 (Some (msec 1)) (Some (msec 5)) one_rsv).2).2
  = heap one_rsv.
Proof.
  refine (proj2 (proj2 (proj2 (proj2 (proj2
            (register_cancel_round_trip 101 0 (msec 1) (msec 5)
               one_rsv 2%positive (reachable_wf _ one_rsv_reachable)
               _ _ _ _))))) _).
  - apply args_validb. vm_compute. reflexivity.
  - vm_compute. reflexivity.
  - vm_compute. reflexivity.
  - vm_compute. lia.
  - vm_compute. reflexivity.
Defined.

(** ** Teardown and the scheduling class of the task *)

Lemma free_release_task_tasks e st ent tk t :
  heap st !! e = Some ent -> task ent = Some tk ->
  tasks (free_release_task e st) !! t
  = if decide (t = tk)
    then (fun ts =>
            task_add_usage (-1)
              (if pf_exiting ts then ts
               else task_set_sched SCHED_NORMAL 0 ts)) <$> tasks st !! t
    else tasks st !! t.
Proof.
  intros He Htk. unfold free_release_task. rewrite He, Htk.
  unfold put_task_struct. simpl.
  destruct (decide (t = tk)) as [->|Hne].
  - rewrite lookup_alter_eq.
    destruct (tasks st !! tk) as [ts|] eqn:Hts; [|by rewrite Hts].
    simpl. destruct (pf_exiting ts) eqn:Hex; simpl.
    + by rewrite Hts.
    + by rewrite lookup_alter_eq, Hts.
  - rewrite lookup_alter_ne by done.
    destruct (tasks st !! tk) as [ts|]; [|done].
    destruct (pf_exiting ts); simpl; [done|]. by rewrite lookup_alter_ne.
Qed.

(** X10.  Cancelling the reservation of a task that no other linked
    reservation points to: when the task is not exiting, it is back in
    SCHED_NORMAL with priority 0 after the call; when [PF_EXITING] is set,
    its scheduling class and priority are left as they were.  In both
    cases its reference count is one less. *)
Theorem cancel_rsv_restores_class cur p st e ent tk ts :
  store_wf st ->
  p3_find_locked st (target_pid cur p) = Some e ->
  heap st !! e = Some ent -> task ent = Some tk ->
  tasks st !! tk = Some ts ->
  (forall it, it ∈ p3_rsv_list st -> it ≠ e -> entry_task st it ≠ Some tk) ->
  tasks (cancel_rsv cur p st).2 !! tk
  = Some (mk_task (t_pid ts) (usage ts - 1) (pf_exiting ts)
            (if pf_exiting ts then policy ts else SCHED_NORMAL)
            (if pf_exiting ts then rt_priority ts else 0)).
Proof.
  intros Hwf Hfind He Htk Hts Huniq.
  rewrite (cancel_rsv_found cur p st e Hfind). cbn [snd].
  set (Y := p3_free_entry (Some e) (list_del e st)).
  assert (store_wf Y) as HwfY by (by apply unlink_free_wf).
  unfold p3_reassign_rm_prios_locked. rewrite rm_assign_tasks_other.
  - unfold Y, p3_free_entry.
    change (tasks (kfree e ?s)) with (tasks s).
    erewrite free_release_task_tasks;
      [|simpl; by rewrite !lookup_alter_eq, He|done].
    rewrite decide_True by done. simpl. rewrite Hts. simpl.
    unfold task_add_usage, task_set_sched.
    destruct ts as [tp us ex po rp]. simpl.
    destruct ex; simpl; f_equal; f_equal; lia.
  - intros it Hit. rewrite rm_order_linked in Hit by done.
    unfold Y in Hit. rewrite unlink_free_list in Hit.
    apply list_elem_of_filter in Hit as [Hne Hit].
    unfold entry_task, Y. rewrite unlink_free_other by done.
    by apply Huniq.
Qed.

Lemma cancel_rsv_restores_class_witness :
  tasks (cancel_rsv 101 101 two_rsv).2 !! 2%positive
  = Some (mk_task 101 1 false SCHED_NORMAL 0).
Proof.
  assert (p3_rsv_list two_rsv = [1%positive; 2%positive]) as Hl
    by (vm_compute; reflexivity).
  refine (cancel_rsv_restores_class 101 101 two_rsv 2%positive
            (mk_entry 101 (Some 2%positive) 1000000 5000000 99
               HRTIMER_STATE_ENQUEUED 0 [] 0 false)
            2%positive (mk_task 101 2 false SCHED_FIFO 99)
            (reachable_wf _ two_rsv_reachable) _ _ _ _ _).
  - vm_compute. reflexivity.
  - vm_compute. reflexivity.
  - reflexivity.
  - vm_compute. reflexivity.
  - rewrite Hl.
    intros it [->|[->|[]%elem_of_nil]%elem_of_cons]%elem_of_cons Hne;
      [|exact (False_ind _ (Hne eq_refl))]. vm_compute. intros [=].
Defined.

(** ** Cleanup on task exit *)

(** X11.  [p3_sched_exit_cb] for an exiting task: when the task's pid (not
    0) holds a reservation, the callback leaves exactly the state that
    [cancel_rsv] for that pid leaves, whoever calls it; when the pid holds
    no reservation, the callback leaves what one priority pass leaves, so
    it changes nothing at all in a state that the priority pass leaves
    unchanged. *)
Theorem exit_cleanup t ts st :
  tasks st !! t = Some ts ->
  (forall cur e, t_pid ts ≠ 0 -> p3_find_locked st (t_pid ts) = Some e ->
     p3_sched_exit_cb (Some t) st = (cancel_rsv cur (t_pid ts) st).2) /\
  (p3_find_locked st (t_pid ts) = None ->
     p3_sched_exit_cb (Some t) st = p3_reassign_rm_prios_locked st /\
     (p3_reassign_rm_prios_locked st = st ->
      p3_sched_exit_cb (Some t) st = st)).
Proof.
  intros Hts. split.
  - intros cur e Hpid Hfind.
    assert (target_pid cur (t_pid ts) = t_pid ts) as Htp.
    { unfold target_pid. by apply Z.eqb_neq in Hpid as ->. }
    rewrite (cancel_rsv_found cur (t_pid ts) st e) by (by rewrite Htp).
    unfold p3_sched_exit_cb. by rewrite Hts, Hfind.
  - intros Hfind. unfold p3_sched_exit_cb. rewrite Hts, Hfind.
    split; [reflexivity|]. intros Hfix. exact Hfix.
Qed.

Lemma exit_cleanup_witness :
  p3_sched_exit_cb (Some 2%positive) two_rsv = (cancel_rsv 100 101 two_rsv).2 /\
  p3_sched_exit_cb (Some 2%positive) one_rsv = one_rsv.
Proof.
  split.
  - refine (proj1 (exit_cleanup 2%positive (mk_task 101 2 false SCHED_FIFO 99)
                     two_rsv _) 100 2%positive _ _).
    + vm_compute. reflexivity.
    + vm_compute. intros [=].
    + vm_compute. reflexivity.
  - refine (proj2 (proj2 (exit_cleanup 2%positive (plain_task 101)
                            one_rsv _) _) _).
    + vm_compute. reflexivity.
    + vm_compute. reflexivity.
    + vm_compute. reflexivity.
Defined.

(** ** Linked entries are live *)

Lemma set_rsv_ok_inv cur ok p C T st :
  (set_rsv cur ok p C T st).1 = 0 ->
  exists c t tk,
    C = Some c /\ T = Some t /\ ok = true /\ ~ args_invalid c t /\
    pid_task st (target_pid cur p) = Some tk /\
    p3_find_locked st (target_pid cur p) = None /\
    (length (p3_rsv_list st) < P3_MAX_RSV)%nat.
Proof.
  intros Hok. destruct C as [c|], T as [t|]; try done.
  destruct (decide (args_invalid c t)) as [Hinv|Hval].
  { by rewrite set_rsv_invalid in Hok. }
  rewrite set_rsv_valid in Hok by done.
  destruct (pid_task st (target_pid cur p)) as [tk|] eqn:Htk; [|done].
  simpl in Hok.
  change (p3_find_locked (get_task_struct tk st) (target_pid cur p))
    with (p3_find_locked st (target_pid cur p)) in Hok.
  destruct (p3_find_locked st (target_pid cur p)) eqn:Hfind; [done|].
  simpl in Hok. case_decide as Hcap; [done|].
  destruct ok; [|done]. exists c, t, tk. split_and!; try done. lia.
Qed.

Lemma args_valid_bounds c t :
  ~ args_invalid c t -> 0 < ts_ns c <= ts_ns t.
Proof. unfold args_invalid, ts_nonpositive. lia. Qed.

Lemma entry_live_set_prio v ent : entry_live ent -> entry_live (set_prio v ent).
Proof. done. Qed.

Lemma entry_live_set_wq q ent : entry_live ent -> entry_live (set_wq q ent).
Proof. done. Qed.

Lemma entries_live_unlink e st :
  entries_live st ->
  entries_live (p3_reassign_rm_prios_locked
                  (p3_free_entry (Some e) (list_del e st))).
Proof.
  intros Hlive it. rewrite reassign_list, unlink_free_list.
  intros [Hne Hit]%list_elem_of_filter.
  destruct (Hlive it Hit) as (ent & Hent & Hl).
  destruct (reassign_frame (p3_free_entry (Some e) (list_del e st)) it ent)
    as [v Hv]; [by rewrite unlink_free_other|].
  exists (set_prio v ent). split; [done|by apply entry_live_set_prio].
Qed.

Lemma kstep_entries_live st st' :
  kstep st st' -> store_wf st -> entries_live st -> entries_live st'.
Proof.
  intros Hstep Hwf Hlive. destruct Hstep.
  - destruct (decide ((set_rsv cur ok p C T st).1 = 0)) as [Hok|Hfail];
      [|by rewrite set_rsv_failure_unchanged].
    destruct (set_rsv_ok_inv _ _ _ _ _ _ Hok)
      as (c & t & tk & -> & -> & -> & Hval & Htk & Hfind & Hlen).
    destruct (set_rsv_success_facts cur p c t st tk Hwf Hval Htk Hfind Hlen)
      as (_ & (v & _ & Hl & _ & Hnew) & _ & Hold & _).
    intros it. rewrite Hl.
    intros [Hit| ->%list_elem_of_singleton]%elem_of_app.
    + destruct (Hlive it Hit) as (ent & Hent & Hl').
      destruct (Hold it ent Hent) as [v' Hv'].
      exists (set_prio v' ent). split; [done|by apply entry_live_set_prio].
    + eexists. split; [exact Hnew|].
      pose proof (args_valid_bounds c t Hval). split_and!; simpl; try done; lia.
  - unfold cancel_rsv. case_match; [|done]. simpl. by apply entries_live_unlink.
  - unfold p3_sched_exit_cb. destruct t as [t|]; [|done].
    destruct (tasks st !! t); [|done].
    case_match; [by apply entries_live_unlink|].
    intros it. rewrite reassign_list. intros Hit.
    destruct (Hlive it Hit) as (ent & Hent & Hl).
    destruct (reassign_frame st it ent Hent) as [v Hv].
    exists (set_prio v ent). split; [done|by apply entry_live_set_prio].
  - intros it. rewrite hrtimer_expire_list. intros Hit.
    destruct (Hlive it Hit) as (ent & Hent & Hc & Ht & HCT & Hs).
    destruct (decide (it = e)) as [->|Hne].
    + rewrite (hrtimer_expire_live e st ent) by done.
      eexists. split; [done|].
      pose proof (Z.mod_pos_bound (period_seq ent + 1) (2 ^ 64) ltac:(lia)).
      unfold entry_live, atomic64_inc. simpl. split_and!; try done; lia.
    + rewrite hrtimer_expire_other by done. exists ent. by split_and!.
  - intros it. rewrite wait_step_list. intros Hit.
    destruct (Hlive it Hit) as (ent & Hent & Hl).
    destruct (wait_step_lookup cur sig st pc it ent Hent) as [q Hq].
    exists (set_wq q ent). split; [done|by apply entry_live_set_wq].
Qed.

Lemma reachable_entries_live st : reachable st -> entries_live st.
Proof.
  intros (st0 & Hboot & Hsteps).
  assert (store_wf st0 /\ entries_live st0) as Hinv.
  { split; [by apply boot_wf|]. destruct Hboot as [_ Hl].
    intros it. rewrite Hl. by intros ?%elem_of_nil. }
  clear Hboot. induction Hsteps as [|a b c Hstep _ IH]; [apply Hinv|].
  destruct Hinv as [Hwf Hlive]. apply IH. split.
  - by eapply kstep_wf.
  - by eapply kstep_entries_live.
Qed.

(** X12.  In every reachable state each linked reservation is allocated,
    not canceled, has its timer on the queue, satisfies 0 < C <= T, and
    carries a sequence value within 64 bits. *)
Theorem reachable_linked_live st it :
  reachable st -> it ∈ p3_rsv_list st ->
  exists ent,
    heap st !! it = Some ent /\
    canceled ent = false /\ timer ent = HRTIMER_STATE_ENQUEUED /\
    0 < C_ns ent <= T_ns ent /\ 0 <= period_seq ent < 2 ^ 64.
Proof.
  intros Hreach Hit. by apply (reachable_entries_live st Hreach).
Qed.

Lemma reachable_linked_live_witness :
  exists ent,
    heap one_rsv_aged !! 1%positive = Some ent /\
    canceled ent = false /\ timer ent = HRTIMER_STATE_ENQUEUED /\
    0 < C_ns ent <= T_ns ent /\ 0 <= period_seq ent < 2 ^ 64.
Proof.
  refine (reachable_linked_live one_rsv_aged 1%positive
            one_rsv_aged_reachable _).
  vm_compute. left.
Defined.

(** X13.  The lookup by pid is exact on a well-formed store:
    [p3_find_locked] returns [e] exactly when [e] is a linked entry
    carrying that pid, and returns nothing exactly when no linked entry
    carries it. *)
Theorem p3_find_locked_exact st p :
  store_wf st ->
  (forall e, p3_find_locked st p = Some e <->
     e ∈ p3_rsv_list st /\ exists ent, heap st !! e = Some ent /\ pid ent = p) /\
  (p3_find_locked st p = None <->
     forall e ent, e ∈ p3_rsv_list st -> heap st !! e = Some ent -> pid ent ≠ p).
Proof.
  intros Hwf. split.
  - intros e. split; [apply find_in_Some|].
    intros (Hin & ent & Hent & Hp).
    destruct (find_in_is_Some _ _ _ _ _ Hin Hent Hp) as [e' He'].
    unfold p3_find_locked. rewrite He'. f_equal.
    apply find_in_Some in He' as (Hin' & ent' & Hent' & Hp').
    eapply (wf_pids st Hwf); [done..|congruence].
  - split.
    + intros Hnone e ent. by apply find_in_None.
    + apply find_in_absent.
Qed.

Lemma p3_find_locked_exact_witness :
  p3_find_locked two_rsv 101 = Some 2%positive <->
  2%positive ∈ p3_rsv_list two_rsv /\
  exists ent, heap two_rsv !! 2%positive = Some ent /\ pid ent = 101.
Proof.
  exact (proj1 (p3_find_locked_exact two_rsv 101
                  (reachable_wf _ two_rsv_reachable)) 2%positive).
Defined.

(** ** A call left alone, a call interrupted *)

Lemma wait_alone_sleeps n : forall cur st e s ent,
  heap st !! e = Some ent -> period_seq ent = s -> canceled ent = false ->
  (0 < n)%nat ->
  (wait_alone n cur st (W_wait e s)).2 = W_wait e s /\
  sleeping cur (wait_alone n cur st (W_wait e s)).1 (W_wait e s).
Proof.
  induction n as [|n IH]; intros cur st e s ent He Hs Hc Hn; [lia|].
  assert (wait_cond ent s = false) as Hcond.
  { unfold wait_cond. rewrite Hc. by apply Z.eqb_eq in Hs as ->. }
  cbn [wait_alone]. rewrite (wait_step_wait_sleep cur st e s ent) by done.
  cbn [fst snd].
  destruct (decide (n = 0)%nat) as [->|Hn0].
  - cbn [wait_alone fst snd]. split; [done|].
    simpl. rewrite lookup_insert_eq. simpl. left.
  - eapply IH; [by apply lookup_insert_eq|done..|lia].
Qed.

(** X14.  Without a period boundary there is no return: a call by a task
    whose reservation is linked and not canceled, running with no signal
    pending and with nothing else touching the state, never returns; from
    its third step on it sits in [wait_event_interruptible] on the wait
    queue of its entry, holding the sequence value it read. *)
Theorem wait_blocks_until_boundary cur st e ent :
  p3_find_locked st cur = Some e -> heap st !! e = Some ent ->
  canceled ent = false ->
  (forall n r, (wait_alone n cur st W_lookup).2 ≠ W_return r) /\
  (forall n, (3 <= n)%nat ->
     (wait_alone n cur st W_lookup).2 = W_wait e (period_seq ent) /\
     sleeping cur (wait_alone n cur st W_lookup).1 (W_wait e (period_seq ent))).
Proof.
  intros Hfind He Hc.
  assert (forall n, wait_alone (S (S n)) cur st W_lookup
                    = wait_alone n cur st (W_wait e (period_seq ent))) as Hskip.
  { intros n. cbn [wait_alone].
    rewrite (wait_step_lookup_found cur false st e ent) by done. cbn [fst snd].
    by rewrite (wait_step_recheck_same cur false st e (period_seq ent) ent). }
  assert (forall n, (3 <= n)%nat ->
     (wait_alone n cur st W_lookup).2 = W_wait e (period_seq ent) /\
     sleeping cur (wait_alone n cur st W_lookup).1 (W_wait e (period_seq ent)))
    as Hlate.
  { intros n Hn. destruct n as [|[|n]]; [lia..|]. rewrite Hskip.
    eapply wait_alone_sleeps; [done..|lia]. }
  split; [|done]. intros n r.
  destruct n as [|[|[|n]]].
  - done.
  - cbn [wait_alone]. by rewrite (wait_step_lookup_found cur false st e ent).
  - rewrite Hskip. done.
  - destruct (Hlate (S (S (S n))) ltac:(lia)) as [-> _]. done.
Qed.

Lemma wait_blocks_until_boundary_witness :
  (wait_alone 5 100 one_rsv W_lookup).2 = W_wait 1 0.
Proof.
  refine (proj1 (proj2 (wait_blocks_until_boundary 100 one_rsv 1%positive
            (mk_entry 100 (Some 1%positive) 2000000 10000000 99
               HRTIMER_STATE_ENQUEUED 0 [] 0 false) _ _ _) 5%nat _)).
  - vm_compute. reflexivity.
  - vm_compute. reflexivity.
  - reflexivity.
  - lia.
Defined.

(** X15.  Interruption is retryable: when a signal is pending for a caller
    inside [wait_event_interruptible] whose condition is false, the call
    returns [-EINTR]; the caller is then on no wait queue of the entry,
    the entry is otherwise untouched (same sequence value, not canceled,
    timer as it was), every other entry, the list and the task structures
    are unchanged, and the lookup by pid finds what it found before. *)
Theorem wait_interrupted_retryable cur st e seen ent :
  heap st !! e = Some ent -> wait_cond ent seen = false ->
  let r := wait_step cur true st (W_wait e seen) in
  r.2 = W_return (- EINTR) /\
  heap r.1 !! e = Some (set_wq (filter (fun x => x ≠ cur) (wq ent)) ent) /\
  (cur ∉ filter (fun x => x ≠ cur) (wq ent)) /\
  (forall it, it ≠ e -> heap r.1 !! it = heap st !! it) /\
  p3_rsv_list r.1 = p3_rsv_list st /\ tasks r.1 = tasks st /\
  (forall q, p3_find_locked r.1 q = p3_find_locked st q).
Proof.
  intros He Hcond r.
  assert (r = (with_heap
                 (<[e := set_wq (filter (fun x => x ≠ cur) (wq ent)) ent]> (heap st))
                 st, W_return (- EINTR))) as ->.
  { unfold r. simpl. by rewrite He, Hcond. }
  cbn [fst snd]. split_and!; try done.
  - simpl. by rewrite lookup_insert_eq.
  - rewrite list_elem_of_filter. tauto.
  - intros it Hne. simpl. by rewrite lookup_insert_ne.
  - intros q. unfold p3_find_locked. simpl. apply find_in_ext.
    intros it _. destruct (decide (it = e)) as [->|Hne].
    + by rewrite lookup_insert_eq, He.
    + by rewrite lookup_insert_ne.
Qed.

Lemma wait_interrupted_retryable_witness :
  (wait_step 100 true (wait_alone 3 100 one_rsv W_lookup).1 (W_wait 1 0)).2
  = W_return (- EINTR).
Proof.
  refine (proj1 (wait_interrupted_retryable 100
            (wait_alone 3 100 one_rsv W_lookup).1 1%positive 0
            (mk_entry 100 (Some 1%positive) 2000000 10000000 99
               HRTIMER_STATE_ENQUEUED 0 [100] 0 false) _ _)).
  - vm_compute. reflexivity.
  - reflexivity.
Defined.

(** ** The sequence counter counts periods *)

Lemma expire_n_list n e st : p3_rsv_list (expire_n n e st) = p3_rsv_list st.
Proof.
  induction n as [|n IH]; [done|].
  change (expire_n (S n) e st) with (hrtimer_expire e (expire_n n e st)).
  by rewrite hrtimer_expire_list.
Qed.

Lemma hrtimer_expire_tasks e st : tasks (hrtimer_expire e st) = tasks st.
Proof.
  unfold hrtimer_expire. destruct (heap st !! e) as [ee|]; [|done].
  destruct (timer ee); [done|].
  unfold p3_timer_cb. simpl. rewrite lookup_insert_eq. simpl.
  by destruct (canceled ee).
Qed.

Lemma expire_n_tasks n e st : tasks (expire_n n e st) = tasks st.
Proof.
  induction n as [|n IH]; [done|].
  change (expire_n (S n) e st) with (hrtimer_expire e (expire_n n e st)).
  by rewrite hrtimer_expire_tasks.
Qed.

Lemma expire_n_other n e st it :
  it ≠ e -> heap (expire_n n e st) !! it = heap st !! it.
Proof.
  intros Hne. induction n as [|n IH]; [done|].
  change (expire_n (S n) e st) with (hrtimer_expire e (expire_n n e st)).
  by rewrite hrtimer_expire_other.
Qed.

Lemma expire_n_entry n : forall e st ent,
  heap st !! e = Some ent -> canceled ent = false ->
  timer ent = HRTIMER_STATE_ENQUEUED -> (0 < n)%nat ->
  heap (expire_n n e st) !! e
  = Some (set_wq [] (set_period_seq
                      ((period_seq ent + Z.of_nat n) mod 2 ^ 64) ent)).
Proof.
  induction n as [|n IH]; intros e st ent He Hc Ht Hn; [lia|].
  change (expire_n (S n) e st) with (hrtimer_expire e (expire_n n e st)).
  destruct (decide (n = 0)%nat) as [->|Hn0].
  - simpl. rewrite (hrtimer_expire_live e st ent) by done.
    unfold atomic64_inc. done.
  - rewrite (hrtimer_expire_live e _ _ (IH e st ent He Hc Ht ltac:(lia)))
      by done.
    simpl. unfold atomic64_inc. rewrite Zplus_mod_idemp_l.
    replace (period_seq ent + Z.of_nat (S n))
      with (period_seq ent + Z.of_nat n + 1) by lia.
    done.
Qed.

(** X16.  The sequence counter counts period boundaries: after [n > 0]
    expiries of the timer of a live entry, its [period_seq] has advanced
    by [n] modulo 2^64 and its wait queue is empty; nothing else in the
    entry has changed, and no other entry, nor the list, nor any task
    structure has been touched. *)
Theorem period_seq_counts_expiries n e st ent :
  heap st !! e = Some ent -> canceled ent = false ->
  timer ent = HRTIMER_STATE_ENQUEUED -> (0 < n)%nat ->
  heap (expire_n n e st) !! e
  = Some (mk_entry (pid ent) (task ent) (C_ns ent) (T_ns ent) (prio ent)
            HRTIMER_STATE_ENQUEUED (next_release ent) []
            ((period_seq ent + Z.of_nat n) mod 2 ^ 64) false) /\
  (forall it, it ≠ e -> heap (expire_n n e st) !! it = heap st !! it) /\
  p3_rsv_list (expire_n n e st) = p3_rsv_list st /\
  tasks (expire_n n e st) = tasks st.
Proof.
  intros He Hc Ht Hn. split_and!.
  - rewrite (expire_n_entry n e st ent) by done.
    destruct ent; simpl in *; by subst.
  - intros it Hne. by apply expire_n_other.
  - apply expire_n_list.
  - apply expire_n_tasks.
Qed.

Lemma period_seq_counts_expiries_witness :
  heap (expire_n 3 1 one_rsv) !! 1%positive
  = Some (mk_entry 100 (Some 1%positive) 2000000 10000000 99
            HRTIMER_STATE_ENQUEUED 0 [] ((0 + 3) mod 2 ^ 64) false).
Proof.
  refine (proj1 (period_seq_counts_expiries 3 1%positive one_rsv
            (mk_entry 100 (Some 1%positive) 2000000 10000000 99
               HRTIMER_STATE_ENQUEUED 0 [] 0 false) _ _ _ _)).
  - vm_compute. reflexivity.
  - reflexivity.
  - reflexivity.
  - lia.
Defined.

(** ** Validation in exact nanoseconds *)

(** X17.  For normalised arguments below the saturation bound of
    [ktime_set] (0 <= tv_sec < KTIME_SEC_MAX, 0 <= tv_nsec < 10^9),
    [set_rsv] returns [-EINVAL] exactly when, in whole nanoseconds, C is
    zero, T is zero, or C exceeds T. *)
Theorem set_rsv_validation_exact cur ok p c t st :
  0 <= tv_sec c < KTIME_SEC_MAX -> 0 <= tv_nsec c < NSEC_PER_SEC ->
  0 <= tv_sec t < KTIME_SEC_MAX -> 0 <= tv_nsec t < NSEC_PER_SEC ->
  (set_rsv cur ok p (Some c) (Some t) st).1 = - EINVAL <->
  tv_sec c * NSEC_PER_SEC + tv_nsec c = 0 \/
  tv_sec t * NSEC_PER_SEC + tv_nsec t = 0 \/
  tv_sec t * NSEC_PER_SEC + tv_nsec t < tv_sec c * NSEC_PER_SEC + tv_nsec c.
Proof.
  intros Hcs Hcn Hts Htn.
  pose proof (ts_ns_normalised c Hcs Hcn) as HC.
  pose proof (ts_ns_normalised t Hts Htn) as HT.
  assert (args_invalid c t <->
          tv_sec c * NSEC_PER_SEC + tv_nsec c = 0 \/
          tv_sec t * NSEC_PER_SEC + tv_nsec t = 0 \/
          tv_sec t * NSEC_PER_SEC + tv_nsec t
          < tv_sec c * NSEC_PER_SEC + tv_nsec c) as Hiff.
  { unfold args_invalid, ts_nonpositive. rewrite HC, HT.
    unfold NSEC_PER_SEC in *. lia. }
  rewrite <- Hiff. split.
  - intros Hres. destruct (decide (args_invalid c t)) as [|Hval]; [done|].
    exfalso. rewrite set_rsv_valid in Hres by done.
    destruct (pid_task st (target_pid cur p)); [|done]. simpl in Hres.
    destruct (p3_find_locked _ _); [done|]. simpl in Hres.
    case_decide; [done|]. by destruct ok.
  - intros Hinv. by rewrite set_rsv_invalid.
Qed.

Lemma set_rsv_validation_exact_witness :
  (set_rsv 100 true 100 (Some (msec 20)) (Some (msec 10)) (boot_state [100])).1
  = - EINVAL.
Proof.
  refine (proj2 (set_rsv_validation_exact 100 true 100 (msec 20) (msec 10)
                   (boot_state [100]) _ _ _ _) _).
  - vm_compute. split; [discriminate|reflexivity].
  - vm_compute. split; [discriminate|reflexivity].
  - vm_compute. split; [discriminate|reflexivity].
  - vm_compute. split; [discriminate|reflexivity].
  - right; right. vm_compute. reflexivity.
Defined.

(** ** The growth loop of the calibration tool *)

Lemma calibrate_grow_more fuel : forall f meas k calib us r,
  calibrate_grow fuel meas k calib us = Some r ->
  calibrate_grow (fuel + f) meas k calib us = Some r.
Proof.
  induction fuel as [|fuel IH]; intros f meas k calib us r; simpl.
  - destruct (us <? 100) eqn:Hus; [|destruct f; simpl; by rewrite Hus].
    destruct (calib >? 1000000) eqn:Hc; [|done].
    destruct f; simpl; by rewrite Hus, Hc.
  - destruct (us <? 100); [|done]. destruct (calib >? 1000000); [done|].
    apply IH.
Qed.

Lemma calibrate_grow_from d : forall meas j us,
  (j <= 7)%nat -> d = (7 - j)%nat ->
  exists j' us',
    calibrate_grow d meas (S j) (10 ^ Z.of_nat j) us
    = Some (10 ^ Z.of_nat j', us', S j') /\
    (j <= j' <= 7)%nat /\ ((100 <= us') \/ (j' = 7%nat)) /\
    ((j' = j /\ us' = us) \/
     ((j < j')%nat /\ us' = meas j' /\ us < 100 /\
      forall i, (j < i < j')%nat -> meas i < 100)).
Proof.
  induction d as [|d IH]; intros meas j us Hj Hd.
  - assert (j = 7%nat) as -> by lia. exists 7%nat, us.
    cbn [calibrate_grow].
    assert ((10 ^ Z.of_nat 7 >? 1000000) = true) as -> by reflexivity.
    split; [by destruct (us <? 100)|].
    split_and!; [lia|lia|by right|by left].
  - cbn [calibrate_grow]. destruct (us <? 100) eqn:Hus.
    + assert ((10 ^ Z.of_nat j >? 1000000) = false) as ->.
      { rewrite Z.gtb_ltb. apply Z.ltb_ge.
        assert (10 ^ Z.of_nat j <= 10 ^ 6) by (apply Z.pow_le_mono_r; lia).
        lia. }
      assert (to_s32 (10 ^ Z.of_nat j * 10) = 10 ^ Z.of_nat (S j)) as ->.
      { rewrite Nat2Z.inj_succ, Z.pow_succ_r by lia.
        pose proof (Z.pow_pos_nonneg 10 (Z.of_nat j) ltac:(lia) ltac:(lia)).
        assert (10 ^ Z.of_nat j <= 10 ^ 6) by (apply Z.pow_le_mono_r; lia).
        unfold to_s32. rewrite Z.mod_small; lia. }
      destruct (IH meas (S j) (meas (S j)) ltac:(lia) ltac:(lia))
        as (j' & us' & Heq & Hr & Hex & Hor).
      exists j', us'. split; [done|]. split_and!; [lia|lia|done|].
      right. apply Z.ltb_lt in Hus.
      destruct Hor as [[-> ->]|(Hlt & -> & Hsmall & Hall)].
      * split_and!; [lia|done|done|]. intros i Hi. lia.
      * split_and!; [lia|done|done|]. intros i Hi.
        destruct (decide (i = S j)) as [->|]; [done|]. apply Hall. lia.
    + exists j, us. split; [done|]. apply Z.ltb_ge in Hus.
      split_and!; [lia|lia|by left|by left].
Qed.

(** X18.  The growth loop of [calibrate] always ends, whatever the clock
    reports: after at most seven multiplications by ten.  The calibration
    value it leaves is 10^j with j <= 7, so between 1 and 10,000,000 and
    never beyond the range of [int]; j + 1 measurements were taken, every
    one before the last was below 100 us, and the loop stopped because the
    last one reached 100 us or because the value had reached 10^7. *)
Theorem calibrate_growth_bounded meas f :
  exists j,
    calibrate_start (7 + f) meas = Some (10 ^ Z.of_nat j, meas j, S j) /\
    (j <= 7)%nat /\ 1 <= 10 ^ Z.of_nat j <= 10000000 /\
    ((100 <= meas j) \/ (j = 7%nat)) /\
    (forall i, (i < j)%nat -> meas i < 100).
Proof.
  destruct (calibrate_grow_from 7 meas 0 (meas 0%nat) ltac:(lia) eq_refl)
    as (j & us & Heq & Hj & Hstop & Hor).
  assert (us = meas j /\ forall i, (i < j)%nat -> meas i < 100) as [-> Hsmall].
  { destruct Hor as [[-> ->]|(Hlt & -> & H0 & Hall)].
    - split; [done|]. intros i Hi. lia.
    - split; [done|]. intros i Hi.
      destruct (decide (i = 0)%nat) as [->|]; [done|]. apply Hall. lia. }
  exists j. split_and!; [|lia| | |done|done].
  - unfold calibrate_start. by apply calibrate_grow_more.
  - pose proof (Z.pow_pos_nonneg 10 (Z.of_nat j) ltac:(lia) ltac:(lia)). lia.
  - assert (10 ^ Z.of_nat j <= 10 ^ 7) by (apply Z.pow_le_mono_r; lia). lia.
Qed.

(** ** A waiter that outlives the cancellation *)

(** X19.  [cancel_rsv] frees the entry it unlinked before it returns, and
    nothing makes it wait for tasks that still hold the entry pointer: in
    the state a successful [cancel_rsv] leaves, the entry is no longer
    allocated, so the next step of a caller of [wait_until_next_period]
    that had looked this entry up (at the re-check, inside the wait, or at
    the read of [canceled]) is a read of freed memory and yields no return
    value. *)
Theorem waiter_after_cancel_reads_freed cur p st e :
  p3_find_locked st (target_pid cur p) = Some e ->
  (cancel_rsv cur p st).1 = 0 /\
  heap (cancel_rsv cur p st).2 !! e = None /\
  (forall w sig seen,
     (wait_step w sig (cancel_rsv cur p st).2 (W_recheck e seen)).2 = W_fault /\
     (wait_step w sig (cancel_rsv cur p st).2 (W_wait e seen)).2 = W_fault /\
     (wait_step w sig (cancel_rsv cur p st).2 (W_woken e)).2 = W_fault).
Proof.
  intros Hfind. rewrite (cancel_rsv_found cur p st e Hfind). cbn [fst snd].
  assert (heap (p3_reassign_rm_prios_locked
                  (p3_free_entry (Some e) (list_del e st))) !! e = None) as He.
  { apply eq_None_not_Some. rewrite reassign_alloc, p3_free_entry_freed.
    by intros [? ?]. }
  split_and!; [done..|]. intros w sig seen.
  split_and!; unfold wait_step; by rewrite He.
Qed.

Lemma waiter_after_cancel_reads_freed_witness :
  (wait_step 100 false (cancel_rsv 100 0 one_rsv).2 (W_woken 1)).2 = W_fault.
Proof.
  refine (proj2 (proj2 (proj2 (proj2
            (waiter_after_cancel_reads_freed 100 0 one_rsv 1%positive _))
            100 false 0))).
  vm_compute. reflexivity.
Defined.

(** ** The rate-monotonic scenario, as the scheduler sees it *)

(** After a pass, a task whose structure exists and that the assignment
    loop wrote last at rank [k] is in SCHED_FIFO at the priority of that
    rank. *)
Lemma reassign_sched_rank st t k :
  last_task_rank st t 0 (rm_order st) = Some k ->
  is_Some (usage_of (p3_reassign_rm_prios_locked st) t) ->
  sched_of (p3_reassign_rm_prios_locked st) t = Some (SCHED_FIFO, rm_prio k).
Proof.
  intros Hk. rewrite reassign_usage. unfold usage_of, sched_of.
  unfold p3_reassign_rm_prios_locked. rewrite rm_assign_tasks, Hk.
  intros [u Hu]. destruct (tasks st !! t) as [ts|]; [|done]. done.
Qed.

(** C8.  From a state without reservations in which pids 100 and 101
    resolve: registering 100 with (2 ms, 10 ms) gives it the highest
    priority [MAX_RT_PRIO - 1]; registering 101 with (1 ms, 5 ms) then
    gives 101 that priority and moves 100 one rank down; cancelling 101
    brings 100 back to [MAX_RT_PRIO - 1].  This holds of the priority
    stored in the reservation and, when the two pids resolve to two
    different task structures that exist, of what the scheduler was told
    for the task: SCHED_FIFO at that same priority after each step. *)
Theorem rm_scenario st0 cur t100 t101 :
  boot st0 ->
  pid_task st0 100 = Some t100 ->
  pid_task st0 101 = Some t101 ->
  let r1 := set_rsv cur true 100 (Some (msec 2)) (Some (msec 10)) st0 in
  let r2 := set_rsv cur true 101 (Some (msec 1)) (Some (msec 5)) r1.2 in
  let r3 := cancel_rsv cur 101 r2.2 in
  r1.1 = 0 /\ rsv_prio r1.2 100 = Some (MAX_RT_PRIO - 1) /\
  r2.1 = 0 /\ rsv_prio r2.2 101 = Some (MAX_RT_PRIO - 1) /\
  rsv_prio r2.2 100 = Some (MAX_RT_PRIO - 1 - 1) /\
  r3.1 = 0 /\ rsv_prio r3.2 100 = Some (MAX_RT_PRIO - 1) /\
  rsv_prio r3.2 101 = None /\
  (t100 ≠ t101 ->
   is_Some (tasks st0 !! t100) -> is_Some (tasks st0 !! t101) ->
   sched_of r1.2 t100 = Some (SCHED_FIFO, MAX_RT_PRIO - 1) /\
   sched_of r2.2 t101 = Some (SCHED_FIFO, MAX_RT_PRIO - 1) /\
   sched_of r2.2 t100 = Some (SCHED_FIFO, MAX_RT_PRIO - 1 - 1) /\
   sched_of r3.2 t100 = Some (SCHED_FIFO, MAX_RT_PRIO - 1)).
Proof.
  intros Hboot.
  pose proof (boot_wf st0 Hboot) as Hwf0.
  destruct st0 as [h l ts ph].
  destruct Hboot as [Hh Hl]. simpl in Hh, Hl. subst h l.
  intros H100 H101 r1 r2 r3.
  pose proof (set_rsv_success cur 100 (msec 2) (msec 10) _ t100
                valid_2ms_10ms H100 eq_refl ltac:(vm_compute; lia)) as E1.
  fold r1 in E1.
  assert (pid_task r1.2 101 = Some t101) as H101'.
  { unfold pid_task, r1. by rewrite set_rsv_pidhash. }
  assert (p3_find_locked r1.2 101 = None) as Hf1.
  { rewrite E1. vm_compute. reflexivity. }
  assert (length (p3_rsv_list r1.2) < P3_MAX_RSV)%nat as Hl1.
  { rewrite E1. vm_compute. lia. }
  pose proof (set_rsv_success cur 101 (msec 1) (msec 5) _ t101
                valid_1ms_5ms H101' Hf1 Hl1) as E2.
  fold r2 in E2.
  assert (p3_find_locked r2.2 (target_pid cur 101) = Some 2%positive) as Hf2.
  { rewrite E2, E1. vm_compute. reflexivity. }
  pose proof (cancel_rsv_found cur 101 r2.2 2%positive Hf2) as E3.
  fold r3 in E3.
  split_and!.
  - by rewrite E1.
  - rewrite E1. vm_compute. reflexivity.
  - by rewrite E2.
  - rewrite E2, E1. vm_compute. reflexivity.
  - rewrite E2, E1. vm_compute. reflexivity.
  - by rewrite E3.
  - rewrite E3. cbn [snd].
    rewrite rsv_prio_reassign_store, unlink_free_store_only, E2, E1.
    vm_compute. reflexivity.
  - rewrite E3. cbn [snd].
    rewrite rsv_prio_reassign_store, unlink_free_store_only, E2, E1.
    vm_compute. reflexivity.
  - intros Hne Ht100 Ht101.
    assert (store_wf r1.2) as Hwf1 by apply set_rsv_wf, Hwf0.
    assert (store_wf r2.2) as Hwf2 by apply set_rsv_wf, Hwf1.
    (* the task structures are there after every step *)
    destruct (set_rsv_success_facts cur 100 (msec 2) (msec 10) _ t100
                Hwf0 valid_2ms_10ms H100 eq_refl ltac:(vm_compute; lia))
      as (_ & _ & _ & _ & Hus1 & _).
    fold r1 in Hus1.
    destruct (set_rsv_success_facts cur 101 (msec 1) (msec 5) _ t101
                Hwf1 valid_1ms_5ms H101' Hf1 Hl1)
      as (_ & _ & _ & _ & Hus2 & _).
    fold r2 in Hus2.
    assert (heap r2.2 !! 2%positive
            = Some (mk_entry 101 (Some t101) 1000000 5000000 99
                      HRTIMER_STATE_ENQUEUED 0 [] 0 false)) as He2.
    { rewrite E2, E1. vm_compute. reflexivity. }
    destruct (cancel_rsv_success_facts cur 101 r2.2 2%positive _ t101
                Hwf2 Hf2 He2 eq_refl)
      as (_ & _ & _ & _ & _ & _ & _ & Hus3 & _).
    fold r3 in Hus3.
    assert (forall t, is_Some (tasks (mk_kstate ∅ [] ts ph) !! t) ->
              is_Some (usage_of r1.2 t)) as Hex1.
    { intros t [x Hx]. rewrite Hus1. unfold usage_of. rewrite Hx. by eexists. }
    assert (forall t, is_Some (tasks (mk_kstate ∅ [] ts ph) !! t) ->
              is_Some (usage_of r2.2 t)) as Hex2.
    { intros t Ht. rewrite Hus2. destruct (Hex1 t Ht) as [u ->]. by eexists. }
    assert (forall t, is_Some (tasks (mk_kstate ∅ [] ts ph) !! t) ->
              is_Some (usage_of r3.2 t)) as Hex3.
    { intros t Ht. rewrite Hus3. destruct (Hex2 t Ht) as [u ->]. by eexists. }
    specialize (Hex1 t100 Ht100).
    pose proof (Hex2 t100 Ht100) as Hex2a.
    pose proof (Hex2 t101 Ht101) as Hex2b.
    specialize (Hex3 t100 Ht100). clear Hex2.
    split_and!.
    + rewrite E1 in Hex1 |- *. cbn [snd] in Hex1 |- *.
      apply (reassign_sched_rank _ t100 0%nat); [|done].
      match goal with
      | |- last_task_rank ?X _ _ _ = _ =>
          assert (rm_order X = [1%positive]) as ->
            by (vm_compute; reflexivity);
          assert (entry_task X 1%positive = Some t100) as Het
            by (vm_compute; reflexivity)
      end.
      cbn [last_task_rank]. rewrite Het. by rewrite decide_True.
    + rewrite E2 in Hex2b |- *. cbn [snd] in Hex2b |- *.
      apply (reassign_sched_rank _ t101 0%nat); [|done].
      match goal with
      | |- last_task_rank ?X _ _ _ = _ =>
          assert (rm_order X = [2%positive; 1%positive]) as ->
            by (rewrite E1; vm_compute; reflexivity);
          assert (entry_task X 1%positive = Some t100) as Het1
            by (rewrite E1; vm_compute; reflexivity);
          assert (entry_task X 2%positive = Some t101) as Het2
            by (rewrite E1; vm_compute; reflexivity)
      end.
      cbn [last_task_rank]. rewrite Het1, Het2.
      rewrite decide_False by congruence. by rewrite decide_True.
    + rewrite E2 in Hex2a |- *. cbn [snd] in Hex2a |- *.
      apply (reassign_sched_rank _ t100 1%nat); [|done].
      match goal with
      | |- last_task_rank ?X _ _ _ = _ =>
          assert (rm_order X = [2%positive; 1%positive]) as ->
            by (rewrite E1; vm_compute; reflexivity);
          assert (entry_task X 1%positive = Some t100) as Het1
            by (rewrite E1; vm_compute; reflexivity)
      end.
      cbn [last_task_rank]. rewrite Het1. by rewrite decide_True.
    + rewrite E3 in Hex3 |- *. cbn [snd] in Hex3 |- *.
      apply (reassign_sched_rank _ t100 0%nat); [|done].
      assert (rm_order (p3_free_entry (Some 2%positive)
                          (list_del 2%positive r2.2)) = [1%positive]) as ->.
      { unfold rm_order. rewrite p3_free_entry_heap, unlink_free_list.
        rewrite E2, E1. vm_compute. reflexivity. }
      assert (entry_task (p3_free_entry (Some 2%positive)
                            (list_del 2%positive r2.2)) 1%positive
              = Some t100) as Het1.
      { unfold entry_task. rewrite unlink_free_other by done.
        rewrite E2, E1. vm_compute. reflexivity. }
      cbn [last_task_rank]. rewrite Het1. by rewrite decide_True.
Qed.

Lemma rm_scenario_witness :
  let st0 := boot_state [100; 101] in
  let r1 := set_rsv 100 true 100 (Some (msec 2)) (Some (msec 10)) st0 in
  let r2 := set_rsv 100 true 101 (Some (msec 1)) (Some (msec 5)) r1.2 in
  let r3 := cancel_rsv 100 101 r2.2 in
  rsv_prio r1.2 100 = Some (MAX_RT_PRIO - 1) /\
  sched_of r1.2 1%positive = Some (SCHED_FIFO, MAX_RT_PRIO - 1) /\
  sched_of r2.2 2%positive = Some (SCHED_FIFO, MAX_RT_PRIO - 1) /\
  sched_of r2.2 1%positive = Some (SCHED_FIFO, MAX_RT_PRIO - 1 - 1) /\
  sched_of r3.2 1%positive = Some (SCHED_FIFO, MAX_RT_PRIO - 1).
Proof.
  intros st0 r1 r2 r3.
  assert (boot st0) as Hboot by (split; reflexivity).
  assert (pid_task st0 100 = Some 1%positive) as H100
    by (vm_compute; reflexivity).
  assert (pid_task st0 101 = Some 2%positive) as H101
    by (vm_compute; reflexivity).
  assert (is_Some (tasks st0 !! 1%positive)) as Ht100
    by (exists (plain_task 100); vm_compute; reflexivity).
  assert (is_Some (tasks st0 !! 2%positive)) as Ht101
    by (exists (plain_task 101); vm_compute; reflexivity).
  assert (1%positive ≠ 2%positive) as Hne by (intros [=]).
  destruct (rm_scenario st0 100 1%positive 2%positive Hboot H100 H101)
    as (_ & Hp1 & _ & _ & _ & _ & _ & _ & Hsched).
  split; [exact Hp1|]. exact (Hsched Hne Ht100 Ht101).
Defined.
